(** * Crossword synthesis core of rss-crossword

    A shallow embedding of [crosswordGenerator.ts] (text normaliser, grid
    model, placement engine, synthesiser, numbering), of the play contract
    of [puzzleService.ts] (answer check, hint reveal) and of the keyword
    service of [claudeService.ts] that feeds them, with the properties the
    specification states about them and further properties of the code. *)

From Stdlib Require Import NArith ZArith Lia PrimFloat Uint63 Sorted.
From stdpp Require Import base list gmap strings.

Open Scope nat_scope.

(** * The program *)

(** ** Strings

    A string is the sequence of its code points, which is what the spread
    [[...s]] of the source iterates.  [split('')] and the regular
    expressions of [normalizeJapanese] work on UTF-16 code units, but every
    unit they test or rewrite is a kana of the basic plane, outside the
    surrogate range, so they act on the code point sequence in the same
    way. *)

Abbreviation jsstring := (list N).

(** [a === b] on strings. *)
Definition strEq (a b : jsstring) : bool := bool_decide (a = b).

(** A string literal of the source, all in ASCII. *)
Definition lit (s : string) : jsstring :=
  map Ascii.N_of_ascii (String.list_ascii_of_string s).

(** ** Text normaliser *)

Section Normalizer.

(** [String.prototype.toUpperCase] maps every code point of the string
    to its Unicode uppercase mapping, a sequence of code points, and
    joins the results.  The mapping itself is a table of the Unicode
    character database; the development takes it as [upperCP]. *)
Variable upperCP : N → list N.

Definition toUpperCase (s : jsstring) : jsstring := flat_map upperCP s.

(** [code >= 0x3041 && code <= 0x3096 ? code + 0x60 : code] *)
Definition hiraganaToKatakana (code : N) : N :=
  if ((0x3041 <=? code) && (code <=? 0x3096))%N then (code + 0x60)%N
  else code.

(** [.replace(/from/g, to)] for a one-character pattern. *)
Definition replaceChar (from to ch : N) : N :=
  if (ch =? from)%N then to else ch.

Definition replaceAll (from to : N) (s : jsstring) : jsstring :=
  map (replaceChar from to) s.

Definition foldSmallKana (s : jsstring) : jsstring :=
  replaceAll 0x30EE 0x30EF        (* ヮ → ワ *)
 (replaceAll 0x30E7 0x30E8        (* ョ → ヨ *)
 (replaceAll 0x30E5 0x30E6        (* ュ → ユ *)
 (replaceAll 0x30E3 0x30E4        (* ャ → ヤ *)
 (replaceAll 0x30C3 0x30C4        (* ッ → ツ *)
 (replaceAll 0x30A9 0x30AA        (* ォ → オ *)
 (replaceAll 0x30A7 0x30A8        (* ェ → エ *)
 (replaceAll 0x30A5 0x30A6        (* ゥ → ウ *)
 (replaceAll 0x30A3 0x30A4        (* ィ → イ *)
 (replaceAll 0x30A1 0x30A2 s))))))))). (* ァ → ア *)

Definition normalizeJapanese (text : jsstring) : jsstring :=
  toUpperCase (foldSmallKana (map hiraganaToKatakana text)).

(** What the two kana steps do to one code point. *)
Definition kanaStep (code : N) : N :=
  replaceChar 0x30EE 0x30EF
 (replaceChar 0x30E7 0x30E8
 (replaceChar 0x30E5 0x30E6
 (replaceChar 0x30E3 0x30E4
 (replaceChar 0x30C3 0x30C4
 (replaceChar 0x30A9 0x30AA
 (replaceChar 0x30A7 0x30A8
 (replaceChar 0x30A5 0x30A6
 (replaceChar 0x30A3 0x30A4
 (replaceChar 0x30A1 0x30A2 (hiraganaToKatakana code)))))))))).

(** The code points the kana steps rewrite: the hiragana range and the
    ten small katakana. *)
Definition rewritten (c : N) : bool :=
  ((0x3041 <=? c) && (c <=? 0x3096))%N
  || existsb (N.eqb c) [0x30A1; 0x30A3; 0x30A5; 0x30A7; 0x30A9;
                        0x30C3; 0x30E3; 0x30E5; 0x30E7; 0x30EE]%N.

(** The hiragana and katakana blocks. *)
Definition kanaBlock (c : N) : Prop := (0x3041 ≤ c ≤ 0x30FF)%N.

(** A grapheme that normalisation leaves alone. *)
Definition normalizedGrapheme (g : N) : Prop := normalizeJapanese [g] = [g].

(** A code point is settled when neither step of the normaliser changes
    it. *)
Definition settled (c : N) : Prop :=
  rewritten c = false ∧ upperCP c = [c].

End Normalizer.

(** ** Grid model

    A cell of the working grid is [string | null]: [None] is [null], a
    blocked cell, and [Some g] holds the grapheme [g]. *)

Abbreviation Grid := (list (list (option N))).

(** [grid[r][c]].  [None] stands for [undefined], the value of a read past
    the end of a row.  A read past the last row raises a [TypeError] in the
    source; [canPlaceWord] guards every row it reads by [size], so no such
    read happens when [row] is inside the grid, and the embedding gives it
    [undefined] as well. *)
Definition cellAt (grid : Grid) (r c : nat) : option (option N) :=
  grid !! r ≫= (.!! c).

(** [grid[r][c] !== null] *)
Definition notNull (grid : Grid) (r c : nat) : bool :=
  match cellAt grid r c with
  | Some None => false
  | _ => true
  end.

(** The cell of index [i] in the run that starts at [(row, col)]:
    [r = horizontal ? row : row + i], [c = horizontal ? col + i : col]. *)
Definition runRow (row : nat) (horizontal : bool) (i : nat) : nat :=
  if horizontal then row else row + i.

Definition runCol (col : nat) (horizontal : bool) (i : nat) : nat :=
  if horizontal then col + i else col.

(** ** Placement engine *)

(** The first block of [canPlaceWord], under the comment [Check bounds]:
    [true] when none of its [return false] fires. *)
Definition checkBounds (grid : Grid) (len row col : nat) (horizontal : bool)
  : bool :=
  let size := length grid in
  if horizontal then
    if size <? col + len then false
    else if (0 <? col) && notNull grid row (col - 1) then false
    else if (col + len <? size) && notNull grid row (col + len) then false
    else true
  else
    if size <? row + len then false
    else if (0 <? row) && notNull grid (row - 1) col then false
    else if (row + len <? size) && notNull grid (row + len) col then false
    else true.

(** The perpendicular adjacency test of a cell that is still empty. *)
Definition checkSides (grid : Grid) (r c : nat) (horizontal : bool) : bool :=
  let size := length grid in
  if horizontal then
    if (0 <? r) && notNull grid (r - 1) c then false
    else if (r <? size - 1) && notNull grid (r + 1) c then false
    else true
  else
    if (0 <? c) && notNull grid r (c - 1) then false
    else if (c <? size - 1) && notNull grid r (c + 1) then false
    else true.

(** The [for] loop of [canPlaceWord] from index [i] on, over the graphemes
    that are left: [None] when it returns [false], else the final value of
    [hasIntersection]. *)
Fixpoint scanRun (grid : Grid) (row col : nat) (horizontal : bool)
    (chars : list N) (i : nat) (hasIntersection : bool) : option bool :=
  match chars with
  | [] => Some hasIntersection
  | ch :: rest =>
      let r := runRow row horizontal i in
      let c := runCol col horizontal i in
      match cellAt grid r c with
      | Some (Some existing) =>
          if negb (existing =? ch)%N then None
          else scanRun grid row col horizontal rest (S i) true
      | Some None =>
          if checkSides grid r c horizontal
          then scanRun grid row col horizontal rest (S i) hasIntersection
          else None
      | None => None  (* [undefined] is neither [null] nor a grapheme *)
      end
  end.

Definition canPlaceWord (grid : Grid) (word : jsstring) (row col : nat)
    (horizontal requireIntersection : bool) : bool :=
  let chars := word in
  let len := length chars in
  if checkBounds grid len row col horizontal then
    match scanRun grid row col horizontal chars 0 false with
    | None => false
    | Some hasIntersection =>
        if requireIntersection && negb hasIntersection then false else true
    end
  else false.

(** ** Records of the generator *)

Module WordClue.
Record t := mk {
  answer : jsstring;
  clue : jsstring;
  articleLink : option jsstring;
  articleId : option Z
}.
End WordClue.

Module Placement.
Record t := mk {
  row : nat;
  col : nat;
  horizontal : bool;
  intersections : nat
}.
End Placement.

(** An element of the [placed] array of an attempt. *)
Module Placed.
Record t := mk {
  word : WordClue.t;
  row : nat;
  col : nat;
  horizontal : bool
}.
End Placed.

Inductive Orientation := across | down.

Module GridCell.
Record t := mk {
  letter : option N;
  number : option nat;
  isBlack : bool
}.
End GridCell.

Module PlacedWord.
Record t := mk {
  answer : jsstring;
  clue : jsstring;
  startRow : nat;
  startCol : nat;
  position : nat;
  orientation : Orientation;
  length : nat;
  articleLink : option jsstring;
  articleId : option Z
}.
End PlacedWord.

Module CrosswordResult.
Record t := mk {
  width : nat;
  height : nat;
  grid : list (list GridCell.t);
  words : list PlacedWord.t;
  density : float
}.
End CrosswordResult.

(** The errors the services throw, by their messages, and the
    [TypeError] of spreading a value that is not iterable. *)
Inductive Error :=
| Failed_to_generate_crossword
| Puzzle_not_found
| Clue_not_found
| TypeError_not_iterable.

Inductive outcome (A : Type) :=
| Returned (a : A)
| Thrown (e : Error).
Arguments Returned {A} a.
Arguments Thrown {A} e.

(** ** Placement engine, continued *)

(** [grid[r][c] = ch].  The write is always inside the grid here, since
    [placeWord] follows an accepting [canPlaceWord] (see [step_exists]);
    outside it the source would grow the row, which the embedding does not
    follow: [alter] and [insert] leave the grid as it is there. *)
Definition setCell (grid : Grid) (r c : nat) (ch : N) : Grid :=
  alter (λ rowv, <[c := Some ch]> rowv) r grid.

Fixpoint placeFrom (grid : Grid) (row col : nat) (horizontal : bool)
    (chars : list N) (i : nat) : Grid :=
  match chars with
  | [] => grid
  | ch :: rest =>
      let r := runRow row horizontal i in
      let c := runCol col horizontal i in
      placeFrom (setCell grid r c ch) row col horizontal rest (S i)
  end.

Definition placeWord (grid : Grid) (word : jsstring) (row col : nat)
    (horizontal : bool) : Grid :=
  placeFrom grid row col horizontal word 0.

Fixpoint countFrom (grid : Grid) (row col : nat) (horizontal : bool)
    (chars : list N) (i : nat) (count : nat) : nat :=
  match chars with
  | [] => count
  | _ :: rest =>
      let r := runRow row horizontal i in
      let c := runCol col horizontal i in
      countFrom grid row col horizontal rest (S i)
        (if notNull grid r c then S count else count)
  end.

Definition countIntersections (grid : Grid) (word : jsstring)
    (row col : nat) (horizontal : bool) : nat :=
  countFrom grid row col horizontal word 0 0.

(** [Array.prototype.sort] with a consistent comparator: the sort is
    stable, so the result is that of inserting the elements from the last
    to the first, each before the first element it does not come after. *)
Fixpoint insertBy {A} (cmp : A → A → Z) (x : A) (l : list A) : list A :=
  match l with
  | [] => [x]
  | y :: l' => if (cmp x y <=? 0)%Z then x :: l else y :: insertBy cmp x l'
  end.

Definition sortBy {A} (cmp : A → A → Z) (l : list A) : list A :=
  foldr (insertBy cmp) [] l.

(** The two tries of [findPlacements] at letter cell [(r, c)] for the
    grapheme of index [i]; [hCol >= 0] is [i <= c] on naturals. *)
Definition tryIntersect (grid : Grid) (word : jsstring)
    (requireIntersection : bool) (r c i : nat) : list Placement.t :=
  (if (i <=? c) && canPlaceWord grid word r (c - i) true requireIntersection
   then [Placement.mk r (c - i) true
           (countIntersections grid word r (c - i) true)]
   else [])
  ++
  (if (i <=? r) && canPlaceWord grid word (r - i) c false requireIntersection
   then [Placement.mk (r - i) c false
           (countIntersections grid word (r - i) c false)]
   else []).

Definition intersectingPlacements (grid : Grid) (word : jsstring)
    (requireIntersection : bool) : list Placement.t :=
  let size := length grid in
  flat_map (λ r,
    flat_map (λ c,
      match cellAt grid r c with
      | Some (Some existingChar) =>
          concat (imap (λ i ch,
            if (ch =? existingChar)%N
            then tryIntersect grid word requireIntersection r c i
            else []) word)
      | _ => []
      end) (seq 0 size)) (seq 0 size).

Definition scanPlacements (grid : Grid) (word : jsstring)
  : list Placement.t :=
  let size := length grid in
  flat_map (λ r,
    flat_map (λ c,
      (if canPlaceWord grid word r c true false
       then [Placement.mk r c true 0] else [])
      ++
      (if canPlaceWord grid word r c false false
       then [Placement.mk r c false 0] else []))
      (seq 0 size)) (seq 0 size).

Definition byIntersections (a b : Placement.t) : Z :=
  (Z.of_nat (Placement.intersections b)
   - Z.of_nat (Placement.intersections a))%Z.

Definition findPlacements (grid : Grid) (word : jsstring)
    (requireIntersection : bool) : list Placement.t :=
  let placements := intersectingPlacements grid word requireIntersection in
  let placements :=
    if (length placements =? 0) && negb requireIntersection
    then placements ++ scanPlacements grid word
    else placements in
  sortBy byIntersections placements.

(** ** Density *)

Definition floatOfNat (n : nat) : float :=
  PrimFloat.of_uint63 (Uint63.of_Z (Z.of_nat n)).

Definition filledCells (grid : Grid) : nat :=
  foldl (λ filled rowv,
    foldl (λ filled (cell : option N),
      if cell is Some _ then S filled else filled) filled rowv) 0 grid.

Definition totalCells (grid : Grid) : nat :=
  foldl (λ total rowv, foldl (λ total (_ : option N), S total) total rowv)
    0 grid.

Definition calculateDensity (grid : Grid) : float :=
  (floatOfNat (filledCells grid) / floatOfNat (totalCells grid) * 100)%float.

(** ** Synthesiser *)

(** The state of one attempt: its [grid] and its [placed] array. *)
Abbreviation BuildState := (Grid * list Placed.t)%type.

(** [bestResult] of [generateCrossword]. *)
Module Attempt.
Record t := mk {
  grid : Grid;
  placed : list Placed.t;
  density : float
}.
End Attempt.

Definition emptyGrid (size : nat) : Grid := replicate size (replicate size None).

(** [Set<string>] filter of [generateCrossword]: the first word of each
    answer is kept. *)
Fixpoint removeDuplicates (seen : gset jsstring) (ws : list WordClue.t)
  : list WordClue.t :=
  match ws with
  | [] => []
  | w :: rest =>
      if bool_decide (WordClue.answer w ∈ seen)
      then removeDuplicates seen rest
      else w :: removeDuplicates ({[WordClue.answer w]} ∪ seen) rest
  end.

(** [scoreA - scoreB || lenA - lenB] *)
Definition byLengthPreference (a b : WordClue.t) : Z :=
  let lenA := length (WordClue.answer a) in
  let lenB := length (WordClue.answer b) in
  let scoreA := if (3 <=? lenA) && (lenA <=? 5) then 0%Z else 1%Z in
  let scoreB := if (3 <=? lenB) && (lenB <=? 5) then 0%Z else 1%Z in
  if (scoreA - scoreB =? 0)%Z then (Z.of_nat lenA - Z.of_nat lenB)%Z
  else (scoreA - scoreB)%Z.

Definition minWordsFor (size : nat) : nat :=
  if size <=? 7 then 6 else if size <=? 10 then 18
  else if size <=? 12 then 25 else 35.

Definition targetDensity : float := 80%float.
Definition maxAttempts : nat := 100.

(** "Place first word in center".  The filter of [generateCrossword] keeps
    [chars.length <= size], so [size - chars.length] is not negative. *)
Definition placeFirst (size : nat) (shuffled : list WordClue.t) : BuildState :=
  let grid := emptyGrid size in
  match shuffled with
  | [] => (grid, [])
  | firstWord :: _ =>
      let chars := WordClue.answer firstWord in
      let startCol := (size - length chars) / 2 in
      let startRow := size / 2 in
      if canPlaceWord grid (WordClue.answer firstWord) startRow startCol
           true false
      then (placeWord grid (WordClue.answer firstWord) startRow startCol true,
            [Placed.mk firstWord startRow startCol true])
      else (grid, [])
  end.

(** [if (placements.length > 0) { const best = placements[0]; ... }] *)
Definition placeBest (st : BuildState) (word : WordClue.t)
    (placements : list Placement.t) : BuildState :=
  match placements with
  | best :: _ =>
      (placeWord st.1 (WordClue.answer word) (Placement.row best)
         (Placement.col best) (Placement.horizontal best),
       st.2 ++ [Placed.mk word (Placement.row best) (Placement.col best)
                  (Placement.horizontal best)])
  | [] => st
  end.

(** "Place remaining words": [for (let i = 1; i < shuffled.length; i++)]. *)
Definition mainPass (st : BuildState) (shuffled : list WordClue.t)
  : BuildState :=
  foldl (λ st word,
    placeBest st word (findPlacements st.1 (WordClue.answer word) true))
    st (drop 1 shuffled).

Definition shortWords (placed : list Placed.t) (shuffled : list WordClue.t)
  : list WordClue.t :=
  List.filter (λ w, length (WordClue.answer w) <=? 3)
    (List.filter (λ w,
       negb (existsb (λ p,
         strEq (WordClue.answer (Placed.word p)) (WordClue.answer w)) placed))
       shuffled).

(** The filter of the edge filling pass.  [size - 1] is cut off at [0]
    where the source has [-1] for [size = 0]; the tests [row === 0] and
    [col === 0] stand before it, so the disjunction is the same. *)
Definition onEdge (size : nat) (word : WordClue.t) (p : Placement.t) : bool :=
  (Placement.row p =? 0) || (Placement.row p =? size - 1)
  || (Placement.col p =? 0) || (Placement.col p =? size - 1)
  || (Placement.horizontal p
      && (Placement.col p + length (WordClue.answer word) =? size))
  || (negb (Placement.horizontal p)
      && (Placement.row p + length (WordClue.answer word) =? size)).

Definition edgePass (size : nat) (st : BuildState)
    (shuffled : list WordClue.t) : BuildState :=
  foldl (λ st word,
    placeBest st word
      (List.filter (onEdge size word)
         (findPlacements st.1 (WordClue.answer word) false)))
    st (shortWords st.2 shuffled).

(** The body of the attempt loop up to [const density = ...]. *)
Definition runAttempt (size : nat) (shuffled : list WordClue.t) : Attempt.t :=
  let st := edgePass size (mainPass (placeFirst size shuffled) shuffled)
              shuffled in
  Attempt.mk st.1 st.2 (calculateDensity st.1).

(** [!bestResult || density > bestResult.density
     || placed.length > bestResult.placed.length] *)
Definition replacesBest (bestResult : option Attempt.t) (a : Attempt.t) : bool :=
  match bestResult with
  | None => true
  | Some best =>
      (Attempt.density best <? Attempt.density a)%float
      || (length (Attempt.placed best) <? length (Attempt.placed a))
  end.

Definition keepBest (bestResult : option Attempt.t) (a : Attempt.t)
  : option Attempt.t :=
  if replacesBest bestResult a then Some a else bestResult.

(** [density >= targetDensity && placed.length >= minWords] *)
Definition goodEnough (size : nat) (a : Attempt.t) : bool :=
  (targetDensity <=? Attempt.density a)%float
  && (minWordsFor size <=? length (Attempt.placed a)).

(** *** Numbering *)

(** [grid[r][c] === null] *)
Definition isNull (grid : Grid) (r c : nat) : bool :=
  match cellAt grid r c with
  | Some None => true
  | _ => false
  end.

Definition isHorizontalStart (grid : Grid) (size r c : nat) : bool :=
  ((c =? 0) || isNull grid r (c - 1))
  && ((c <? size - 1) && notNull grid r (c + 1)).

Definition isVerticalStart (grid : Grid) (size r c : nat) : bool :=
  ((r =? 0) || isNull grid (r - 1) c)
  && ((r <? size - 1) && notNull grid (r + 1) c).

Definition startsWord (grid : Grid) (size r c : nat) : bool :=
  notNull grid r c
  && (isHorizontalStart grid size r c || isVerticalStart grid size r c).

(** [numberGrid] and [positionNumber]. *)
Abbreviation NumberState := (list (list nat) * nat)%type.

(** [numberGrid[r][c] = k] *)
Definition setNumber (numberGrid : list (list nat)) (r c k : nat)
  : list (list nat) :=
  alter (λ rowv, <[c := k]> rowv) r numberGrid.

Definition numberCell (grid : Grid) (size : nat) (st : NumberState)
    (r c : nat) : NumberState :=
  if startsWord grid size r c
  then (setNumber st.1 r c st.2, S st.2)
  else st.

Definition assignNumbers (grid : Grid) (size : nat) : NumberState :=
  foldl (λ st r, foldl (λ st c, numberCell grid size st r c) st (seq 0 size))
    (replicate size (replicate size 0), 1) (seq 0 size).

(** [numberGrid[r][c]]; a missing entry reads as [0], which is what both
    uses make of [undefined] ([|| null], and no read outside the grid). *)
Definition numberAt (numberGrid : list (list nat)) (r c : nat) : nat :=
  default 0 (numberGrid !! r ≫= (.!! c)).

Definition finalGridOf (grid : Grid) (numberGrid : list (list nat))
  : list (list GridCell.t) :=
  imap (λ r rowv,
    imap (λ c (cell : option N),
      GridCell.mk cell
        (if numberAt numberGrid r c is 0 then None
         else Some (numberAt numberGrid r c))
        (if cell is None then true else false)) rowv) grid.

Definition finalWordOf (numberGrid : list (list nat)) (p : Placed.t)
  : PlacedWord.t :=
  PlacedWord.mk
    (WordClue.answer (Placed.word p))
    (WordClue.clue (Placed.word p))
    (Placed.row p)
    (Placed.col p)
    (numberAt numberGrid (Placed.row p) (Placed.col p))
    (if Placed.horizontal p then across else down)
    (length (WordClue.answer (Placed.word p)))
    (WordClue.articleLink (Placed.word p))
    (WordClue.articleId (Placed.word p)).

Definition buildResult (size : nat) (best : Attempt.t) : CrosswordResult.t :=
  let numberGrid := (assignNumbers (Attempt.grid best) size).1 in
  CrosswordResult.mk size size
    (finalGridOf (Attempt.grid best) numberGrid)
    (map (finalWordOf numberGrid) (Attempt.placed best))
    (Attempt.density best).

Section Synthesizer.

Variable upperCP : N → list N.

(** [shuffle attempt l] is the array that
    [[...uniqueWords].sort(() => Math.random() - 0.5)] yields in the given
    attempt: the draws of [Math.random] decide it, and whatever they are it
    is a permutation of [l]. *)
Variable shuffle : nat → list WordClue.t → list WordClue.t.

Definition normalizedWords (words : list WordClue.t) (size : nat)
  : list WordClue.t :=
  List.filter (λ w,
    let len := length (WordClue.answer w) in (2 <=? len) && (len <=? size))
    (map (λ w, WordClue.mk (normalizeJapanese upperCP (WordClue.answer w))
                 (WordClue.clue w) (WordClue.articleLink w)
                 (WordClue.articleId w)) words).

Definition uniqueWords (words : list WordClue.t) (size : nat)
  : list WordClue.t :=
  sortBy byLengthPreference (removeDuplicates ∅ (normalizedWords words size)).

(** The attempt loop, [remaining] attempts from number [attempt] on. *)
Fixpoint attemptLoop (size : nat) (candidates : list WordClue.t)
    (remaining attempt : nat) (bestResult : option Attempt.t)
  : option Attempt.t :=
  match remaining with
  | 0 => bestResult
  | S remaining' =>
      let a := runAttempt size (shuffle attempt candidates) in
      let bestResult := keepBest bestResult a in
      if goodEnough size a then bestResult
      else attemptLoop size candidates remaining' (S attempt) bestResult
  end.

Definition bestAttempt (words : list WordClue.t) (size : nat)
  : option Attempt.t :=
  attemptLoop size (uniqueWords words size) maxAttempts 0 None.

Definition generateCrossword (words : list WordClue.t) (size : nat)
  : outcome CrosswordResult.t :=
  match bestAttempt words size with
  | None => Thrown Failed_to_generate_crossword
  | Some best =>
      if length (Attempt.placed best) =? 0
      then Thrown Failed_to_generate_crossword
      else Returned (buildResult size best)
  end.

End Synthesizer.

(** ** Puzzle service *)

(** A [Record<string, string>]: the own properties in insertion order
    (no key here is an array index, which would come first).  Assigning to
    a key that is there keeps its place. *)
Abbreviation JsObject := (list (list N * list N)).

(** The own property [key] of [o]. *)
Fixpoint objGet (o : JsObject) (key : jsstring) : option jsstring :=
  match o with
  | [] => None
  | (k, v) :: rest => if strEq k key then Some v else objGet rest key
  end.

(** The names every object inherits from [Object.prototype]; their values
    are functions, and the prototype itself for [__proto__]. *)
Definition objectPrototypeKeys : list jsstring :=
  [lit "constructor"; lit "hasOwnProperty"; lit "isPrototypeOf";
   lit "propertyIsEnumerable"; lit "toLocaleString"; lit "toString";
   lit "valueOf"; lit "__proto__"; lit "__defineGetter__";
   lit "__defineSetter__"; lit "__lookupGetter__"; lit "__lookupSetter__"].

(** [o[key]]: an own string, a value inherited from the prototype, or
    [undefined]. *)
Inductive Property :=
| Own (value : jsstring)
| Inherited
| Missing.

Definition getProperty (o : JsObject) (key : jsstring) : Property :=
  match objGet o key with
  | Some value => Own value
  | None =>
      if bool_decide (key ∈ objectPrototypeKeys) then Inherited else Missing
  end.

Fixpoint objSet (o : JsObject) (key value : jsstring) : JsObject :=
  match o with
  | [] => [(key, value)]
  | (k, v) :: rest =>
      if strEq k key then (k, value) :: rest
      else (k, v) :: objSet rest key value
  end.

Fixpoint digitsOf (d : Decimal.uint) : jsstring :=
  match d with
  | Decimal.Nil => []
  | Decimal.D0 d => 0x30%N :: digitsOf d
  | Decimal.D1 d => 0x31%N :: digitsOf d
  | Decimal.D2 d => 0x32%N :: digitsOf d
  | Decimal.D3 d => 0x33%N :: digitsOf d
  | Decimal.D4 d => 0x34%N :: digitsOf d
  | Decimal.D5 d => 0x35%N :: digitsOf d
  | Decimal.D6 d => 0x36%N :: digitsOf d
  | Decimal.D7 d => 0x37%N :: digitsOf d
  | Decimal.D8 d => 0x38%N :: digitsOf d
  | Decimal.D9 d => 0x39%N :: digitsOf d
  end.

(** [`${n}`] for a natural number. *)
Definition numberToString (n : nat) : jsstring := digitsOf (Nat.to_uint n).

Definition orientationName (o : Orientation) : jsstring :=
  match o with
  | across => lit "across"
  | down => lit "down"
  end.

(** [`${number}-${direction}`] *)
Definition clueKey (number : nat) (direction : jsstring) : jsstring :=
  numberToString number ++ lit "-" ++ direction.

Module Puzzle.
Record t := mk {
  id : jsstring;
  size : nat;
  width : nat;
  height : nat;
  grid : list (list GridCell.t);
  words : list PlacedWord.t;
  density : float;
  _answers : option JsObject
}.
End Puzzle.

(** The [_answers] table that [createPuzzle] builds with [reduce]. *)
Definition answersOf (words : list PlacedWord.t) : JsObject :=
  foldl (λ acc w,
    objSet acc
      (clueKey (PlacedWord.position w)
         (orientationName (PlacedWord.orientation w)))
      (PlacedWord.answer w)) [] words.

(** The record [createPuzzle] saves for a generated crossword. *)
Definition puzzleOf (id : jsstring) (gridSize : nat) (puzzle : CrosswordResult.t)
  : Puzzle.t :=
  Puzzle.mk id gridSize (CrosswordResult.width puzzle)
    (CrosswordResult.height puzzle) (CrosswordResult.grid puzzle)
    (CrosswordResult.words puzzle) (CrosswordResult.density puzzle)
    (Some (answersOf (CrosswordResult.words puzzle))).

(** The [puzzles] table, by [id].  The JSON columns are kept as the
    values they serialise. *)
Abbreviation Database := (gmap (list N) Puzzle.t).

(** [getPuzzle]: the stored record, with [density: 0]. *)
Definition getPuzzle (db : Database) (id : jsstring) : option Puzzle.t :=
  match db !! id with
  | None => None
  | Some row =>
      Some (Puzzle.mk (Puzzle.id row) (Puzzle.size row) (Puzzle.width row)
              (Puzzle.height row) (Puzzle.grid row) (Puzzle.words row)
              0%float (Puzzle._answers row))
  end.

Module HintResult.
Record t := mk {
  hint : jsstring;
  revealed : nat;
  total : nat
}.
End HintResult.

Section PuzzleService.

Variable upperCP : N → list N.

(** One turn of the loop of [checkAnswers] over [Object.entries(answers)].
    [!correctAnswer] skips [undefined] and the empty string; an inherited
    value passes it and is never [===] to a string. *)
Definition checkEntry (table : JsObject)
    (acc : list jsstring * list jsstring) (entry : jsstring * jsstring)
  : list jsstring * list jsstring :=
  let '(key, userAnswer) := entry in
  match getProperty table key with
  | Missing => acc
  | Own [] => acc
  | Own correctAnswer =>
      let normalizedUser := normalizeJapanese upperCP userAnswer in
      if strEq normalizedUser correctAnswer
      then (acc.1 ++ [key], acc.2)
      else (acc.1, acc.2 ++ [key])
  | Inherited => (acc.1, acc.2 ++ [key])
  end.

Definition checkAnswers (db : Database) (puzzleId : jsstring)
    (answers : JsObject) : outcome (list jsstring * list jsstring) :=
  match getPuzzle db puzzleId with
  | None => Thrown Puzzle_not_found
  | Some puzzle =>
      match Puzzle._answers puzzle with
      | None => Thrown Puzzle_not_found
      | Some table => Returned (foldl (checkEntry table) ([], []) answers)
      end
  end.

End PuzzleService.

(** The full-width underscore of the hint. *)
Definition lowLine : N := 0xFF3F%N.   (* ＿ *)

Definition getHint (db : Database) (puzzleId : jsstring) (clueNumber : nat)
    (direction : jsstring) : outcome HintResult.t :=
  match getPuzzle db puzzleId with
  | None => Thrown Puzzle_not_found
  | Some puzzle =>
      match Puzzle._answers puzzle with
      | None => Thrown Puzzle_not_found
      | Some table =>
          let key := clueKey clueNumber direction in
          match getProperty table key with
          | Missing => Thrown Clue_not_found
          | Own [] => Thrown Clue_not_found       (* [!answer] on [""] *)
          | Own (first :: rest) =>
              let chars := first :: rest in
              Returned (HintResult.mk
                          (first :: replicate (length chars - 1) lowLine)
                          1 (length chars))
          | Inherited => Thrown TypeError_not_iterable  (* [[...answer]] *)
          end
      end
  end.

(** ** Keyword service

    [claudeService.ts] finds the candidates that [createPuzzle] hands to
    [generateCrossword].  What Claude answers is no part of the program:
    each call is taken as the value its answer parses to, or as a
    rejection. *)

(** The items [extractKeywords] takes. *)
Module Article.
Record t := mk {
  id : option Z;
  title : jsstring;
  link : option jsstring;
  content : option jsstring
}.
End Article.

Module Keyword.
Record t := mk {
  word : jsstring;
  reading : jsstring;
  type : jsstring;
  newsContext : jsstring;
  articleIndex : Z;
  articleId : option Z;
  articleLink : option jsstring;
  articleTitle : option jsstring
}.
End Keyword.

(** A settled promise. *)
Inductive promise (A : Type) :=
| Resolved (value : A)
| Rejected (reason : jsstring).
Arguments Resolved {A} value.
Arguments Rejected {A} reason.

(** The [Set<string>] filter of [filterSimilarNews], by [title], and of
    [extractKeywords], by [reading]: the first item of each key is kept. *)
Fixpoint dedupeBy {A} (key : A → jsstring) (seen : gset jsstring)
    (items : list A) : list A :=
  match items with
  | [] => []
  | item :: rest =>
      if bool_decide (key item ∈ seen) then dedupeBy key seen rest
      else item :: dedupeBy key ({[key item]} ∪ seen) rest
  end.

(** [items[i]] for an integer [i]. *)
Definition itemAt {A} (items : list A) (i : Z) : option A :=
  if (0 <=? i)%Z then items !! Z.to_nat i else None.

(** [s || undefined] for an optional string. *)
Definition orUndefined (s : option jsstring) : option jsstring :=
  match s with
  | Some [] => None
  | _ => s
  end.

(** [for (let i = 0; i < items.length; i += BATCH_SIZE)] with
    [batch = items.slice(i, i + BATCH_SIZE)]: the offsets and the batches
    of at most [remaining] turns of the loop. *)
Fixpoint batchesFrom {A} (remaining i batchSize : nat) (items : list A)
  : list (nat * list A) :=
  match remaining with
  | 0 => []
  | S remaining' =>
      if i <? length items
      then (i, take batchSize (drop i items))
           :: batchesFrom remaining' (i + batchSize) batchSize items
      else []
  end.

(** The loop ends within [items.length] turns when the batch size is
    positive, as both batch sizes of the source are. *)
Definition batches {A} (batchSize : nat) (items : list A)
  : list (nat * list A) :=
  batchesFrom (length items) 0 batchSize items.

(** [Math.ceil(a / b)] for naturals, [b] positive. *)
Definition ceilDiv (a b : nat) : nat := (a + b - 1) / b.

(** [for (...) { const found = await f(batch, i); all.push(...found) }]:
    the batches in turn, until one rejects. *)
Fixpoint awaitBatches {A B} (f : nat → list A → promise (list B))
    (todo : list (nat * list A)) (all : list B) : promise (list B) :=
  match todo with
  | [] => Resolved all
  | (i, batch) :: rest =>
      match f i batch with
      | Resolved found => awaitBatches f rest (all ++ found)
      | Rejected reason => Rejected reason
      end
  end.

Section FilterSimilarNews.

Context {A : Type}.
Variable title : A → jsstring.

(** What the answer of Claude to the prompt of [filterSimilarNews] parses
    to, [result.selected || []].  An entry that is not an integer selects
    [undefined], which the filter drops, so the integers of the array
    stand for it. *)
Variable askSelected : list A → promise (list Z).


End FilterSimilarNews.

(** The body of the [keywords.map] of [extractKeywordsBatch]. *)
Definition attachArticle (articles : list Article.t) (batchOffset : nat)
    (k : Keyword.t) : Keyword.t :=
  let idx :=
    ((if (Keyword.articleIndex k =? 0)%Z then 1 else Keyword.articleIndex k)
     - 1)%Z in
  let article :=
    match itemAt articles idx with
    | Some a => Some a
    | None => itemAt articles 0
    end in
  Keyword.mk (Keyword.word k) (Keyword.reading k) (Keyword.type k)
    (Keyword.newsContext k)
    (idx + Z.of_nat batchOffset + 1)%Z
    (article ≫= Article.id)
    (orUndefined (article ≫= Article.link))
    (orUndefined (Article.title <$> article)).

Section KeywordService.

(** What the answer of Claude to the prompt of [extractKeywordsBatch]
    parses to, [result.keywords || []], in the call for the batch at
    [batchOffset]; a failed call, an answer without JSON and a JSON that
    does not parse reject. *)
Variable askKeywords : nat → list Article.t → nat → promise (list Keyword.t).

Definition extractKeywordsBatch (articles : list Article.t) (count : nat)
    (batchOffset : nat) : promise (list Keyword.t) :=
  match askKeywords batchOffset articles count with
  | Resolved keywords =>
      Resolved (map (attachArticle articles batchOffset) keywords)
  | Rejected reason => Rejected reason
  end.

(** [keywordsPerBatch] is no number when there is no batch, and then no
    call reads it. *)
Definition extractKeywords (articles : list Article.t) (count : nat)
  : promise (list Keyword.t) :=
  let BATCH_SIZE := 5 in
  let limitedArticles := take 20 articles in
  let totalBatches := ceilDiv (length limitedArticles) BATCH_SIZE in
  let keywordsPerBatch := ceilDiv count totalBatches in
  match awaitBatches
          (λ i batch, extractKeywordsBatch batch keywordsPerBatch i)
          (batches BATCH_SIZE limitedArticles) [] with
  | Resolved allKeywords => Resolved (dedupeBy Keyword.reading ∅ allKeywords)
  | Rejected reason => Rejected reason
  end.

(** The same for the prompt of [generateCluesBatch]: [result.words || []],
    pairs of an answer and a clue, in the call for the batch at
    [batchOffset]. *)
Variable askClues : nat → list Keyword.t → promise (list (jsstring * jsstring)).





End KeywordService.

(** *** The concurrency limiter *)

(** The two variables that [createLimit] closes over.  An entry of the
    queue stands for its [{ fn, resolve, reject }]. *)
Module Limiter.
Record t (T : Type) := mk {
  active : Z;
  queue : list T
}.
Arguments mk {T} active queue.
Arguments active {T} t.
Arguments queue {T} t.
End Limiter.

Section CreateLimit.

Context {T : Type}.
Variable concurrency : Z.

(** [next]: the state it leaves and the entry whose [fn()] it calls, if
    any. *)
Definition next (st : Limiter.t T) : Limiter.t T * option T :=
  if (Limiter.active st <? concurrency)%Z && (0 <? length (Limiter.queue st))
  then
    match Limiter.queue st with
    | entry :: rest => (Limiter.mk (Limiter.active st + 1) rest, Some entry)
    | [] => (st, None)
    end
  else (st, None).

(** The function that [createLimit] returns: [queue.push(...); next()]. *)
Definition limit (entry : T) (st : Limiter.t T) : Limiter.t T * option T :=
  next (Limiter.mk (Limiter.active st) (Limiter.queue st ++ [entry])).

(** The [finally] callback of a started entry: [active--; next()]. *)
Definition onSettled (st : Limiter.t T) : Limiter.t T * option T :=
  next (Limiter.mk (Limiter.active st - 1) (Limiter.queue st)).

(** What happens to a limiter: a call of the returned function, or the
    promise of a started entry settling.  Each runs to its end before the
    next one starts; an entry is an async function, which returns its
    promise and does not throw. *)
Inductive LimiterEvent :=
| Call (entry : T)
| Settle.

(** The limiter after a sequence of events, with the entries started so
    far in the order of their start and the number of them that have not
    settled; [None] when a promise settles while none is pending. *)
Fixpoint runLimiter (events : list LimiterEvent) (st : Limiter.t T)
    (started : list T) (pending : nat)
  : option (Limiter.t T * list T * nat) :=
  match events with
  | [] => Some (st, started, pending)
  | Call entry :: rest =>
      let '(st', begun) := limit entry st in
      runLimiter rest st' (started ++ option_list begun)
        (pending + length (option_list begun))
  | Settle :: rest =>
      match pending with
      | 0 => None
      | S pending' =>
          let '(st', begun) := onSettled st in
          runLimiter rest st' (started ++ option_list begun)
            (pending' + length (option_list begun))
      end
  end.

End CreateLimit.

(** * Vocabulary of the properties *)

(** ** Kana

    The 191 code points of the two kana blocks, and what is checked of
    each: the kana steps leave nothing that they rewrite, and they change
    only what they rewrite. *)
Definition kanaCodes : list N :=
  map (λ k, (0x3041 + N.of_nat k)%N) (seq 0 191).

Definition kanaStepOk (c : N) : bool :=
  negb (rewritten (kanaStep c)) && (rewritten c || (kanaStep c =? c)%N).

(** ** Cells of the working grid *)

Definition blocked (grid : Grid) (r c : nat) : Prop :=
  cellAt grid r c = Some None.

Definition letter (grid : Grid) (r c : nat) (g : N) : Prop :=
  cellAt grid r c = Some (Some g).

Definition isLetter (grid : Grid) (r c : nat) : Prop :=
  ∃ g, letter grid r c g.

(** ** What [canPlaceWord] decides *)

(** The run of [len] cells lies in the grid. *)
Definition runInBounds (grid : Grid) (len row col : nat) (horizontal : bool)
  : Prop :=
  if horizontal then col + len ≤ length grid else row + len ≤ length grid.

(** The cell before the run and the cell after it are blocked, each when
    it is in the grid. *)
Definition capsBlocked (grid : Grid) (len row col : nat) (horizontal : bool)
  : Prop :=
  if horizontal then
    (0 < col → blocked grid row (col - 1))
    ∧ (col + len < length grid → blocked grid row (col + len))
  else
    (0 < row → blocked grid (row - 1) col)
    ∧ (row + len < length grid → blocked grid (row + len) col).

(** The two neighbours of [(r, c)] across the run are blocked, each when
    it is in the grid. *)
Definition sidesBlocked (grid : Grid) (r c : nat) (horizontal : bool)
  : Prop :=
  if horizontal then
    (0 < r → blocked grid (r - 1) c)
    ∧ (r < length grid - 1 → blocked grid (r + 1) c)
  else
    (0 < c → blocked grid r (c - 1))
    ∧ (c < length grid - 1 → blocked grid r (c + 1)).

(** Cell [i] of the run either holds the grapheme [ch] already, an
    intersection, or is blocked with blocked sides. *)
Definition cellFits (grid : Grid) (row col : nat) (horizontal : bool)
    (i : nat) (ch : N) : Prop :=
  let r := runRow row horizontal i in
  let c := runCol col horizontal i in
  letter grid r c ch ∨ (blocked grid r c ∧ sidesBlocked grid r c horizontal).

Definition intersectsAt (grid : Grid) (row col : nat) (horizontal : bool)
    (i : nat) (ch : N) : Prop :=
  letter grid (runRow row horizontal i) (runCol col horizontal i) ch.

Definition placeable (grid : Grid) (word : jsstring) (row col : nat)
    (horizontal requireIntersection : bool) : Prop :=
  runInBounds grid (length word) row col horizontal
  ∧ capsBlocked grid (length word) row col horizontal
  ∧ (∀ i ch, word !! i = Some ch → cellFits grid row col horizontal i ch)
  ∧ (requireIntersection = true →
     ∃ i ch, word !! i = Some ch ∧ intersectsAt grid row col horizontal i ch).

(** ** Square grids *)

(** A square grid of side [n]: [n] rows, and a cell at [(r, c)] exactly
    when both indices are below [n]. *)
Definition wfGrid (n : nat) (grid : Grid) : Prop :=
  length grid = n ∧ ∀ r c, is_Some (cellAt grid r c) ↔ r < n ∧ c < n.

(** ** The invariant of an attempt *)

Definition wordOf (p : Placed.t) : jsstring := WordClue.answer (Placed.word p).

Definition cellRow (p : Placed.t) (i : nat) : nat :=
  runRow (Placed.row p) (Placed.horizontal p) i.

Definition cellCol (p : Placed.t) (i : nat) : nat :=
  runCol (Placed.col p) (Placed.horizontal p) i.

(** What every attempt keeps true of its [grid] and [placed] array: the
    grid is square; the graphemes of each placed word stand on its cells;
    every letter lies on a placed word; two letters side by side in a row
    are consecutive on an across word, and two letters one above the other
    are consecutive on a down word. *)
Record attemptInv (n : nat) (grid : Grid) (placed : list Placed.t) : Prop := {
  inv_wf : wfGrid n grid;
  inv_cells : ∀ p i ch, p ∈ placed → wordOf p !! i = Some ch →
    letter grid (cellRow p i) (cellCol p i) ch;
  inv_cover : ∀ r c, isLetter grid r c →
    ∃ p i, p ∈ placed ∧ i < length (wordOf p)
           ∧ r = cellRow p i ∧ c = cellCol p i;
  inv_across : ∀ r c, isLetter grid r c → isLetter grid r (c + 1) →
    ∃ p i, p ∈ placed ∧ Placed.horizontal p = true
           ∧ S i < length (wordOf p)
           ∧ r = Placed.row p ∧ c = Placed.col p + i;
  inv_down : ∀ r c, isLetter grid r c → isLetter grid (r + 1) c →
    ∃ p i, p ∈ placed ∧ Placed.horizontal p = false
           ∧ S i < length (wordOf p)
           ∧ r = Placed.row p + i ∧ c = Placed.col p
}.

(** [(r, c)] is a cell of the run of [len] cells from [(row, col)]. *)
Definition inRun (row col : nat) (horizontal : bool) (len r c : nat) : Prop :=
  if horizontal then r = row ∧ col ≤ c < col + len
  else c = col ∧ row ≤ r < row + len.

Global Instance inRun_dec row col horizontal len r c :
  Decision (inRun row col horizontal len r c).
Proof. unfold inRun. destruct horizontal; apply _. Defined.

Definition validPlacement (grid : Grid) (wd : jsstring) (p : Placement.t)
  : Prop :=
  placeable grid wd (Placement.row p) (Placement.col p)
    (Placement.horizontal p) false.

Definition stateInv (n : nat) (st : BuildState) : Prop :=
  attemptInv n st.1 st.2.

(** ** The returned puzzle *)

(** [result.grid[r][c]] *)
Definition resultCell (res : CrosswordResult.t) (r c : nat)
  : option GridCell.t :=
  CrosswordResult.grid res !! r ≫= (.!! c).

Definition letterCell (res : CrosswordResult.t) (r c : nat) (g : N) : Prop :=
  ∃ cell, resultCell res r c = Some cell ∧ GridCell.letter cell = Some g.

Definition isLetterCell (res : CrosswordResult.t) (r c : nat) : Prop :=
  ∃ g, letterCell res r c g.

Definition blockedCell (res : CrosswordResult.t) (r c : nat) : Prop :=
  ∃ cell, resultCell res r c = Some cell ∧ GridCell.letter cell = None.

(** The cell of the grapheme of index [i] of a placed word. *)
Definition wordCell (w : PlacedWord.t) (i : nat) : nat * nat :=
  match PlacedWord.orientation w with
  | across => (PlacedWord.startRow w, PlacedWord.startCol w + i)
  | down => (PlacedWord.startRow w + i, PlacedWord.startCol w)
  end.

(** ** Answer tables

    The answers of a stored table have at least two graphemes each, as
    every candidate that passes the filter of [generateCrossword]. *)
Definition validAnswers (table : JsObject) : Prop :=
  ∀ key answer, objGet table key = Some answer → 2 ≤ length answer.

Definition keysOf (o : JsObject) : list jsstring := map fst o.

(** ** Termination and numbering in the returned puzzle *)

(** The cell before the first grapheme of [w] and the cell after its
    last one are blocked, each when it is inside the grid. *)
Definition terminated (res : CrosswordResult.t) (w : PlacedWord.t) : Prop :=
  match PlacedWord.orientation w with
  | across =>
      (0 < PlacedWord.startCol w →
       blockedCell res (PlacedWord.startRow w) (PlacedWord.startCol w - 1))
      ∧ (PlacedWord.startCol w + PlacedWord.length w
           < CrosswordResult.width res →
         blockedCell res (PlacedWord.startRow w)
           (PlacedWord.startCol w + PlacedWord.length w))
  | down =>
      (0 < PlacedWord.startRow w →
       blockedCell res (PlacedWord.startRow w - 1) (PlacedWord.startCol w))
      ∧ (PlacedWord.startRow w + PlacedWord.length w
           < CrosswordResult.height res →
         blockedCell res (PlacedWord.startRow w + PlacedWord.length w)
           (PlacedWord.startCol w))
  end.

(** The starting cell of [w] carries the number of [w]. *)
Definition numberedAtStart (res : CrosswordResult.t) (w : PlacedWord.t)
  : Prop :=
  ∃ cell, resultCell res (PlacedWord.startRow w) (PlacedWord.startCol w)
          = Some cell
          ∧ GridCell.number cell = Some (PlacedWord.position w).

Definition cellHasLetter (res : CrosswordResult.t) (r c : nat) : bool :=
  match resultCell res r c with
  | Some cell => if GridCell.letter cell is Some _ then true else false
  | None => false
  end.

Definition unterminated (res : CrosswordResult.t) (w : PlacedWord.t) : bool :=
  match PlacedWord.orientation w with
  | across =>
      ((0 <? PlacedWord.startCol w)
       && cellHasLetter res (PlacedWord.startRow w)
            (PlacedWord.startCol w - 1))
      || ((PlacedWord.startCol w + PlacedWord.length w
             <? CrosswordResult.width res)
          && cellHasLetter res (PlacedWord.startRow w)
               (PlacedWord.startCol w + PlacedWord.length w))
  | down =>
      ((0 <? PlacedWord.startRow w)
       && cellHasLetter res (PlacedWord.startRow w - 1)
            (PlacedWord.startCol w))
      || ((PlacedWord.startRow w + PlacedWord.length w
             <? CrosswordResult.height res)
          && cellHasLetter res (PlacedWord.startRow w + PlacedWord.length w)
               (PlacedWord.startCol w))
  end.

Definition unnumbered (res : CrosswordResult.t) (w : PlacedWord.t) : bool :=
  match resultCell res (PlacedWord.startRow w) (PlacedWord.startCol w) with
  | Some cell =>
      match GridCell.number cell with
      | Some k => negb (k =? PlacedWord.position w)
      | None => true
      end
  | None => true
  end.

(** A word of the puzzle that is not terminated and has no number at its
    start. *)
Definition brokenWord (res : CrosswordResult.t) (w : PlacedWord.t) : bool :=
  unterminated res w && unnumbered res w.

Definition brokenAttempt (size : nat) (a : Attempt.t) : bool :=
  existsb (brokenWord (buildResult size a))
    (CrosswordResult.words (buildResult size a)).

(** [x] stands before [y] in the shuffled candidates. *)
Fixpoint comesBefore (x y : jsstring) (l : list WordClue.t) : bool :=
  match l with
  | [] => false
  | w :: rest =>
      if strEq (WordClue.answer w) x then true
      else if strEq (WordClue.answer w) y then false
      else comesBefore x y rest
  end.

(** ** Reading order *)

(** The cells in reading order. *)
Definition readingOrder (n : nat) : list (nat * nat) :=
  flat_map (λ r, map (pair r) (seq 0 n)) (seq 0 n).

(** The number of cells of [l] that stand before [x] and satisfy
    [starts]. *)
Fixpoint startsBeforeIn (starts : nat * nat → bool) (x : nat * nat)
    (l : list (nat * nat)) : nat :=
  match l with
  | [] => 0
  | y :: l' =>
      if decide (y = x) then 0
      else (if starts y then 1 else 0) + startsBeforeIn starts x l'
  end.

(** The number of word starts before [(r, c)] in reading order. *)
Definition startsBefore (grid : Grid) (size r c : nat) : nat :=
  startsBeforeIn (λ x, startsWord grid size x.1 x.2) (r, c)
    (readingOrder size).

Definition hasNumberCell (numberGrid : list (list nat)) (r c : nat) : Prop :=
  is_Some (numberGrid !! r ≫= (.!! c)).

(** ** Placements *)

(** [p] has at least as many intersections as [q]. *)
Definition moreIntersections (p q : Placement.t) : Prop :=
  Placement.intersections q ≤ Placement.intersections p.

(** The number of letters of a row. *)
Fixpoint lettersIn (rowv : list (option N)) : nat :=
  match rowv with
  | [] => 0
  | Some _ :: rest => S (lettersIn rest)
  | None :: rest => lettersIn rest
  end.

(** The first cell or the last cell of the word lies on the border of
    the grid. *)
Definition touchesBorder (size : nat) (p : Placed.t) : Prop :=
  Placed.row p = 0 ∨ Placed.row p = size - 1
  ∨ Placed.col p = 0 ∨ Placed.col p = size - 1
  ∨ (Placed.horizontal p = true ∧ Placed.col p + length (wordOf p) = size)
  ∨ (Placed.horizontal p = false ∧ Placed.row p + length (wordOf p) = size).

(** ** Numbers of the returned puzzle *)

(** [result.grid[r][c].number]; [None] is [null], and stands for the
    cells outside the grid as well. *)
Definition cellNumber (res : CrosswordResult.t) (r c : nat) : option nat :=
  resultCell res r c ≫= GridCell.number.

(** The cell holds a letter that starts a run to the right or a run
    downwards: no letter before it and a letter after it. *)
Definition startsRun (res : CrosswordResult.t) (r c : nat) : bool :=
  cellHasLetter res r c
  && (((c =? 0) || negb (cellHasLetter res r (c - 1)))
        && cellHasLetter res r (c + 1)
      || ((r =? 0) || negb (cellHasLetter res (r - 1) c))
           && cellHasLetter res (r + 1) c).

(** The cell before the first grapheme of a word, when the grid has
    one. *)
Definition cellBefore (w : PlacedWord.t) : option (nat * nat) :=
  match PlacedWord.orientation w with
  | across =>
      if PlacedWord.startCol w is S c
      then Some (PlacedWord.startRow w, c) else None
  | down =>
      if PlacedWord.startRow w is S r
      then Some (r, PlacedWord.startCol w) else None
  end.

(** ** Verdicts of the answer check *)

(** How [checkAnswers] judges one submitted entry: [None] when it skips
    the key, else whether the answer is correct. *)
Definition verdict (upperCP : N → list N) (table : JsObject)
    (entry : jsstring * jsstring) : option bool :=
  match getProperty table entry.1 with
  | Missing => None
  | Own [] => None
  | Own correctAnswer =>
      Some (strEq (normalizeJapanese upperCP entry.2) correctAnswer)
  | Inherited => Some false
  end.

(** The keys of the entries judged as [b], in the order of the entries. *)
Definition judgedAs (upperCP : N → list N) (table : JsObject) (b : bool)
    (answers : JsObject) : list jsstring :=
  keysOf (List.filter (λ entry,
    bool_decide (verdict upperCP table entry = Some b)) answers).

(** The key of a word in the answer table. *)
Definition keyOf (w : PlacedWord.t) : jsstring :=
  clueKey (PlacedWord.position w) (orientationName (PlacedWord.orientation w)).

(** ** The limiter *)

(** The entries passed to the limiter, in the order of the calls. *)
Definition calledWith {T} (events : list (@LimiterEvent T)) : list T :=
  omap (λ e, match e with Call entry => Some entry | Settle => None end)
    events.

(** What the limiter keeps true: [active] counts the entries that are
    pending, it does not pass the bound, and nothing waits while a slot is
    free. *)
Definition limiterInv {T} (concurrency : Z) (st : Limiter.t T)
    (pending : nat) : Prop :=
  Limiter.active st = Z.of_nat pending
  ∧ (Limiter.active st ≤ Z.max 0 concurrency)%Z
  ∧ (Limiter.queue st ≠ [] → (concurrency ≤ Limiter.active st)%Z).

(** * Inputs of the scenarios *)

(** Uppercasing restricted to the basic Latin letters, the instance the
    scenarios of the specification need. *)
Definition latinUpper (c : N) : list N :=
  if ((0x61 <=? c) && (c <=? 0x7A))%N then [(c - 0x20)%N] else [c].

(** Scenario S1: ネコ, コト, トリ on a 7 × 7 grid. *)
Definition word (a : jsstring) : WordClue.t := WordClue.mk a [] None None.
Definition neko : jsstring := [0x30CD; 0x30B3]%N.
Definition koto : jsstring := [0x30B3; 0x30C8]%N.
Definition tori : jsstring := [0x30C8; 0x30EA]%N.

Definition asIs (attempt : nat) (l : list WordClue.t) : list WordClue.t := l.

(** ** Two orders of four candidates *)

(** Four candidates on a 5 × 5 grid, and two orders in which an attempt
    may take them. *)
Definition bedab : jsstring := [0x42; 0x45; 0x44; 0x41; 0x42]%N.
Definition bddcb : jsstring := [0x42; 0x44; 0x44; 0x43; 0x42]%N.
Definition aa : jsstring := [0x41; 0x41]%N.
Definition ac : jsstring := [0x41; 0x43]%N.

Definition denseOrder : list WordClue.t :=
  [word bedab; word bddcb; word aa; word ac].
Definition sparseOrder : list WordClue.t :=
  [word bedab; word aa; word bddcb; word ac].

(** Shuffles that leave the candidates as they are in the first attempt
    and give [sparseOrder] in the others. *)
Definition denseThenSparse (attempt : nat) (l : list WordClue.t)
  : list WordClue.t :=
  if attempt =? 0 then l else sparseOrder.

(** ** A word laid over another

    Three candidates on a 5 × 5 grid: BDB, ABDB and EEDD. *)
Definition bdb : jsstring := [0x42; 0x44; 0x42]%N.
Definition abdb : jsstring := [0x41; 0x42; 0x44; 0x42]%N.
Definition eedd : jsstring := [0x45; 0x45; 0x44; 0x44]%N.

Definition overlapWords : list WordClue.t := [word bdb; word abdb; word eedd].

(** The six orders of the three candidates, by evaluation: no attempt is
    good enough to stop the loop and none is empty; an attempt that takes
    BDB before ABDB is broken; a broken best result is only replaced by a
    broken attempt; and a broken attempt replaces any best result that is
    not broken. *)
Definition overlapTable : bool :=
  forallb (λ p,
    let a := runAttempt 5 p in
    negb (goodEnough 5 a)
    && negb (length (Attempt.placed a) =? 0)
    && implb (comesBefore bdb abdb p) (brokenAttempt 5 a)
    && forallb (λ q,
         let b := runAttempt 5 q in
         implb (brokenAttempt 5 a && replacesBest (Some a) b)
               (brokenAttempt 5 b)
         && implb (negb (brokenAttempt 5 a) && brokenAttempt 5 b)
                  (replacesBest (Some a) b))
         (permutations overlapWords))
    (permutations overlapWords).

(** ** The scenarios of the specification *)

Definition s1Words : list WordClue.t := [word neko; word koto; word tori].

(** S2: ねこ, in hiragana. *)
Definition nekoHiragana : jsstring := [0x306D; 0x3053]%N.
Definition s2Words : list WordClue.t := [word nekoHiragana].

(** S3: ウクライナ. *)
Definition ukuraina : jsstring := [0x30A6; 0x30AF; 0x30E9; 0x30A4; 0x30CA]%N.

Definition puzzleId : jsstring := [0x70; 0x31]%N.

Definition s3Table : list (list N * list N) :=
  [(clueKey 4 (orientationName across), ukuraina)].

Definition s3Puzzle : Puzzle.t :=
  Puzzle.mk puzzleId 5 5 5 [] [] 0%float (Some s3Table).

(** S4: the single candidate ア. *)
Definition s4Words : list WordClue.t :=
  [WordClue.mk [0x30A2%N] [0x41%N] None None].

(** S5: ネコ across from (0, 0); リス across from (1, 0) is refused. *)
Definition risu : jsstring := [0x30EA; 0x30B9]%N.

(** ** Inputs of the further properties *)

(** ネコ written across the middle of a 5 × 5 grid. *)
Definition nekoGrid : Grid := placeWord (emptyGrid 5) neko 2 1 true.

(** The words of the puzzle of scenario S1. *)
Definition nekoWord : PlacedWord.t :=
  PlacedWord.mk neko [] 3 2 1 across 2 None None.
Definition kotoWord : PlacedWord.t :=
  PlacedWord.mk koto [] 3 3 2 down 2 None None.
Definition toriWord : PlacedWord.t :=
  PlacedWord.mk tori [] 4 3 3 across 2 None None.

(** Two articles, keywords that point at the second of them, and answers
    of Claude that do not depend on the prompt. *)
Definition article1 : Article.t :=
  Article.mk (Some 1%Z) (lit "first") (Some (lit "https://a")) None.
Definition article2 : Article.t :=
  Article.mk (Some 2%Z) (lit "second") None None.

Definition nekoKeyword : Keyword.t :=
  Keyword.mk neko neko (lit "term") [] 2 None None None.

Definition sameKeywords (batchOffset : nat) (articles : list Article.t)
    (count : nat) : promise (list Keyword.t) :=
  Resolved [nekoKeyword; nekoKeyword].



(** Three calls of a limiter of two, then one of the started entries
    settles. *)
Definition threeCalls : list (@LimiterEvent nat) :=
  [Call 1; Call 2; Call 3; Settle].

(** * Properties *)

(** ** Text normaliser *)

Section NormalizerFacts.

Variable upperCP : N → list N.

(** Two facts of the Unicode uppercase mapping: the code points it
    produces are uppercase already, and kana have no case, so no kana is
    the uppercase of another code point. *)
Hypothesis upper_stable : ∀ c d, d ∈ upperCP c → upperCP d = [d].
Hypothesis upper_kana : ∀ c d, d ∈ upperCP c → kanaBlock d → c = d.

Lemma foldSmallKana_map s :
  foldSmallKana (map hiraganaToKatakana s) = map kanaStep s.
Proof.
  unfold foldSmallKana, replaceAll. rewrite !map_map. reflexivity.
Qed.

Lemma normalizeJapanese_unfold s :
  normalizeJapanese upperCP s = flat_map upperCP (map kanaStep s).
Proof.
  unfold normalizeJapanese, toUpperCase. by rewrite foldSmallKana_map.
Qed.

(** Outside the two kana blocks nothing is rewritten; inside them there
    are 191 code points, checked one by one. *)
Lemma kanaStep_outside c :
  ¬ kanaBlock c → kanaStep c = c ∧ rewritten c = false.
Proof.
  unfold kanaBlock. intros Hc.
  assert (Hh : ((0x3041 <=? c) && (c <=? 0x3096))%N = false).
  { destruct (N.leb_spec 0x3041 c), (N.leb_spec c 0x3096); simpl; lia. }
  unfold kanaStep, rewritten, hiraganaToKatakana, replaceChar.
  rewrite Hh. simpl.
  repeat (rewrite (proj2 (N.eqb_neq c _)) by lia). done.
Qed.

Lemma kanaCodes_ok : forallb kanaStepOk kanaCodes = true.
Proof. vm_compute. reflexivity. Qed.

Lemma kanaStep_inside c : kanaBlock c → kanaStepOk c = true.
Proof.
  unfold kanaBlock. intros Hc.
  pose proof kanaCodes_ok as Hall.
  rewrite forallb_forall in Hall. apply Hall.
  unfold kanaCodes. apply in_map_iff.
  exists (N.to_nat (c - 0x3041)). split; [lia|].
  apply in_seq. lia.
Qed.

Lemma kanaStep_ok c : kanaStepOk c = true.
Proof.
  destruct (decide (kanaBlock c)) as [Hc|Hc].
  - by apply kanaStep_inside.
  - destruct (kanaStep_outside c Hc) as [Hs Hr].
    unfold kanaStepOk. rewrite Hs, Hr, N.eqb_refl. done.
Qed.

Lemma rewritten_kanaBlock c : rewritten c = true → kanaBlock c.
Proof.
  intros Hr. destruct (decide (kanaBlock c)) as [Hc|Hc]; [done|].
  destruct (kanaStep_outside c Hc) as [_ Hf]. congruence.
Qed.

Lemma kanaStep_not_rewritten c : rewritten (kanaStep c) = false.
Proof.
  pose proof (kanaStep_ok c) as H. unfold kanaStepOk in H.
  apply andb_true_iff in H as [H _]. by apply negb_true_iff in H.
Qed.

Lemma kanaStep_fixed c : rewritten c = false → kanaStep c = c.
Proof.
  intros Hr. pose proof (kanaStep_ok c) as H. unfold kanaStepOk in H.
  rewrite Hr in H. apply andb_true_iff in H as [_ H].
  by apply N.eqb_eq in H.
Qed.

Lemma normalize_settled_fixed s :
  Forall (settled upperCP) s → normalizeJapanese upperCP s = s.
Proof.
  rewrite normalizeJapanese_unfold.
  induction 1 as [|c s [Hc Hu] _ IH]; [done|].
  simpl. rewrite (kanaStep_fixed c Hc), Hu, IH. done.
Qed.

Lemma normalize_output_settled s :
  Forall (settled upperCP) (normalizeJapanese upperCP s).
Proof.
  rewrite normalizeJapanese_unfold.
  apply Forall_forall. intros d Hd.
  apply list_elem_of_In, in_flat_map in Hd as (c & Hc & Hd).
  apply in_map_iff in Hc as (c0 & <- & _).
  apply list_elem_of_In in Hd.
  split; [|by eapply upper_stable].
  destruct (rewritten d) eqn:Hr; [|done].
  apply rewritten_kanaBlock in Hr as Hk.
  pose proof (upper_kana _ _ Hd Hk) as Heq. subst d.
  by rewrite kanaStep_not_rewritten in Hr.
Qed.

Lemma normalize_idem s :
  normalizeJapanese upperCP (normalizeJapanese upperCP s)
  = normalizeJapanese upperCP s.
Proof. apply normalize_settled_fixed, normalize_output_settled. Qed.

Lemma normalizedGrapheme_settled g :
  normalizedGrapheme upperCP g → settled upperCP g.
Proof.
  unfold normalizedGrapheme. rewrite normalizeJapanese_unfold. simpl.
  rewrite app_nil_r. intros Hg.
  assert (Hin : g ∈ upperCP (kanaStep g)) by (rewrite Hg; apply list_elem_of_here).
  destruct (rewritten g) eqn:Hr.
  - apply rewritten_kanaBlock in Hr as Hk.
    pose proof (upper_kana _ _ Hin Hk) as Heq.
    rewrite <- Heq, kanaStep_not_rewritten in Hr. done.
  - split; [done|]. by rewrite (kanaStep_fixed g Hr) in Hg.
Qed.

End NormalizerFacts.

Lemma latinUpper_stable c d : d ∈ latinUpper c → latinUpper d = [d].
Proof.
  unfold latinUpper.
  destruct ((0x61 <=? c) && (c <=? 0x7A))%N eqn:Hc;
    intros ->%list_elem_of_singleton.
  - apply andb_true_iff in Hc as [H1 H2]. apply N.leb_le in H1, H2.
    destruct ((0x61 <=? c - 0x20) && (c - 0x20 <=? 0x7A))%N eqn:Hd; [|done].
    apply andb_true_iff in Hd as [H3 H4]. apply N.leb_le in H3, H4. lia.
  - by rewrite Hc.
Qed.

Lemma latinUpper_kana c d : d ∈ latinUpper c → kanaBlock d → c = d.
Proof.
  unfold latinUpper, kanaBlock.
  destruct ((0x61 <=? c) && (c <=? 0x7A))%N eqn:Hc;
    intros ->%list_elem_of_singleton; [|done].
  apply andb_true_iff in Hc as [H1 H2]. apply N.leb_le in H1, H2. lia.
Qed.

(** C9. Normalisation is idempotent: normalising a normalised string
    changes nothing, for every input string, given the two facts of the
    Unicode uppercase mapping stated above. *)
Theorem normalize_idempotent (upperCP : N → list N)
    (upper_stable : ∀ c d, d ∈ upperCP c → upperCP d = [d])
    (upper_kana : ∀ c d, d ∈ upperCP c → kanaBlock d → c = d)
    (x : jsstring) :
  normalizeJapanese upperCP (normalizeJapanese upperCP x)
  = normalizeJapanese upperCP x.
Proof. by apply normalize_idem. Qed.

Lemma normalize_idempotent_witness :
  normalizeJapanese latinUpper
    (normalizeJapanese latinUpper [0x306D; 0x3063; 0x3053; 0x61]%N)
  = normalizeJapanese latinUpper [0x306D; 0x3063; 0x3053; 0x61]%N.
Proof.
  apply (normalize_idempotent latinUpper latinUpper_stable latinUpper_kana).
Defined.

(** ** What [canPlaceWord] decides *)

Lemma notNull_false grid r c : notNull grid r c = false ↔ blocked grid r c.
Proof.
  unfold notNull, blocked.
  destruct (cellAt grid r c) as [[g|]|]; split; congruence.
Qed.

Lemma notNull_true_letter grid r c g : letter grid r c g → notNull grid r c = true.
Proof. unfold notNull, letter. by intros ->. Qed.

(** A guarded test [a < b && grid[r][c] !== null] lets the scan go on
    exactly when the guarded cell is blocked. *)
Lemma guard_passes (a b : nat) grid r c :
  (a <? b) && notNull grid r c = false ↔ (a < b → blocked grid r c).
Proof.
  rewrite <- notNull_false.
  destruct (Nat.ltb_spec a b), (notNull grid r c); simpl;
    split; intros; try done; try lia; auto.
Qed.

Lemma checkBounds_spec grid len row col horizontal :
  checkBounds grid len row col horizontal = true ↔
  runInBounds grid len row col horizontal
  ∧ capsBlocked grid len row col horizontal.
Proof.
  unfold checkBounds, runInBounds, capsBlocked.
  destruct horizontal.
  - destruct (Nat.ltb_spec (length grid) (col + len)).
    { split; [done|]. intros [? _]. lia. }
    destruct ((0 <? col) && notNull grid row (col - 1)) eqn:H1.
    { split; [done|]. intros (_ & Hb & _).
      apply andb_true_iff in H1 as [Hc Hn]. apply Nat.ltb_lt in Hc.
      apply notNull_false in Hb; [congruence|done]. }
    destruct ((col + len <? length grid) && notNull grid row (col + len)) eqn:H2.
    { split; [done|]. intros (_ & _ & Hb).
      apply andb_true_iff in H2 as [Hc Hn]. apply Nat.ltb_lt in Hc.
      apply notNull_false in Hb; [congruence|done]. }
    rewrite guard_passes in H1, H2.
    split; [|done]. intros _. repeat split; auto.
  - destruct (Nat.ltb_spec (length grid) (row + len)).
    { split; [done|]. intros [? _]. lia. }
    destruct ((0 <? row) && notNull grid (row - 1) col) eqn:H1.
    { split; [done|]. intros (_ & Hb & _).
      apply andb_true_iff in H1 as [Hc Hn]. apply Nat.ltb_lt in Hc.
      apply notNull_false in Hb; [congruence|done]. }
    destruct ((row + len <? length grid) && notNull grid (row + len) col) eqn:H2.
    { split; [done|]. intros (_ & _ & Hb).
      apply andb_true_iff in H2 as [Hc Hn]. apply Nat.ltb_lt in Hc.
      apply notNull_false in Hb; [congruence|done]. }
    rewrite guard_passes in H1, H2.
    split; [|done]. intros _. repeat split; auto.
Qed.

Lemma checkSides_spec grid r c horizontal :
  checkSides grid r c horizontal = true ↔ sidesBlocked grid r c horizontal.
Proof.
  unfold checkSides, sidesBlocked.
  destruct horizontal.
  - destruct ((0 <? r) && notNull grid (r - 1) c) eqn:H1.
    { split; [done|]. intros (Hb & _).
      apply andb_true_iff in H1 as [Hc Hn]. apply Nat.ltb_lt in Hc.
      apply notNull_false in Hb; [congruence|done]. }
    destruct ((r <? length grid - 1) && notNull grid (r + 1) c) eqn:H2.
    { split; [done|]. intros (_ & Hb).
      apply andb_true_iff in H2 as [Hc Hn]. apply Nat.ltb_lt in Hc.
      apply notNull_false in Hb; [congruence|done]. }
    rewrite guard_passes in H1, H2.
    split; [|done]. intros _. repeat split; auto.
  - destruct ((0 <? c) && notNull grid r (c - 1)) eqn:H1.
    { split; [done|]. intros (Hb & _).
      apply andb_true_iff in H1 as [Hc Hn]. apply Nat.ltb_lt in Hc.
      apply notNull_false in Hb; [congruence|done]. }
    destruct ((c <? length grid - 1) && notNull grid r (c + 1)) eqn:H2.
    { split; [done|]. intros (_ & Hb).
      apply andb_true_iff in H2 as [Hc Hn]. apply Nat.ltb_lt in Hc.
      apply notNull_false in Hb; [congruence|done]. }
    rewrite guard_passes in H1, H2.
    split; [|done]. intros _. repeat split; auto.
Qed.

Lemma scanRun_sound grid row col horizontal chars : ∀ i hi b,
  scanRun grid row col horizontal chars i hi = Some b →
  (∀ k ch, chars !! k = Some ch → cellFits grid row col horizontal (i + k) ch)
  ∧ (b = true ↔
     hi = true ∨
     ∃ k ch, chars !! k = Some ch
             ∧ intersectsAt grid row col horizontal (i + k) ch).
Proof.
  induction chars as [|ch rest IH]; intros i hi b Hscan; simpl in Hscan.
  { injection Hscan as <-. split; [by intros k ch' ?|].
    split; [by left|]. intros [?|(k & ch' & ? & _)]; done. }
  destruct (cellAt grid (runRow row horizontal i) (runCol col horizontal i))
    as [[existing|]|] eqn:Hcell; [| |done].
  - destruct (N.eqb_spec existing ch) as [->|?]; [|done]. simpl in Hscan.
    apply IH in Hscan as [Hfits Hb].
    assert (Hhere : intersectsAt grid row col horizontal (i + 0) ch).
    { unfold intersectsAt, letter. by rewrite Nat.add_0_r. }
    split.
    + intros [|k] ch' Hk; simpl in Hk.
      * injection Hk as <-. by left.
      * replace (i + S k) with (S i + k) by lia. by apply Hfits.
    + split; [|intros _; apply Hb; by left].
      intros _. right. by exists 0, ch.
  - destruct (checkSides grid _ _ horizontal) eqn:Hsides; [|done].
    apply checkSides_spec in Hsides.
    apply IH in Hscan as [Hfits Hb].
    split.
    + intros [|k] ch' Hk; simpl in Hk.
      * injection Hk as <-. right. unfold blocked.
        by rewrite Nat.add_0_r.
      * replace (i + S k) with (S i + k) by lia. by apply Hfits.
    + rewrite Hb. split.
      * intros [?|(k & ch' & Hk & Hint)]; [by left|].
        right. exists (S k), ch'. split; [done|].
        by replace (i + S k) with (S i + k) by lia.
      * intros [?|(k & ch' & Hk & Hint)]; [by left|].
        destruct k as [|k]; simpl in Hk.
        { unfold intersectsAt, letter in Hint.
          rewrite Nat.add_0_r in Hint. congruence. }
        right. exists k, ch'. split; [done|].
        by replace (S i + k) with (i + S k) by lia.
Qed.

Lemma scanRun_complete grid row col horizontal chars : ∀ i hi,
  (∀ k ch, chars !! k = Some ch → cellFits grid row col horizontal (i + k) ch) →
  ∃ b, scanRun grid row col horizontal chars i hi = Some b.
Proof.
  induction chars as [|ch rest IH]; intros i hi Hfits; simpl; [by eexists|].
  assert (Hrest : ∀ k ch', rest !! k = Some ch' →
            cellFits grid row col horizontal (S i + k) ch').
  { intros k ch' Hk. replace (S i + k) with (i + S k) by lia.
    by apply Hfits. }
  destruct (Hfits 0 ch eq_refl) as [Hl|[Hb Hs]];
    rewrite Nat.add_0_r in *.
  - unfold letter in Hl. rewrite Hl, N.eqb_refl. simpl. by apply IH.
  - unfold blocked in Hb. rewrite Hb.
    apply checkSides_spec in Hs. rewrite Hs. by apply IH.
Qed.

(** [canPlaceWord] accepts exactly the placeable runs. *)
Lemma canPlaceWord_spec grid word row col horizontal requireIntersection :
  canPlaceWord grid word row col horizontal requireIntersection = true ↔
  placeable grid word row col horizontal requireIntersection.
Proof.
  unfold canPlaceWord, placeable.
  destruct (checkBounds grid (length word) row col horizontal) eqn:Hbounds.
  - apply checkBounds_spec in Hbounds as [Hin Hcaps].
    destruct (scanRun grid row col horizontal word 0 false) as [b|] eqn:Hscan.
    + apply scanRun_sound in Hscan as [Hfits Hb]. simpl in Hfits, Hb.
      split.
      * intros Hres. repeat split; try done.
        intros ->. destruct b; [|done].
        destruct Hb as [Hb _]. destruct (Hb eq_refl) as [?|?]; done.
      * intros (_ & _ & _ & Hreq).
        destruct requireIntersection; [|done]. simpl.
        destruct b; [done|]. exfalso.
        destruct Hb as [_ Hb]. specialize (Hb (or_intror (Hreq eq_refl))).
        done.
    + split; [done|]. intros (_ & _ & Hfits & _).
      destruct (scanRun_complete grid row col horizontal word 0 false)
        as [b Hb]; [done|congruence].
  - split; [done|]. intros (Hin & Hcaps & _).
    assert (checkBounds grid (length word) row col horizontal = true)
      by (by apply checkBounds_spec).
    congruence.
Qed.

(** C2. For a start position inside the grid, [canPlaceWord] returns
    [true] if and only if the run lies in bounds, the cells before and
    after it are blocked when they are in bounds, every cell of the run
    holds the word's grapheme of that index or is blocked with both
    perpendicular neighbours blocked when they are in bounds, and, when an
    intersection is required, the run meets one. *)
Theorem canPlaceWord_iff_placeable (grid : Grid) (word : jsstring)
    (row col : nat) (horizontal requireIntersection : bool) :
  row < length grid → col < length grid →
  (canPlaceWord grid word row col horizontal requireIntersection = true ↔
   runInBounds grid (length word) row col horizontal
   ∧ capsBlocked grid (length word) row col horizontal
   ∧ (∀ i ch, word !! i = Some ch → cellFits grid row col horizontal i ch)
   ∧ (requireIntersection = true →
      ∃ i ch, word !! i = Some ch
              ∧ intersectsAt grid row col horizontal i ch)).
Proof. intros _ _. apply canPlaceWord_spec. Qed.

(** ** Writing on a square grid *)

Lemma cellAt_emptyGrid n r c :
  cellAt (emptyGrid n) r c = if decide (r < n ∧ c < n) then Some None else None.
Proof.
  unfold cellAt, emptyGrid.
  destruct (decide (r < n)) as [Hr|Hr].
  - rewrite lookup_replicate_2 by done. simpl.
    destruct (decide (c < n)) as [Hc|Hc].
    + rewrite decide_True by done. by apply lookup_replicate_2.
    + rewrite decide_False by lia. apply lookup_replicate_None. lia.
  - rewrite (proj1 (lookup_replicate_None _ _ _)) by lia.
    simpl. by rewrite decide_False by lia.
Qed.

Lemma emptyGrid_wf n : wfGrid n (emptyGrid n).
Proof.
  split; [apply length_replicate|].
  intros r c. rewrite cellAt_emptyGrid.
  destruct (decide (r < n ∧ c < n)); split; intros H; done.
Qed.

Lemma emptyGrid_blocked n r c : r < n → c < n → blocked (emptyGrid n) r c.
Proof.
  intros. unfold blocked. rewrite cellAt_emptyGrid. by rewrite decide_True.
Qed.

Lemma emptyGrid_no_letter n r c : ¬ isLetter (emptyGrid n) r c.
Proof.
  intros [g Hg]. unfold letter in Hg. rewrite cellAt_emptyGrid in Hg.
  by destruct (decide (r < n ∧ c < n)).
Qed.

Lemma length_setCell grid r c ch : length (setCell grid r c ch) = length grid.
Proof. unfold setCell. apply length_alter. Qed.

Lemma cellAt_setCell_eq grid r c ch :
  is_Some (cellAt grid r c) → cellAt (setCell grid r c ch) r c = Some (Some ch).
Proof.
  unfold cellAt, setCell. intros [v Hv].
  destruct (grid !! r) as [rowv|] eqn:Hrow; [|done]. simpl in Hv.
  rewrite list_lookup_alter_eq, Hrow. simpl.
  apply list_lookup_insert_eq. by eapply lookup_lt_Some.
Qed.

Lemma cellAt_setCell_ne grid r c ch r' c' :
  (r', c') ≠ (r, c) → cellAt (setCell grid r c ch) r' c' = cellAt grid r' c'.
Proof.
  unfold cellAt, setCell. intros Hne.
  destruct (decide (r' = r)) as [->|Hr].
  - rewrite list_lookup_alter_eq.
    destruct (grid !! r) as [rowv|]; [|done]. simpl.
    apply list_lookup_insert_ne. congruence.
  - by rewrite list_lookup_alter_ne.
Qed.

Lemma is_Some_cellAt_setCell grid r c ch r' c' :
  is_Some (cellAt (setCell grid r c ch) r' c') ↔ is_Some (cellAt grid r' c').
Proof.
  destruct (decide ((r', c') = (r, c))) as [[= -> ->]|Hne].
  - split; intros H.
    + destruct (cellAt grid r c) eqn:E; [done|].
      unfold cellAt, setCell in *.
      rewrite list_lookup_alter_eq in H.
      destruct (grid !! r) as [rowv|]; [|by destruct H]. simpl in *.
      apply lookup_ge_None in E.
      rewrite list_insert_ge in H by done.
      destruct H as [v Hv]. apply lookup_lt_Some in Hv. lia.
    + rewrite cellAt_setCell_eq; done.
  - by rewrite cellAt_setCell_ne.
Qed.

Lemma setCell_wf n grid r c ch : wfGrid n grid → wfGrid n (setCell grid r c ch).
Proof.
  intros [Hlen Hcells]. split; [by rewrite length_setCell|].
  intros r' c'. by rewrite is_Some_cellAt_setCell.
Qed.

(** Two cells of a run coincide only at the same index. *)
Lemma runCell_inj row col horizontal i j :
  (runRow row horizontal i, runCol col horizontal i)
  = (runRow row horizontal j, runCol col horizontal j) → i = j.
Proof. unfold runRow, runCol. destruct horizontal; intros [= ?]; lia. Qed.

Lemma placeFrom_wf n row col horizontal chars : ∀ grid i,
  wfGrid n grid → wfGrid n (placeFrom grid row col horizontal chars i).
Proof.
  induction chars as [|ch rest IH]; intros grid i Hwf; simpl; [done|].
  by apply IH, setCell_wf.
Qed.

Lemma placeFrom_other row col horizontal chars : ∀ grid i r c,
  (∀ k, k < length chars →
     (r, c) ≠ (runRow row horizontal (i + k), runCol col horizontal (i + k))) →
  cellAt (placeFrom grid row col horizontal chars i) r c = cellAt grid r c.
Proof.
  induction chars as [|ch rest IH]; intros grid i r c Hout; simpl; [done|].
  rewrite IH.
  - apply cellAt_setCell_ne.
    specialize (Hout 0). rewrite Nat.add_0_r in Hout.
    apply Hout. simpl. lia.
  - intros k Hk. replace (S i + k) with (i + S k) by lia.
    apply Hout. simpl. lia.
Qed.

Lemma placeFrom_written row col horizontal chars : ∀ grid i k ch,
  chars !! k = Some ch →
  is_Some (cellAt grid (runRow row horizontal (i + k))
                       (runCol col horizontal (i + k))) →
  cellAt (placeFrom grid row col horizontal chars i)
         (runRow row horizontal (i + k)) (runCol col horizontal (i + k))
  = Some (Some ch).
Proof.
  induction chars as [|ch0 rest IH]; intros grid i k ch Hk Hcell; [done|].
  simpl. destruct k as [|k]; simpl in Hk.
  - injection Hk as ->. rewrite Nat.add_0_r in *.
    rewrite placeFrom_other.
    + by apply cellAt_setCell_eq.
    + intros k _ Heq. apply runCell_inj in Heq. lia.
  - replace (i + S k) with (S i + k) in * by lia.
    apply IH; [done|]. by apply is_Some_cellAt_setCell.
Qed.

Lemma placeWord_wf n grid word row col horizontal :
  wfGrid n grid → wfGrid n (placeWord grid word row col horizontal).
Proof. apply placeFrom_wf. Qed.

Lemma placeWord_written grid word row col horizontal i ch :
  word !! i = Some ch →
  is_Some (cellAt grid (runRow row horizontal i) (runCol col horizontal i)) →
  letter (placeWord grid word row col horizontal)
    (runRow row horizontal i) (runCol col horizontal i) ch.
Proof.
  intros Hi Hcell. unfold letter, placeWord.
  by apply (placeFrom_written row col horizontal word grid 0 i ch).
Qed.

Lemma placeWord_other grid word row col horizontal r c :
  (∀ i, i < length word →
     (r, c) ≠ (runRow row horizontal i, runCol col horizontal i)) →
  cellAt (placeWord grid word row col horizontal) r c = cellAt grid r c.
Proof. intros Hout. unfold placeWord. by apply placeFrom_other. Qed.

(** ** A placement keeps the invariant *)

Lemma inRun_index row col horizontal len r c :
  inRun row col horizontal len r c ↔
  ∃ i, i < len ∧ r = runRow row horizontal i ∧ c = runCol col horizontal i.
Proof.
  unfold inRun, runRow, runCol. destruct horizontal; split.
  - intros (-> & Hc). exists (c - col). lia.
  - intros (i & Hi & -> & ->). lia.
  - intros (-> & Hr). exists (r - row). lia.
  - intros (i & Hi & -> & ->). lia.
Qed.

Lemma blocked_not_letter grid r c : blocked grid r c → ¬ isLetter grid r c.
Proof. unfold blocked, isLetter, letter. intros -> [g Hg]. done. Qed.

Lemma wfGrid_letter n grid r c : wfGrid n grid → isLetter grid r c → r < n ∧ c < n.
Proof.
  intros [_ Hcells] [g Hg]. apply Hcells. unfold letter in Hg.
  by rewrite Hg.
Qed.

Section PlaceStep.

Variables (n : nat) (grid : Grid) (wd : jsstring) (row col : nat)
          (horizontal : bool).
Hypothesis Hwf : wfGrid n grid.
Hypothesis Hplace : placeable grid wd row col horizontal false.

Abbreviation newGrid := (placeWord grid wd row col horizontal).

Lemma step_fits r c :
  inRun row col horizontal (length wd) r c →
  isLetter grid r c ∨ (blocked grid r c ∧ sidesBlocked grid r c horizontal).
Proof.
  intros (i & Hi & -> & ->)%inRun_index.
  destruct (lookup_lt_is_Some_2 wd i Hi) as [ch Hch].
  destruct Hplace as (_ & _ & Hfits & _).
  destruct (Hfits i ch Hch) as [Hl|Hb]; [left; by exists ch|by right].
Qed.

Lemma step_exists r c :
  inRun row col horizontal (length wd) r c → is_Some (cellAt grid r c).
Proof.
  intros Hin. destruct (step_fits r c Hin) as [[g Hg]|[Hb _]].
  - unfold letter in Hg. by rewrite Hg.
  - unfold blocked in Hb. by rewrite Hb.
Qed.

Lemma step_written i ch :
  wd !! i = Some ch →
  letter newGrid (runRow row horizontal i) (runCol col horizontal i) ch.
Proof.
  intros Hch. apply placeWord_written; [done|].
  apply step_exists, inRun_index. exists i.
  split; [by eapply lookup_lt_Some|done].
Qed.

Lemma step_in_run r c :
  inRun row col horizontal (length wd) r c → isLetter newGrid r c.
Proof.
  intros (i & Hi & -> & ->)%inRun_index.
  destruct (lookup_lt_is_Some_2 wd i Hi) as [ch Hch].
  exists ch. by apply step_written.
Qed.

Lemma step_other r c :
  ¬ inRun row col horizontal (length wd) r c →
  cellAt newGrid r c = cellAt grid r c.
Proof.
  intros Hout. apply placeWord_other. intros i Hi [= -> ->].
  apply Hout, inRun_index. by exists i.
Qed.

Lemma step_other_letter r c :
  ¬ inRun row col horizontal (length wd) r c →
  isLetter newGrid r c → isLetter grid r c.
Proof.
  intros Hout [g Hg]. exists g. unfold letter in *.
  by rewrite step_other in Hg.
Qed.

(** A letter already on the grid stays as it is. *)
Lemma step_keeps r c g : letter grid r c g → letter newGrid r c g.
Proof.
  intros Hg.
  destruct (decide (inRun row col horizontal (length wd) r c)) as [Hin|Hout].
  - apply inRun_index in Hin as (i & Hi & -> & ->).
    destruct (lookup_lt_is_Some_2 wd i Hi) as [ch Hch].
    destruct Hplace as (_ & _ & Hfits & _).
    destruct (Hfits i ch Hch) as [Hl|[Hb _]].
    + unfold letter in Hl, Hg. rewrite Hl in Hg. injection Hg as ->.
      by apply step_written.
    + unfold blocked, letter in *. congruence.
  - unfold letter. by rewrite step_other.
Qed.

Lemma step_wf : wfGrid n newGrid.
Proof. by apply placeWord_wf. Qed.

Lemma step_caps :
  if horizontal then
    (0 < col → ¬ isLetter grid row (col - 1))
    ∧ (col + length wd < n → ¬ isLetter grid row (col + length wd))
  else
    (0 < row → ¬ isLetter grid (row - 1) col)
    ∧ (row + length wd < n → ¬ isLetter grid (row + length wd) col).
Proof.
  destruct Hplace as (_ & Hcaps & _). destruct Hwf as [Hlen _].
  unfold capsBlocked in Hcaps. rewrite Hlen in Hcaps.
  destruct horizontal; destruct Hcaps as [H1 H2];
    split; intros H; apply blocked_not_letter; auto.
Qed.

Lemma step_sides r c :
  inRun row col horizontal (length wd) r c → ¬ isLetter grid r c →
  if horizontal then
    (0 < r → ¬ isLetter grid (r - 1) c)
    ∧ (r + 1 < n → ¬ isLetter grid (r + 1) c)
  else
    (0 < c → ¬ isLetter grid r (c - 1))
    ∧ (c + 1 < n → ¬ isLetter grid r (c + 1)).
Proof.
  intros Hin Hno. destruct (step_fits r c Hin) as [?|[_ Hs]]; [done|].
  destruct Hwf as [Hlen _].
  unfold sidesBlocked in Hs. rewrite Hlen in Hs.
  destruct horizontal; destruct Hs as [H1 H2];
    split; intros H; apply blocked_not_letter; auto with lia.
Qed.

End PlaceStep.

Section PlacePreserves.

Variables (n : nat) (grid : Grid) (placed : list Placed.t) (w : WordClue.t)
          (row col : nat) (horizontal : bool).
Hypothesis Hinv : attemptInv n grid placed.
Hypothesis Hplace : placeable grid (WordClue.answer w) row col horizontal false.

Abbreviation wd := (WordClue.answer w).
Abbreviation grid' := (placeWord grid (WordClue.answer w) row col horizontal).
Abbreviation entry := (Placed.mk w row col horizontal).

Lemma place_cells p i ch :
  p ∈ placed ++ [entry] → wordOf p !! i = Some ch →
  letter grid' (cellRow p i) (cellCol p i) ch.
Proof.
  intros [Hp|Hp%list_elem_of_singleton]%elem_of_app Hch.
  - apply step_keeps; [done|]. by apply (inv_cells _ _ _ Hinv).
  - subst p. by apply step_written.
Qed.

Lemma place_cover r c :
  isLetter grid' r c →
  ∃ p i, p ∈ placed ++ [entry] ∧ i < length (wordOf p)
         ∧ r = cellRow p i ∧ c = cellCol p i.
Proof.
  intros Hl.
  destruct (decide (inRun row col horizontal (length wd) r c)) as [Hin|Hout].
  - apply inRun_index in Hin as (i & Hi & -> & ->).
    exists entry, i. split; [apply elem_of_app; right; by left|done].
  - apply step_other_letter in Hl; [|done].
    destruct (inv_cover _ _ _ Hinv r c Hl) as (p & i & Hp & Hrest).
    exists p, i. split; [apply elem_of_app; by left|done].
Qed.

Lemma place_across r c :
  isLetter grid' r c → isLetter grid' r (c + 1) →
  ∃ p i, p ∈ placed ++ [entry] ∧ Placed.horizontal p = true
         ∧ S i < length (wordOf p)
         ∧ r = Placed.row p ∧ c = Placed.col p + i.
Proof.
  intros H1 H2.
  pose proof (inv_wf _ _ _ Hinv) as Hwf.
  assert (Hold : isLetter grid r c → isLetter grid r (c + 1) →
    ∃ p i, p ∈ placed ++ [entry] ∧ Placed.horizontal p = true
           ∧ S i < length (wordOf p)
           ∧ r = Placed.row p ∧ c = Placed.col p + i).
  { intros L1 L2.
    destruct (inv_across _ _ _ Hinv r c L1 L2) as (p & i & Hp & Hrest).
    exists p, i. split; [apply elem_of_app; by left|done]. }
  pose proof (step_caps n grid wd row col horizontal Hwf Hplace) as Hcaps.
  destruct (decide (inRun row col horizontal (length wd) r c)) as [I1|O1];
  destruct (decide (inRun row col horizontal (length wd) r (c + 1)))
    as [I2|O2].
  - destruct horizontal; unfold inRun in I1, I2; [|lia].
    exists (Placed.mk w row col true), (c - col). simpl.
    split; [apply elem_of_app; right; by left|].
    unfold wordOf. simpl. lia.
  - apply step_other_letter in H2; [|done].
    destruct (step_fits grid wd row col horizontal Hplace r c I1)
      as [L1|[B1 _]]; [by apply Hold|].
    exfalso.
    pose proof (step_sides n grid wd row col horizontal Hwf Hplace r c I1
                  (blocked_not_letter _ _ _ B1)) as Hsides.
    pose proof (wfGrid_letter _ _ _ _ Hwf H2) as [_ Hc2].
    destruct horizontal; unfold inRun in I1, O2.
    + destruct Hcaps as [_ Hcap]. destruct I1 as [-> I1].
      replace (c + 1) with (col + length wd) in * by lia.
      by apply Hcap.
    + destruct Hsides as [_ Hside]. by apply Hside.
  - apply step_other_letter in H1; [|done].
    destruct (step_fits grid wd row col horizontal Hplace r (c + 1) I2)
      as [L2|[B2 _]]; [by apply Hold|].
    exfalso.
    pose proof (step_sides n grid wd row col horizontal Hwf Hplace r (c + 1)
                  I2 (blocked_not_letter _ _ _ B2)) as Hsides.
    destruct horizontal; unfold inRun in I2, O1.
    + destruct Hcaps as [Hcap _]. destruct I2 as [-> I2].
      assert (c = col - 1) as -> by lia.
      apply Hcap; [lia|done].
    + destruct Hsides as [Hside _].
      replace (c + 1 - 1) with c in Hside by lia.
      apply Hside; [lia|done].
  - apply step_other_letter in H1; [|done].
    apply step_other_letter in H2; [|done].
    by apply Hold.
Qed.

Lemma place_down r c :
  isLetter grid' r c → isLetter grid' (r + 1) c →
  ∃ p i, p ∈ placed ++ [entry] ∧ Placed.horizontal p = false
         ∧ S i < length (wordOf p)
         ∧ r = Placed.row p + i ∧ c = Placed.col p.
Proof.
  intros H1 H2.
  pose proof (inv_wf _ _ _ Hinv) as Hwf.
  assert (Hold : isLetter grid r c → isLetter grid (r + 1) c →
    ∃ p i, p ∈ placed ++ [entry] ∧ Placed.horizontal p = false
           ∧ S i < length (wordOf p)
           ∧ r = Placed.row p + i ∧ c = Placed.col p).
  { intros L1 L2.
    destruct (inv_down _ _ _ Hinv r c L1 L2) as (p & i & Hp & Hrest).
    exists p, i. split; [apply elem_of_app; by left|done]. }
  pose proof (step_caps n grid wd row col horizontal Hwf Hplace) as Hcaps.
  destruct (decide (inRun row col horizontal (length wd) r c)) as [I1|O1];
  destruct (decide (inRun row col horizontal (length wd) (r + 1) c))
    as [I2|O2].
  - destruct horizontal; unfold inRun in I1, I2; [lia|].
    exists (Placed.mk w row col false), (r - row). simpl.
    split; [apply elem_of_app; right; by left|].
    unfold wordOf. simpl. lia.
  - apply step_other_letter in H2; [|done].
    destruct (step_fits grid wd row col horizontal Hplace r c I1)
      as [L1|[B1 _]]; [by apply Hold|].
    exfalso.
    pose proof (step_sides n grid wd row col horizontal Hwf Hplace r c I1
                  (blocked_not_letter _ _ _ B1)) as Hsides.
    pose proof (wfGrid_letter _ _ _ _ Hwf H2) as [Hr2 _].
    destruct horizontal; unfold inRun in I1, O2.
    + destruct Hsides as [_ Hside]. by apply Hside.
    + destruct Hcaps as [_ Hcap]. destruct I1 as [-> I1].
      replace (r + 1) with (row + length wd) in * by lia.
      by apply Hcap.
  - apply step_other_letter in H1; [|done].
    destruct (step_fits grid wd row col horizontal Hplace (r + 1) c I2)
      as [L2|[B2 _]]; [by apply Hold|].
    exfalso.
    pose proof (step_sides n grid wd row col horizontal Hwf Hplace (r + 1) c
                  I2 (blocked_not_letter _ _ _ B2)) as Hsides.
    destruct horizontal; unfold inRun in I2, O1.
    + destruct Hsides as [Hside _].
      replace (r + 1 - 1) with r in Hside by lia.
      apply Hside; [lia|done].
    + destruct Hcaps as [Hcap _]. destruct I2 as [-> I2].
      assert (r = row - 1) as -> by lia.
      apply Hcap; [lia|done].
  - apply step_other_letter in H1; [|done].
    apply step_other_letter in H2; [|done].
    by apply Hold.
Qed.

(** Placing a word where [canPlaceWord] accepts it keeps the invariant. *)
Lemma place_preserves : attemptInv n grid' (placed ++ [entry]).
Proof.
  split.
  - apply placeWord_wf, (inv_wf _ _ _ Hinv).
  - apply place_cells.
  - apply place_cover.
  - apply place_across.
  - apply place_down.
Qed.

End PlacePreserves.

(** ** Every placement the engine proposes is placeable *)

Lemma insertBy_Permutation {A} (cmp : A → A → Z) x l :
  insertBy cmp x l ≡ₚ x :: l.
Proof.
  induction l as [|y l IH]; simpl; [done|].
  destruct (cmp x y <=? 0)%Z; [done|].
  rewrite IH. apply Permutation_swap.
Qed.

Lemma sortBy_Permutation {A} (cmp : A → A → Z) l : sortBy cmp l ≡ₚ l.
Proof.
  induction l as [|x l IH]; simpl; [done|].
  unfold sortBy in *. simpl. rewrite insertBy_Permutation. by rewrite IH.
Qed.

Lemma sortBy_elem_of {A} (cmp : A → A → Z) l x : x ∈ sortBy cmp l ↔ x ∈ l.
Proof. by rewrite sortBy_Permutation. Qed.

Lemma canPlaceWord_valid grid wd r c h req k :
  canPlaceWord grid wd r c h req = true →
  validPlacement grid wd (Placement.mk r c h k).
Proof.
  intros (Hin & Hcaps & Hfits & _)%canPlaceWord_spec.
  unfold validPlacement. simpl. repeat split; try done.
Qed.

Lemma tryIntersect_valid grid wd req r c i p :
  p ∈ tryIntersect grid wd req r c i → validPlacement grid wd p.
Proof.
  unfold tryIntersect. intros [Hp|Hp]%elem_of_app.
  - destruct ((i <=? c) && canPlaceWord grid wd r (c - i) true req) eqn:E;
      [|by apply elem_of_nil in Hp].
    apply list_elem_of_singleton in Hp as ->.
    apply andb_true_iff in E as [_ E]. by eapply canPlaceWord_valid.
  - destruct ((i <=? r) && canPlaceWord grid wd (r - i) c false req) eqn:E;
      [|by apply elem_of_nil in Hp].
    apply list_elem_of_singleton in Hp as ->.
    apply andb_true_iff in E as [_ E]. by eapply canPlaceWord_valid.
Qed.

Lemma intersectingPlacements_valid grid wd req p :
  p ∈ intersectingPlacements grid wd req → validPlacement grid wd p.
Proof.
  unfold intersectingPlacements.
  intros (r & _ & Hp)%list_elem_of_In%in_flat_map.
  apply in_flat_map in Hp as (c & _ & Hp).
  destruct (cellAt grid r c) as [[existingChar|]|]; try done.
  apply in_concat in Hp as (l & Hl & Hp).
  apply list_elem_of_In, elem_of_lookup_imap in Hl as (i & ch & -> & _).
  destruct (ch =? existingChar)%N; [|done].
  apply list_elem_of_In in Hp. by eapply tryIntersect_valid.
Qed.

Lemma scanPlacements_valid grid wd p :
  p ∈ scanPlacements grid wd → validPlacement grid wd p.
Proof.
  unfold scanPlacements.
  intros (r & _ & Hp)%list_elem_of_In%in_flat_map.
  apply in_flat_map in Hp as (c & _ & Hp).
  apply list_elem_of_In, elem_of_app in Hp as [Hp|Hp].
  - destruct (canPlaceWord grid wd r c true false) eqn:E;
      [|by apply elem_of_nil in Hp].
    apply list_elem_of_singleton in Hp as ->. by eapply canPlaceWord_valid.
  - destruct (canPlaceWord grid wd r c false false) eqn:E;
      [|by apply elem_of_nil in Hp].
    apply list_elem_of_singleton in Hp as ->. by eapply canPlaceWord_valid.
Qed.

Lemma findPlacements_valid grid wd req p :
  p ∈ findPlacements grid wd req → validPlacement grid wd p.
Proof.
  unfold findPlacements. rewrite sortBy_elem_of.
  destruct ((length (intersectingPlacements grid wd req) =? 0) && negb req).
  - intros [Hp|Hp]%elem_of_app.
    + by eapply intersectingPlacements_valid.
    + by apply scanPlacements_valid.
  - by apply intersectingPlacements_valid.
Qed.

(** ** The passes keep the invariant *)

Lemma emptyGrid_inv n : attemptInv n (emptyGrid n) [].
Proof.
  split.
  - apply emptyGrid_wf.
  - intros p i ch Hp. by apply elem_of_nil in Hp.
  - intros r c Hl. by apply emptyGrid_no_letter in Hl.
  - intros r c Hl. by apply emptyGrid_no_letter in Hl.
  - intros r c Hl. by apply emptyGrid_no_letter in Hl.
Qed.

Lemma placeBest_inv n st w placements :
  stateInv n st →
  (∀ p, p ∈ placements → validPlacement st.1 (WordClue.answer w) p) →
  stateInv n (placeBest st w placements).
Proof.
  intros Hinv Hvalid. unfold placeBest.
  destruct placements as [|best rest]; [done|].
  unfold stateInv. simpl.
  apply place_preserves; [done|]. apply Hvalid. by left.
Qed.

Lemma placeFirst_inv n shuffled : stateInv n (placeFirst n shuffled).
Proof.
  unfold placeFirst, stateInv.
  destruct shuffled as [|firstWord rest]; simpl; [apply emptyGrid_inv|].
  destruct (canPlaceWord _ _ _ _ _ _) eqn:E; simpl; [|apply emptyGrid_inv].
  apply (place_preserves n (emptyGrid n) []); [apply emptyGrid_inv|].
  by apply (canPlaceWord_valid _ _ _ _ _ _ 0) in E.
Qed.

Lemma mainPass_inv n st shuffled :
  stateInv n st → stateInv n (mainPass st shuffled).
Proof.
  unfold mainPass. generalize (drop 1 shuffled). intros l. revert st.
  induction l as [|w l IH]; intros st Hinv; simpl; [done|].
  apply IH, placeBest_inv; [done|]. intros p. apply findPlacements_valid.
Qed.

Lemma edgePass_inv n st shuffled :
  stateInv n st → stateInv n (edgePass n st shuffled).
Proof.
  unfold edgePass. generalize (shortWords st.2 shuffled). intros l. revert st.
  induction l as [|w l IH]; intros st Hinv; simpl; [done|].
  apply IH, placeBest_inv; [done|].
  intros p Hp%list_elem_of_In%filter_In. destruct Hp as [Hp _].
  apply list_elem_of_In in Hp. by eapply findPlacements_valid.
Qed.

Lemma runAttempt_inv n shuffled :
  attemptInv n (Attempt.grid (runAttempt n shuffled))
    (Attempt.placed (runAttempt n shuffled)).
Proof.
  unfold runAttempt. simpl.
  apply edgePass_inv, mainPass_inv, placeFirst_inv.
Qed.

(** ** The attempt loop returns one of the attempts *)

Lemma attemptLoop_origin shuffle size cands remaining :
  ∀ attempt best a,
  attemptLoop shuffle size cands remaining attempt best = Some a →
  best = Some a ∨ ∃ k, a = runAttempt size (shuffle k cands).
Proof.
  induction remaining as [|remaining IH]; intros attempt best a Hloop;
    simpl in Hloop; [by left|].
  assert (Hkeep : ∀ b, keepBest best (runAttempt size (shuffle attempt cands))
                       = Some b →
            best = Some b ∨ ∃ k, b = runAttempt size (shuffle k cands)).
  { intros b. unfold keepBest. destruct (replacesBest _ _).
    - intros [= <-]. right. by exists attempt.
    - by left. }
  destruct (goodEnough size _); [by apply Hkeep|].
  apply IH in Hloop as [Hb|Hk]; [by apply Hkeep|by right].
Qed.

Lemma bestAttempt_origin upperCP shuffle words size a :
  bestAttempt upperCP shuffle words size = Some a →
  ∃ k, a = runAttempt size (shuffle k (uniqueWords upperCP words size)).
Proof.
  unfold bestAttempt. intros [?|?]%attemptLoop_origin; done.
Qed.

Lemma bestAttempt_inv upperCP shuffle words size a :
  bestAttempt upperCP shuffle words size = Some a →
  attemptInv size (Attempt.grid a) (Attempt.placed a).
Proof.
  intros [k ->]%bestAttempt_origin. apply runAttempt_inv.
Qed.

Lemma generateCrossword_Returned upperCP shuffle words size res :
  generateCrossword upperCP shuffle words size = Returned res →
  ∃ best, bestAttempt upperCP shuffle words size = Some best
          ∧ Attempt.placed best ≠ []
          ∧ res = buildResult size best.
Proof.
  unfold generateCrossword.
  destruct (bestAttempt upperCP shuffle words size) as [best|]; [|done].
  destruct (Nat.eqb_spec (length (Attempt.placed best)) 0) as [|Hne]; [done|].
  intros [= <-]. exists best. repeat split.
  intros Hnil. by rewrite Hnil in Hne.
Qed.

(** ** The returned puzzle *)

Lemma resultCell_build size best r c :
  resultCell (buildResult size best) r c
  = (λ cell : option N,
       GridCell.mk cell
         (if numberAt (assignNumbers (Attempt.grid best) size).1 r c is 0
          then None
          else Some (numberAt (assignNumbers (Attempt.grid best) size).1 r c))
         (if cell is None then true else false))
    <$> cellAt (Attempt.grid best) r c.
Proof.
  unfold resultCell, buildResult, finalGridOf, cellAt. simpl.
  rewrite list_lookup_imap.
  destruct (Attempt.grid best !! r) as [rowv|]; simpl; [|done].
  by rewrite list_lookup_imap.
Qed.

Lemma letterCell_build size best r c g :
  letterCell (buildResult size best) r c g ↔ letter (Attempt.grid best) r c g.
Proof.
  unfold letterCell, letter. rewrite resultCell_build.
  destruct (cellAt (Attempt.grid best) r c) as [cell|]; simpl.
  - split.
    + intros (x & [= <-] & Hx). simpl in Hx. by subst.
    + intros [= ->]. by eexists.
  - split; [by intros (x & ? & _)|done].
Qed.

Lemma isLetterCell_build size best r c :
  isLetterCell (buildResult size best) r c ↔ isLetter (Attempt.grid best) r c.
Proof.
  unfold isLetterCell, isLetter. by setoid_rewrite letterCell_build.
Qed.

Lemma words_build size best w :
  w ∈ CrosswordResult.words (buildResult size best) ↔
  ∃ p, p ∈ Attempt.placed best
       ∧ w = finalWordOf (assignNumbers (Attempt.grid best) size).1 p.
Proof.
  unfold buildResult. simpl. rewrite list_elem_of_fmap.
  split; intros (p & H1 & H2); by exists p.
Qed.

(** C1. Adjacency: in the puzzle that [generateCrossword] returns, two
    letter cells side by side in a row are the cells of two consecutive
    graphemes of an across word of the returned list, and two letter cells
    one above the other are the cells of two consecutive graphemes of a
    down word, whatever the candidates, the size and the shuffles. *)
Theorem adjacency_invariant (upperCP : N → list N)
    (shuffle : nat → list WordClue.t → list WordClue.t)
    (words : list WordClue.t) (size : nat) (res : CrosswordResult.t) :
  generateCrossword upperCP shuffle words size = Returned res →
  ∀ r c, isLetterCell res r c →
    (isLetterCell res r (c + 1) →
     ∃ w i g g', w ∈ CrosswordResult.words res
       ∧ PlacedWord.orientation w = across
       ∧ wordCell w i = (r, c) ∧ wordCell w (S i) = (r, c + 1)
       ∧ PlacedWord.answer w !! i = Some g
       ∧ PlacedWord.answer w !! S i = Some g'
       ∧ letterCell res r c g ∧ letterCell res r (c + 1) g')
    ∧ (isLetterCell res (r + 1) c →
     ∃ w i g g', w ∈ CrosswordResult.words res
       ∧ PlacedWord.orientation w = down
       ∧ wordCell w i = (r, c) ∧ wordCell w (S i) = (r + 1, c)
       ∧ PlacedWord.answer w !! i = Some g
       ∧ PlacedWord.answer w !! S i = Some g'
       ∧ letterCell res r c g ∧ letterCell res (r + 1) c g').
Proof.
  intros (best & Hbest & _ & ->)%generateCrossword_Returned r c H1.
  apply bestAttempt_inv in Hbest as Hinv.
  apply isLetterCell_build in H1.
  split; intros H2%isLetterCell_build.
  - destruct (inv_across _ _ _ Hinv r c H1 H2)
      as (p & i & Hp & Hh & Hi & -> & ->).
    destruct (lookup_lt_is_Some_2 (wordOf p) i) as [g Hg]; [lia|].
    destruct (lookup_lt_is_Some_2 (wordOf p) (S i)) as [g' Hg']; [done|].
    pose proof (inv_cells _ _ _ Hinv p i g Hp Hg) as L1.
    pose proof (inv_cells _ _ _ Hinv p (S i) g' Hp Hg') as L2.
    unfold cellRow, cellCol, runRow, runCol in L1, L2. rewrite Hh in L1, L2.
    exists (finalWordOf (assignNumbers (Attempt.grid best) size).1 p), i, g, g'.
    split; [apply words_build; by exists p|].
    unfold wordCell. simpl. rewrite Hh. simpl.
    repeat split; try done.
    + f_equal. lia.
    + by apply letterCell_build.
    + apply letterCell_build.
      by replace (Placed.col p + i + 1) with (Placed.col p + S i) by lia.
  - destruct (inv_down _ _ _ Hinv r c H1 H2)
      as (p & i & Hp & Hh & Hi & -> & ->).
    destruct (lookup_lt_is_Some_2 (wordOf p) i) as [g Hg]; [lia|].
    destruct (lookup_lt_is_Some_2 (wordOf p) (S i)) as [g' Hg']; [done|].
    pose proof (inv_cells _ _ _ Hinv p i g Hp Hg) as L1.
    pose proof (inv_cells _ _ _ Hinv p (S i) g' Hp Hg') as L2.
    unfold cellRow, cellCol, runRow, runCol in L1, L2. rewrite Hh in L1, L2.
    exists (finalWordOf (assignNumbers (Attempt.grid best) size).1 p), i, g, g'.
    split; [apply words_build; by exists p|].
    unfold wordCell. simpl. rewrite Hh. simpl.
    repeat split; try done.
    + f_equal. lia.
    + by apply letterCell_build.
    + apply letterCell_build.
      by replace (Placed.row p + i + 1) with (Placed.row p + S i) by lia.
Qed.

(** C10. No orphan letters: in the puzzle that [generateCrossword]
    returns, the letter cells of the grid are exactly the cells that the
    words of the returned list span. *)
Theorem letters_are_word_cells (upperCP : N → list N)
    (shuffle : nat → list WordClue.t → list WordClue.t)
    (words : list WordClue.t) (size : nat) (res : CrosswordResult.t) :
  generateCrossword upperCP shuffle words size = Returned res →
  ∀ r c, isLetterCell res r c ↔
    ∃ w i, w ∈ CrosswordResult.words res
           ∧ i < PlacedWord.length w ∧ wordCell w i = (r, c).
Proof.
  intros (best & Hbest & _ & ->)%generateCrossword_Returned r c.
  apply bestAttempt_inv in Hbest as Hinv.
  rewrite isLetterCell_build. split.
  - intros Hl.
    destruct (inv_cover _ _ _ Hinv r c Hl) as (p & i & Hp & Hi & -> & ->).
    exists (finalWordOf (assignNumbers (Attempt.grid best) size).1 p), i.
    split; [apply words_build; by exists p|]. split; [done|].
    unfold wordCell, cellRow, cellCol, runRow, runCol. simpl.
    by destruct (Placed.horizontal p).
  - intros (w & i & (p & Hp & ->)%words_build & Hi & Hcell).
    simpl in Hi.
    destruct (lookup_lt_is_Some_2 (wordOf p) i) as [g Hg]; [done|].
    exists g.
    pose proof (inv_cells _ _ _ Hinv p i g Hp Hg) as L.
    unfold wordCell, cellRow, cellCol, runRow, runCol in *. simpl in Hcell.
    destruct (Placed.horizontal p); simplify_eq; done.
Qed.

(** ** When synthesis fails *)

Lemma keepBest_is_Some best a : is_Some (keepBest best a).
Proof.
  unfold keepBest, replacesBest. destruct best as [b|]; [|by eexists].
  destruct (_ || _); by eexists.
Qed.

Lemma attemptLoop_is_Some shuffle size cands remaining :
  ∀ attempt best, 0 < remaining ∨ is_Some best →
  is_Some (attemptLoop shuffle size cands remaining attempt best).
Proof.
  induction remaining as [|remaining IH]; intros attempt best Hstart; simpl.
  - destruct Hstart; [lia|done].
  - destruct (goodEnough size _); [apply keepBest_is_Some|].
    apply IH. right. apply keepBest_is_Some.
Qed.

Lemma bestAttempt_is_Some upperCP shuffle words size :
  is_Some (bestAttempt upperCP shuffle words size).
Proof. apply attemptLoop_is_Some. left. unfold maxAttempts. lia. Qed.

(** The [placed] array only grows. *)
Lemma placeBest_prefix st w placements :
  st.2 `prefix_of` (placeBest st w placements).2.
Proof.
  unfold placeBest. destruct placements; simpl; [done|].
  by apply prefix_app_r.
Qed.

Lemma mainPass_prefix st shuffled : st.2 `prefix_of` (mainPass st shuffled).2.
Proof.
  unfold mainPass. generalize (drop 1 shuffled). intros l. revert st.
  induction l as [|w l IH]; intros st; simpl; [done|].
  etrans; [|apply IH]. apply placeBest_prefix.
Qed.

Lemma edgePass_prefix size st shuffled :
  st.2 `prefix_of` (edgePass size st shuffled).2.
Proof.
  unfold edgePass. generalize (shortWords st.2 shuffled). intros l. revert st.
  induction l as [|w l IH]; intros st; simpl; [done|].
  etrans; [|apply IH]. apply placeBest_prefix.
Qed.

Lemma runAttempt_prefix size shuffled :
  (placeFirst size shuffled).2 `prefix_of` Attempt.placed (runAttempt size shuffled).
Proof.
  unfold runAttempt. simpl.
  etrans; [apply mainPass_prefix|apply edgePass_prefix].
Qed.

(** On the empty grid the centred first word is always accepted. *)
Lemma first_word_placeable size wd :
  0 < length wd ≤ size →
  placeable (emptyGrid size) wd (size / 2) ((size - length wd) / 2) true false.
Proof.
  intros Hlen.
  assert (Hrow : size / 2 < size) by (apply Nat.div_lt; lia).
  assert (Hcol : (size - length wd) / 2 + length wd ≤ size).
  { assert ((size - length wd) / 2 ≤ size - length wd)
      by (apply Nat.Div0.div_le_upper_bound; lia).
    lia. }
  pose proof (length_replicate size (replicate size (@None N))) as Hsize.
  fold (emptyGrid size) in Hsize.
  repeat split; unfold runInBounds, capsBlocked; rewrite ?Hsize.
  - done.
  - intros. apply emptyGrid_blocked; lia.
  - intros. apply emptyGrid_blocked; lia.
  - intros i ch Hi%lookup_lt_Some. right.
    unfold runRow, runCol, sidesBlocked. rewrite Hsize.
    split; [apply emptyGrid_blocked; lia|].
    split; intros; apply emptyGrid_blocked; lia.
  - done.
Qed.

Lemma placeFirst_places size fw rest :
  0 < length (WordClue.answer fw) ≤ size →
  (placeFirst size (fw :: rest)).2
  = [Placed.mk fw (size / 2) ((size - length (WordClue.answer fw)) / 2) true].
Proof.
  intros Hlen. unfold placeFirst.
  apply first_word_placeable, canPlaceWord_spec in Hlen. by rewrite Hlen.
Qed.

Lemma runAttempt_empty size :
  Attempt.placed (runAttempt size []) = [].
Proof. reflexivity. Qed.

Lemma runAttempt_nonempty size fw rest :
  0 < length (WordClue.answer fw) ≤ size →
  Attempt.placed (runAttempt size (fw :: rest)) ≠ [].
Proof.
  intros Hlen Hnil.
  pose proof (runAttempt_prefix size (fw :: rest)) as Hpre.
  rewrite placeFirst_places, Hnil in Hpre by done.
  by apply prefix_nil_inv in Hpre.
Qed.

(** *** The candidates that survive the filters *)

Lemma removeDuplicates_subset ws : ∀ seen w,
  w ∈ removeDuplicates seen ws → w ∈ ws.
Proof.
  induction ws as [|x ws IH]; intros seen w; simpl; [done|].
  destruct (bool_decide (WordClue.answer x ∈ seen)).
  - intros Hw%IH. by right.
  - intros [->|Hw%IH]%elem_of_cons; [by left|by right].
Qed.

Lemma removeDuplicates_nonempty ws : ws ≠ [] → removeDuplicates ∅ ws ≠ [].
Proof.
  destruct ws as [|x ws]; [done|]. intros _. simpl.
  rewrite bool_decide_eq_false_2; [done|]. apply not_elem_of_empty.
Qed.

Lemma uniqueWords_subset upperCP words size w :
  w ∈ uniqueWords upperCP words size → w ∈ normalizedWords upperCP words size.
Proof.
  unfold uniqueWords. rewrite sortBy_elem_of. apply removeDuplicates_subset.
Qed.

Lemma uniqueWords_nonempty upperCP words size :
  normalizedWords upperCP words size ≠ [] → uniqueWords upperCP words size ≠ [].
Proof.
  intros Hne%removeDuplicates_nonempty. unfold uniqueWords.
  intros Hnil. apply Hne.
  apply Permutation_nil_r. rewrite <- Hnil. by rewrite sortBy_Permutation.
Qed.

Lemma normalizedWords_elem upperCP words size w :
  w ∈ normalizedWords upperCP words size ↔
  ∃ w0, w0 ∈ words
    ∧ w = WordClue.mk (normalizeJapanese upperCP (WordClue.answer w0))
            (WordClue.clue w0) (WordClue.articleLink w0)
            (WordClue.articleId w0)
    ∧ 2 ≤ length (WordClue.answer w) ≤ size.
Proof.
  unfold normalizedWords.
  rewrite list_elem_of_In, filter_In, in_map_iff.
  rewrite andb_true_iff, Nat.leb_le, Nat.leb_le.
  setoid_rewrite <- list_elem_of_In. split.
  - intros [(w0 & <- & Hw0) Hlen]. by exists w0.
  - intros (w0 & Hw0 & -> & Hlen). split; [by exists w0|done].
Qed.

Section Failure.

Variable upperCP : N → list N.
Variable shuffle : nat → list WordClue.t → list WordClue.t.
Hypothesis shuffle_permutes : ∀ k l, shuffle k l ≡ₚ l.

Lemma fails_iff_nothing_placed words size best :
  bestAttempt upperCP shuffle words size = Some best →
  (generateCrossword upperCP shuffle words size
   = Thrown Failed_to_generate_crossword
   ↔ Attempt.placed best = []).
Proof.
  intros Hbest. unfold generateCrossword. rewrite Hbest.
  destruct (Attempt.placed best); simpl; split; done.
Qed.

Lemma no_candidates_fails words size :
  normalizedWords upperCP words size = [] →
  generateCrossword upperCP shuffle words size
  = Thrown Failed_to_generate_crossword.
Proof.
  intros Hnone.
  destruct (bestAttempt_is_Some upperCP shuffle words size) as [best Hbest].
  apply fails_iff_nothing_placed with best; [done|].
  apply bestAttempt_origin in Hbest as [k ->].
  assert (uniqueWords upperCP words size = []) as ->.
  { unfold uniqueWords. by rewrite Hnone. }
  pose proof (shuffle_permutes k []) as Hk.
  apply Permutation_nil_r in Hk. by rewrite Hk.
Qed.

Lemma some_candidate_succeeds words size :
  normalizedWords upperCP words size ≠ [] →
  ∃ res, generateCrossword upperCP shuffle words size = Returned res.
Proof.
  intros Hsome%uniqueWords_nonempty.
  destruct (bestAttempt_is_Some upperCP shuffle words size) as [best Hbest].
  unfold generateCrossword. rewrite Hbest.
  apply bestAttempt_origin in Hbest as [k ->].
  destruct (shuffle k (uniqueWords upperCP words size))
    as [|fw rest] eqn:Hshuffled.
  { pose proof (shuffle_permutes k (uniqueWords upperCP words size)) as Hk.
    rewrite Hshuffled in Hk. symmetry in Hk.
    by apply Permutation_nil_r in Hk. }
  assert (Hfw : fw ∈ uniqueWords upperCP words size).
  { rewrite <- (shuffle_permutes k), Hshuffled. by left. }
  apply uniqueWords_subset, normalizedWords_elem in Hfw
    as (w0 & _ & _ & Hlen).
  pose proof (runAttempt_nonempty size fw rest) as Hne.
  destruct (Attempt.placed (runAttempt size (fw :: rest))) eqn:Hplaced.
  - exfalso. apply Hne; [lia|done].
  - simpl. by eexists.
Qed.

End Failure.

(** C8. [generateCrossword] fails exactly when the best attempt it
    retains has placed no word.  When every answer normalises to fewer
    than 2 or more than [size] graphemes the filter leaves no candidate and
    it fails; when some candidate survives the filter it returns a puzzle.
    The shuffles may be any permutations. *)
Theorem fails_iff_no_word_placed (upperCP : N → list N)
    (shuffle : nat → list WordClue.t → list WordClue.t)
    (words : list WordClue.t) (size : nat) :
  (∀ k l, shuffle k l ≡ₚ l) →
  (∃ best, bestAttempt upperCP shuffle words size = Some best
     ∧ (generateCrossword upperCP shuffle words size
        = Thrown Failed_to_generate_crossword
        ↔ length (Attempt.placed best) = 0))
  ∧ ((∀ w, w ∈ words →
        length (normalizeJapanese upperCP (WordClue.answer w)) < 2
        ∨ size < length (normalizeJapanese upperCP (WordClue.answer w))) →
     normalizedWords upperCP words size = []
     ∧ generateCrossword upperCP shuffle words size
       = Thrown Failed_to_generate_crossword)
  ∧ ((∃ w, w ∈ words
        ∧ 2 ≤ length (normalizeJapanese upperCP (WordClue.answer w)) ≤ size) →
     ∃ res, generateCrossword upperCP shuffle words size = Returned res).
Proof.
  intros Hperm. split; [|split].
  - destruct (bestAttempt_is_Some upperCP shuffle words size) as [best Hbest].
    exists best. split; [done|].
    rewrite (fails_iff_nothing_placed upperCP shuffle words size best Hbest).
    by rewrite length_zero_iff_nil.
  - intros Hall.
    assert (Hnone : normalizedWords upperCP words size = []).
    { destruct (normalizedWords upperCP words size) as [|w l] eqn:E; [done|].
      assert (Hw : w ∈ normalizedWords upperCP words size)
        by (rewrite E; by left).
      apply normalizedWords_elem in Hw as (w0 & Hw0 & -> & Hlen).
      cbn [WordClue.answer] in Hlen. destruct (Hall w0 Hw0); lia. }
    split; [done|]. by apply no_candidates_fails.
  - intros (w0 & Hw0 & Hlen).
    apply some_candidate_succeeds; [done|].
    intros Hnil.
    assert (Hin : WordClue.mk (normalizeJapanese upperCP (WordClue.answer w0))
              (WordClue.clue w0) (WordClue.articleLink w0)
              (WordClue.articleId w0) ∈ normalizedWords upperCP words size).
    { apply normalizedWords_elem. by exists w0. }
    rewrite Hnil in Hin. by apply elem_of_nil in Hin.
Qed.

(** ** The placed words are candidates *)

Lemma placeBest_words (P : WordClue.t → Prop) st w placements :
  P w → (∀ p, p ∈ st.2 → P (Placed.word p)) →
  ∀ p, p ∈ (placeBest st w placements).2 → P (Placed.word p).
Proof.
  intros Hw Hst p. unfold placeBest. destruct placements; simpl; [apply Hst|].
  intros [Hp|Hp%list_elem_of_singleton]%elem_of_app; [by apply Hst|].
  by subst p.
Qed.

Lemma foldl_placeBest_words (P : WordClue.t → Prop)
    (f : BuildState → WordClue.t → list Placement.t) l :
  ∀ st, (∀ w, w ∈ l → P w) → (∀ p, p ∈ st.2 → P (Placed.word p)) →
  ∀ p, p ∈ (foldl (λ st w, placeBest st w (f st w)) st l).2 →
       P (Placed.word p).
Proof.
  induction l as [|w l IH]; intros st Hl Hst; simpl; [done|].
  apply IH.
  - intros w' Hw'. apply Hl. by right.
  - apply placeBest_words; [|done]. apply Hl. by left.
Qed.

Lemma runAttempt_words size shuffled p :
  p ∈ Attempt.placed (runAttempt size shuffled) → Placed.word p ∈ shuffled.
Proof.
  unfold runAttempt. simpl. unfold edgePass, mainPass.
  apply (foldl_placeBest_words (λ w, w ∈ shuffled)
    (λ st word, List.filter (onEdge size word)
       (findPlacements st.1 (WordClue.answer word) false))).
  { intros w Hw. unfold shortWords in Hw.
    apply list_elem_of_In, filter_In in Hw as [Hw _].
    apply filter_In in Hw as [Hw _]. by apply list_elem_of_In. }
  apply (foldl_placeBest_words (λ w, w ∈ shuffled)
    (λ st word, findPlacements st.1 (WordClue.answer word) true)).
  { intros w Hw. eapply subseteq_drop. done. }
  unfold placeFirst. destruct shuffled as [|fw rest]; simpl.
  { intros q Hq. by apply elem_of_nil in Hq. }
  destruct (canPlaceWord _ _ _ _ _ _); simpl.
  - intros q ->%list_elem_of_singleton. simpl. by left.
  - intros q Hq. by apply elem_of_nil in Hq.
Qed.

(** ** Objects *)

Lemma strEq_true a b : strEq a b = true ↔ a = b.
Proof. unfold strEq. apply bool_decide_eq_true. Qed.

Lemma strEq_refl a : strEq a a = true.
Proof. by apply strEq_true. Qed.

Lemma getProperty_own o k v : objGet o k = Some v → getProperty o k = Own v.
Proof. unfold getProperty. by intros ->. Qed.

(** A clue key has a hyphen, which no inherited name has. *)
Lemma clueKey_not_inherited number direction :
  clueKey number direction ∉ objectPrototypeKeys.
Proof.
  intros Hin.
  assert (Hall : Forall (λ k : list N, 0x2D%N ∉ k) objectPrototypeKeys).
  { apply (bool_decide_unpack _). vm_compute. reflexivity. }
  rewrite Forall_forall in Hall. apply (Hall _ Hin).
  unfold clueKey. apply elem_of_app. right. by left.
Qed.

Lemma getProperty_clueKey o number direction :
  objGet o (clueKey number direction) = None →
  getProperty o (clueKey number direction) = Missing.
Proof.
  unfold getProperty. intros ->.
  rewrite bool_decide_eq_false_2; [done|]. apply clueKey_not_inherited.
Qed.

Lemma objGet_objSet o k v k' :
  objGet (objSet o k v) k' = if strEq k k' then Some v else objGet o k'.
Proof.
  induction o as [|[k0 v0] o IH]; simpl.
  - done.
  - destruct (strEq k0 k) eqn:E0; simpl.
    + apply strEq_true in E0 as ->. by destruct (strEq k k').
    + rewrite IH. destruct (strEq k0 k') eqn:E1; [|done].
      apply strEq_true in E1 as ->.
      destruct (strEq k k') eqn:E2; [|done].
      apply strEq_true in E2 as ->. by rewrite strEq_refl in E0.
Qed.

Lemma objGet_None o k : objGet o k = None ↔ k ∉ keysOf o.
Proof.
  induction o as [|[k0 v0] o IH]; simpl.
  - split; [intros _; apply not_elem_of_nil|done].
  - rewrite not_elem_of_cons. destruct (strEq k0 k) eqn:E.
    + apply strEq_true in E as ->. split; [done|]. by intros [? _].
    + rewrite IH. split; [|by intros [_ ?]]. intros Hk. split; [|done].
      intros ->. by rewrite strEq_refl in E.
Qed.

Lemma keysOf_objSet o k v :
  keysOf (objSet o k v) = if bool_decide (k ∈ keysOf o) then keysOf o
                          else keysOf o ++ [k].
Proof.
  induction o as [|[k0 v0] o IH]; simpl; [done|].
  destruct (strEq k0 k) eqn:E; simpl.
  - apply strEq_true in E as ->.
    rewrite bool_decide_eq_true_2; [done|by left].
  - rewrite IH. unfold keysOf. simpl.
    destruct (bool_decide (k ∈ map fst o)) eqn:Hk.
    + apply bool_decide_eq_true in Hk.
      rewrite bool_decide_eq_true_2; [done|by right].
    + apply bool_decide_eq_false in Hk.
      rewrite bool_decide_eq_false_2; [done|].
      rewrite not_elem_of_cons. split; [|done].
      intros ->. by rewrite strEq_refl in E.
Qed.

Lemma objSet_NoDup o k v : NoDup (keysOf o) → NoDup (keysOf (objSet o k v)).
Proof.
  intros Hnd. rewrite keysOf_objSet.
  destruct (bool_decide (k ∈ keysOf o)) eqn:Hk; [done|].
  apply bool_decide_eq_false in Hk.
  apply NoDup_app. split; [done|]. split.
  - intros x Hx ->%list_elem_of_singleton. done.
  - apply NoDup_singleton.
Qed.

Lemma objGet_entry o k v : NoDup (keysOf o) → (k, v) ∈ o → objGet o k = Some v.
Proof.
  induction o as [|[k0 v0] o IH]; simpl; intros Hnd Hin.
  - by apply elem_of_nil in Hin.
  - apply NoDup_cons in Hnd as [Hk0 Hnd].
    apply elem_of_cons in Hin as [[= <- <-]|Hin].
    + by rewrite strEq_refl.
    + destruct (strEq k0 k) eqn:E; [|by apply IH].
      apply strEq_true in E as ->. exfalso. apply Hk0.
      unfold keysOf. apply list_elem_of_fmap. by exists (k, v).
Qed.

Lemma answersOf_NoDup words : NoDup (keysOf (answersOf words)).
Proof.
  unfold answersOf.
  assert (Hgen : ∀ acc, NoDup (keysOf acc) →
    NoDup (keysOf (foldl (λ acc w,
      objSet acc
        (clueKey (PlacedWord.position w)
           (orientationName (PlacedWord.orientation w)))
        (PlacedWord.answer w)) acc words))).
  { induction words as [|w ws IH]; intros acc Hacc; simpl; [done|].
    by apply IH, objSet_NoDup. }
  apply Hgen. apply NoDup_nil_2.
Qed.

Lemma answersOf_value words k v :
  objGet (answersOf words) k = Some v →
  ∃ w, w ∈ words ∧ v = PlacedWord.answer w.
Proof.
  unfold answersOf.
  assert (Hgen : ∀ acc,
    objGet (foldl (λ acc w,
      objSet acc
        (clueKey (PlacedWord.position w)
           (orientationName (PlacedWord.orientation w)))
        (PlacedWord.answer w)) acc words) k = Some v →
    objGet acc k = Some v ∨ ∃ w, w ∈ words ∧ v = PlacedWord.answer w).
  { induction words as [|w ws IH]; intros acc Hget; simpl in *; [by left|].
    apply IH in Hget as [Hget|(w' & Hw' & ->)].
    - rewrite objGet_objSet in Hget.
      destruct (strEq _ k); [|by left].
      injection Hget as <-. right. exists w. split; [by left|done].
    - right. exists w'. split; [by right|done]. }
  intros [?|?]%Hgen; done.
Qed.

Section StoredAnswers.

Variable upperCP : N → list N.
Variable shuffle : nat → list WordClue.t → list WordClue.t.
Hypothesis shuffle_permutes : ∀ k l, shuffle k l ≡ₚ l.

(** The answer of a word of the returned puzzle is the normalised answer
    of a candidate, of at least two graphemes. *)
Lemma returned_answer_origin words size res w :
  generateCrossword upperCP shuffle words size = Returned res →
  w ∈ CrosswordResult.words res →
  ∃ w0, w0 ∈ words
    ∧ PlacedWord.answer w = normalizeJapanese upperCP (WordClue.answer w0)
    ∧ 2 ≤ length (PlacedWord.answer w) ≤ size.
Proof.
  intros (best & Hbest & _ & ->)%generateCrossword_Returned
         (p & Hp & ->)%words_build.
  apply bestAttempt_origin in Hbest as [k ->].
  apply runAttempt_words in Hp. rewrite shuffle_permutes in Hp.
  apply uniqueWords_subset, normalizedWords_elem in Hp
    as (w0 & Hw0 & Hw & Hlen).
  exists w0. cbn [finalWordOf PlacedWord.answer].
  split; [done|]. split; [by rewrite Hw|done].
Qed.

(** The stored answer table of a generated puzzle is valid. *)
Lemma generated_answers_valid words size res :
  generateCrossword upperCP shuffle words size = Returned res →
  validAnswers (answersOf (CrosswordResult.words res)).
Proof.
  intros Hgen key answer (w & Hw & ->)%answersOf_value.
  destruct (returned_answer_origin words size res w Hgen Hw)
    as (w0 & _ & _ & Hlen). lia.
Qed.

Hypothesis upper_stable : ∀ c d, d ∈ upperCP c → upperCP d = [d].
Hypothesis upper_kana : ∀ c d, d ∈ upperCP c → kanaBlock d → c = d.

Lemma returned_answer words size res w :
  generateCrossword upperCP shuffle words size = Returned res →
  w ∈ CrosswordResult.words res →
  Forall (settled upperCP) (PlacedWord.answer w)
  ∧ 2 ≤ length (PlacedWord.answer w) ≤ size.
Proof.
  intros Hgen Hw.
  destruct (returned_answer_origin words size res w Hgen Hw)
    as (w0 & _ & -> & Hlen).
  split; [|done]. by apply normalize_output_settled.
Qed.

End StoredAnswers.

(** ** Answer check *)

Section CheckFacts.

Variable upperCP : N → list N.

Lemma checkEntry_match table acc k v :
  objGet table k = Some v → v ≠ [] → normalizeJapanese upperCP v = v →
  checkEntry upperCP table acc (k, v) = (acc.1 ++ [k], acc.2).
Proof.
  intros Hget Hne Hnorm. unfold checkEntry.
  rewrite (getProperty_own _ _ _ Hget).
  destruct v as [|g v]; [done|]. by rewrite Hnorm, strEq_refl.
Qed.

Lemma check_all_match table l : ∀ acc,
  (∀ k v, (k, v) ∈ l →
     objGet table k = Some v ∧ v ≠ [] ∧ normalizeJapanese upperCP v = v) →
  foldl (checkEntry upperCP table) acc l = (acc.1 ++ keysOf l, acc.2).
Proof.
  induction l as [|[k v] l IH]; intros acc Hall; cbn [foldl].
  - unfold keysOf. simpl. rewrite app_nil_r. by destruct acc.
  - destruct (Hall k v) as (Hget & Hne & Hnorm); [by left|].
    rewrite checkEntry_match by done.
    rewrite IH by (intros k' v' Hin; apply Hall; by right).
    unfold keysOf. simpl. by rewrite <- app_assoc.
Qed.

Lemma checkEntry_incorrect_mono table acc entry k :
  k ∈ acc.2 → k ∈ (checkEntry upperCP table acc entry).2.
Proof.
  intros Hk. unfold checkEntry. destruct entry as [key user].
  destruct (getProperty table key) as [[|g v]| |]; try done.
  - destruct (strEq _ _); simpl; [done|]. apply elem_of_app. by left.
  - simpl. apply elem_of_app. by left.
Qed.

Lemma check_incorrect_mono table l : ∀ acc k,
  k ∈ acc.2 → k ∈ (foldl (checkEntry upperCP table) acc l).2.
Proof.
  induction l as [|e l IH]; intros acc k Hk; cbn [foldl]; [done|].
  by apply IH, checkEntry_incorrect_mono.
Qed.

Lemma check_mismatch table l : ∀ acc k user stored,
  objGet table k = Some stored → stored ≠ [] →
  normalizeJapanese upperCP user ≠ stored →
  (k, user) ∈ l →
  k ∈ (foldl (checkEntry upperCP table) acc l).2.
Proof.
  induction l as [|e l IH]; intros acc k user stored Hget Hne Hdiff Hin;
    cbn [foldl].
  - by apply elem_of_nil in Hin.
  - apply elem_of_cons in Hin as [<-|Hin]; [|by eapply IH].
    apply check_incorrect_mono. unfold checkEntry.
    rewrite (getProperty_own _ _ _ Hget).
    destruct stored as [|g v]; [done|].
    destruct (strEq _ _) eqn:E; [by apply strEq_true in E|].
    simpl. apply elem_of_app. right. by left.
Qed.

End CheckFacts.

(** C6. Round trip of the answer check: for a puzzle that
    [generateCrossword] returned and [createPuzzle] stored, answering every
    key of the answer table with its stored answer gives all the keys as
    correct and none as incorrect; answering a key with the stored answer
    in which one grapheme is replaced by a different normalised grapheme
    puts that key among the incorrect ones. *)
Theorem check_round_trip (upperCP : N → list N)
    (shuffle : nat → list WordClue.t → list WordClue.t)
    (words : list WordClue.t) (size gridSize : nat)
    (res : CrosswordResult.t) (db : gmap (list N) Puzzle.t) (id : jsstring) :
  (∀ c d, d ∈ upperCP c → upperCP d = [d]) →
  (∀ c d, d ∈ upperCP c → kanaBlock d → c = d) →
  (∀ k l, shuffle k l ≡ₚ l) →
  generateCrossword upperCP shuffle words size = Returned res →
  db !! id = Some (puzzleOf id gridSize res) →
  checkAnswers upperCP db id (answersOf (CrosswordResult.words res))
  = Returned (keysOf (answersOf (CrosswordResult.words res)), [])
  ∧ ∀ (answers : list (list N * list N)) key stored i g',
      objGet (answersOf (CrosswordResult.words res)) key = Some stored →
      i < length stored → stored !! i ≠ Some g' →
      normalizedGrapheme upperCP g' →
      (key, <[i := g']> stored) ∈ answers →
      ∃ correct incorrect,
        checkAnswers upperCP db id answers = Returned (correct, incorrect)
        ∧ key ∈ incorrect.
Proof.
  intros Hstable Hkana Hperm Hgen Hdb.
  assert (Hstored : ∀ k v,
    objGet (answersOf (CrosswordResult.words res)) k = Some v →
    Forall (settled upperCP) v ∧ v ≠ []).
  { intros k v (w & Hw & ->)%answersOf_value.
    destruct (returned_answer upperCP shuffle Hperm Hstable Hkana
                words size res w Hgen Hw) as [Hset Hlen].
    split; [done|]. intros Hnil. rewrite Hnil in Hlen. simpl in Hlen. lia. }
  unfold checkAnswers, getPuzzle. rewrite Hdb. simpl. split.
  - f_equal. rewrite check_all_match; [done|].
    intros k v Hin.
    apply objGet_entry in Hin; [|apply answersOf_NoDup].
    destruct (Hstored k v Hin) as [Hset Hne].
    repeat split; try done. by apply normalize_settled_fixed.
  - intros answers key stored i g' Hget Hi Hdiff Hg' Hin.
    destruct (foldl (checkEntry upperCP
                (answersOf (CrosswordResult.words res))) ([], []) answers)
      as [correct incorrect] eqn:Hres.
    exists correct, incorrect. split; [done|].
    change incorrect with (correct, incorrect).2. rewrite <- Hres.
    destruct (Hstored key stored Hget) as [Hset Hne].
    eapply check_mismatch; [done|done| |done].
    rewrite normalize_settled_fixed.
    + intros Heq. apply Hdiff. rewrite <- Heq.
      by apply list_lookup_insert_eq.
    + apply Forall_insert; [done|].
      by apply normalizedGrapheme_settled.
Qed.

(** ** Hint *)

(** C7. Hint: for a stored puzzle record, whose answers have at least
    two graphemes each, when the key of the clue is in the answer table
    [getHint] returns the first grapheme of the answer followed by a
    full-width underscore for each other grapheme, with [revealed = 1] and
    [total] the number of graphemes; when the key is not in the table it
    fails with "Clue not found". *)
Theorem hint_contract (db : gmap (list N) Puzzle.t) (id : jsstring)
    (puzzle : Puzzle.t) (table : list (list N * list N))
    (number : nat) (direction : jsstring) :
  getPuzzle db id = Some puzzle →
  Puzzle._answers puzzle = Some table →
  validAnswers table →
  (∀ answer, objGet table (clueKey number direction) = Some answer →
     getHint db id number direction
     = Returned (HintResult.mk
         (take 1 answer ++ replicate (length answer - 1) lowLine)
         1 (length answer)))
  ∧ (objGet table (clueKey number direction) = None →
     getHint db id number direction = Thrown Clue_not_found).
Proof.
  intros Hget Htable Hvalid. unfold getHint. rewrite Hget, Htable. split.
  - intros answer Hanswer. pose proof (Hvalid _ _ Hanswer) as Hlen.
    rewrite (getProperty_own _ _ _ Hanswer).
    destruct answer as [|first rest]; [simpl in Hlen; lia|].
    done.
  - intros Hnone. by rewrite getProperty_clueKey.
Qed.

(** ** Attempt selection *)

(** C3, as the specification states it, fails: the attempt on
    [sparseOrder] fills 8 cells with 3 words, the attempt on [denseOrder]
    fills 9 cells with 2 words, and the former replaces the latter as the
    best result although its density is lower; a run whose first shuffle
    is [denseOrder] and whose others are [sparseOrder] ends with the
    sparser attempt as its best. *)
Lemma lower_density_replaces_best :
  (Attempt.density (runAttempt 5 sparseOrder)
   <? Attempt.density (runAttempt 5 denseOrder))%float = true
  ∧ keepBest (Some (runAttempt 5 denseOrder)) (runAttempt 5 sparseOrder)
    = Some (runAttempt 5 sparseOrder)
  ∧ runAttempt 5 sparseOrder ≠ runAttempt 5 denseOrder
  ∧ uniqueWords latinUpper denseOrder 5 = denseOrder
  ∧ bestAttempt latinUpper denseThenSparse denseOrder 5
    = Some (runAttempt 5 sparseOrder).
Proof.
  split; [vm_compute; reflexivity|]. split; [vm_compute; reflexivity|].
  split; [|split; vm_compute; reflexivity].
  intros Heq. apply (f_equal (λ a, length (Attempt.placed a))) in Heq.
  vm_compute in Heq. discriminate.
Qed.

(** C3, amended.  In the attempt loop the new attempt replaces the
    retained best result exactly when its density is strictly higher than
    that of the best, or its number of placed words is strictly higher,
    whatever the densities; otherwise the best is kept as it is; the first
    attempt is always retained. *)
Theorem attempt_selection
    (shuffle : nat → list WordClue.t → list WordClue.t)
    (size : nat) (cands : list WordClue.t) (remaining attempt : nat)
    (best : Attempt.t) :
  let a := runAttempt size (shuffle attempt cands) in
  let kept := keepBest (Some best) a in
  attemptLoop shuffle size cands (S remaining) attempt (Some best)
  = (if goodEnough size a then kept
     else attemptLoop shuffle size cands remaining (S attempt) kept)
  ∧ (replacesBest (Some best) a = true ↔
     (Attempt.density best <? Attempt.density a)%float = true
     ∨ length (Attempt.placed best) < length (Attempt.placed a))
  ∧ (replacesBest (Some best) a = true → kept = Some a)
  ∧ (replacesBest (Some best) a = false → kept = Some best)
  ∧ keepBest None a = Some a.
Proof.
  intros a kept. split; [done|]. split; [|split; [|split]].
  - unfold replacesBest. rewrite orb_true_iff, Nat.ltb_lt. done.
  - unfold kept, keepBest. by intros ->.
  - unfold kept, keepBest. by intros ->.
  - done.
Qed.

(** ** The numbering pass *)

Lemma numberAt_setNumber_eq numberGrid r c k :
  hasNumberCell numberGrid r c → numberAt (setNumber numberGrid r c k) r c = k.
Proof.
  unfold hasNumberCell, numberAt, setNumber. intros [v Hv].
  rewrite list_lookup_alter_eq.
  destruct (numberGrid !! r) as [rowv|]; [|done]. simpl in *.
  rewrite list_lookup_insert_eq; [done|]. by eapply lookup_lt_Some.
Qed.

Lemma numberAt_setNumber_ne numberGrid r c k r' c' :
  (r', c') ≠ (r, c) →
  numberAt (setNumber numberGrid r c k) r' c' = numberAt numberGrid r' c'.
Proof.
  unfold numberAt, setNumber. intros Hne.
  destruct (decide (r' = r)) as [->|Hr].
  - rewrite list_lookup_alter_eq.
    destruct (numberGrid !! r) as [rowv|]; [|done]. simpl.
    rewrite list_lookup_insert_ne; [done|]. congruence.
  - by rewrite list_lookup_alter_ne.
Qed.

Lemma hasNumberCell_setNumber numberGrid r c k r' c' :
  hasNumberCell numberGrid r' c' →
  hasNumberCell (setNumber numberGrid r c k) r' c'.
Proof.
  unfold hasNumberCell, setNumber. intros [v Hv].
  destruct (decide (r' = r)) as [->|Hr].
  - rewrite list_lookup_alter_eq.
    destruct (numberGrid !! r) as [rowv|]; [|done]. simpl in *.
    apply lookup_lt_is_Some. rewrite length_insert.
    by eapply lookup_lt_Some.
  - rewrite list_lookup_alter_ne by done. by exists v.
Qed.

Lemma hasNumberCell_replicate n r c :
  r < n → c < n → hasNumberCell (replicate n (replicate n 0)) r c.
Proof.
  intros Hr Hc. unfold hasNumberCell.
  rewrite lookup_replicate_2 by done. simpl.
  rewrite lookup_replicate_2 by done. by eexists.
Qed.

Lemma numberAt_replicate n r c : numberAt (replicate n (replicate n 0)) r c = 0.
Proof.
  unfold numberAt.
  destruct (replicate n (replicate n 0) !! r) as [rowv|] eqn:Hrow; [|done].
  apply lookup_replicate_1 in Hrow as [-> _]. simpl.
  destruct (replicate n 0 !! c) as [v|] eqn:Hv; [|done].
  by apply lookup_replicate_1 in Hv as [-> _].
Qed.

Lemma foldl_cells {S} (f : S → nat → nat → S) (cols : list nat) :
  ∀ rows st,
  foldl (λ st r, foldl (λ st c, f st r c) st cols) st rows
  = foldl (λ st x, f st x.1 x.2) st
      (flat_map (λ r, map (pair r) cols) rows).
Proof.
  induction rows as [|r rows IH]; intros st; simpl; [done|].
  rewrite foldl_app, <- IH. f_equal.
  generalize cols. intros l. revert st.
  induction l as [|c l IHc]; intros st; simpl; [done|].
  by rewrite IHc.
Qed.

Lemma assignNumbers_readingOrder grid size :
  assignNumbers grid size
  = foldl (λ st x, numberCell grid size st x.1 x.2)
      (replicate size (replicate size 0), 1) (readingOrder size).
Proof.
  unfold assignNumbers, readingOrder.
  apply (foldl_cells (numberCell grid size)).
Qed.

Lemma elem_of_readingOrder n r c : (r, c) ∈ readingOrder n ↔ r < n ∧ c < n.
Proof.
  unfold readingOrder.
  rewrite list_elem_of_In, in_flat_map. setoid_rewrite in_map_iff.
  setoid_rewrite in_seq. split.
  - intros (r' & Hr & c' & [= <- <-] & Hc). lia.
  - intros [Hr Hc]. exists r. split; [lia|]. exists c. split; [done|lia].
Qed.

Lemma readingOrder_NoDup n : NoDup (readingOrder n).
Proof.
  unfold readingOrder.
  assert (Hgen : ∀ rows : list nat, NoDup rows →
    NoDup (flat_map (λ r : nat, map (pair r) (seq 0 n)) rows)).
  { induction rows as [|r rows IH]; intros Hnd; simpl; [apply NoDup_nil_2|].
    apply NoDup_cons in Hnd as [Hr Hnd].
    apply NoDup_app. split; [|split; [|by apply IH]].
    - apply NoDup_fmap_2; [|apply NoDup_seq]. by intros c c' [= ->].
    - intros [r' c'] (c0 & [= -> ->] & _)%list_elem_of_fmap Hin.
      apply list_elem_of_In, in_flat_map in Hin as (r0 & Hr0 & Hin).
      apply in_map_iff in Hin as (c1 & [= -> ->] & _).
      by apply list_elem_of_In in Hr0. }
  apply Hgen, NoDup_seq.
Qed.

(** What the loop does over any list of distinct cells. *)
Lemma number_fold grid size l : ∀ numberGrid k,
  NoDup l → (∀ x, x ∈ l → hasNumberCell numberGrid x.1 x.2) →
  let st := foldl (λ st x, numberCell grid size st x.1 x.2) (numberGrid, k) l in
  ∀ r c,
    numberAt st.1 r c
    = if bool_decide ((r, c) ∈ l) && startsWord grid size r c
      then k + startsBeforeIn (λ x, startsWord grid size x.1 x.2) (r, c) l
      else numberAt numberGrid r c.
Proof.
  induction l as [|[r0 c0] l IH]; intros numberGrid k Hnd Hcells st r c.
  { unfold st. cbn [foldl fst].
    rewrite bool_decide_eq_false_2 by apply not_elem_of_nil. done. }
  apply NoDup_cons in Hnd as [Hfresh Hnd].
  unfold st. cbn [foldl]. unfold numberCell at 2. cbn [fst snd].
  destruct (startsWord grid size r0 c0) eqn:Hstart.
  - rewrite IH; [|done|].
    2:{ intros x Hx. apply hasNumberCell_setNumber. apply Hcells. by right. }
    cbn [startsBeforeIn].
    destruct (decide ((r0, c0) = (r, c))) as [[= -> ->]|Hne].
    + rewrite (bool_decide_eq_false_2 _ Hfresh). simpl.
      rewrite (bool_decide_eq_true_2 ((r, c) ∈ (r, c) :: l)) by by left.
      rewrite Hstart. simpl.
      rewrite numberAt_setNumber_eq; [lia|]. apply (Hcells (r, c)). by left.
    + assert (Hiff : bool_decide ((r, c) ∈ (r0, c0) :: l)
                     = bool_decide ((r, c) ∈ l)).
      { apply bool_decide_ext. rewrite elem_of_cons.
        split; [intros [[= -> ->]|?]; done|by right]. }
      rewrite Hiff. cbn [fst snd]. rewrite Hstart.
      destruct (bool_decide ((r, c) ∈ l) && startsWord grid size r c);
        [lia|].
      apply numberAt_setNumber_ne. congruence.
  - rewrite IH; [|done|].
    2:{ intros x Hx. apply Hcells. by right. }
    cbn [startsBeforeIn].
    destruct (decide ((r0, c0) = (r, c))) as [[= -> ->]|Hne].
    + rewrite (bool_decide_eq_false_2 _ Hfresh). simpl.
      by rewrite Hstart, andb_false_r.
    + assert (Hiff : bool_decide ((r, c) ∈ (r0, c0) :: l)
                     = bool_decide ((r, c) ∈ l)).
      { apply bool_decide_ext. rewrite elem_of_cons.
        split; [intros [[= -> ->]|?]; done|by right]. }
      rewrite Hiff. cbn [fst snd]. rewrite Hstart. done.
Qed.

(** The numbering pass gives the next integer, from 1 on and in reading
    order, to exactly the letter cells that start an across or a down
    word; the other cells keep 0, which the final grid shows as no
    number. *)
Lemma numbering_in_reading_order grid size r c :
  numberAt (assignNumbers grid size).1 r c
  = if (r <? size) && (c <? size) && startsWord grid size r c
    then S (startsBefore grid size r c)
    else 0.
Proof.
  rewrite assignNumbers_readingOrder.
  rewrite number_fold.
  - rewrite numberAt_replicate. unfold startsBefore.
    destruct (decide (r < size ∧ c < size)) as [[Hr Hc]|Hout].
    + rewrite bool_decide_eq_true_2 by by apply elem_of_readingOrder.
      apply Nat.ltb_lt in Hr, Hc. rewrite Hr, Hc. simpl.
      by destruct (startsWord grid size r c).
    + rewrite bool_decide_eq_false_2 by by rewrite elem_of_readingOrder.
      simpl.
      destruct (Nat.ltb_spec r size), (Nat.ltb_spec c size); simpl;
        try done. lia.
  - apply readingOrder_NoDup.
  - intros [r' c'] [Hr Hc]%elem_of_readingOrder.
    by apply hasNumberCell_replicate.
Qed.

Lemma startsBeforeIn_distinct starts l : ∀ x y,
  x ≠ y → x ∈ l → y ∈ l → starts x = true → starts y = true →
  startsBeforeIn starts x l ≠ startsBeforeIn starts y l.
Proof.
  induction l as [|z l IH]; intros x y Hne Hx Hy Sx Sy.
  { by apply elem_of_nil in Hx. }
  simpl.
  destruct (decide (z = x)) as [Ezx|Hzx]; destruct (decide (z = y)) as [Ezy|Hzy].
  - congruence.
  - subst z. rewrite Sx. lia.
  - subst z. rewrite Sy. lia.
  - apply elem_of_cons in Hx as [->|Hx]; [done|].
    apply elem_of_cons in Hy as [->|Hy]; [done|].
    pose proof (IH x y Hne Hx Hy Sx Sy). lia.
Qed.

(** Two distinct numbered cells carry distinct numbers. *)
Lemma numbers_distinct grid size r c r' c' :
  (r, c) ≠ (r', c') →
  numberAt (assignNumbers grid size).1 r c ≠ 0 →
  numberAt (assignNumbers grid size).1 r c
  = numberAt (assignNumbers grid size).1 r' c' →
  False.
Proof.
  rewrite !numbering_in_reading_order. intros Hne.
  destruct ((r <? size) && (c <? size) && startsWord grid size r c) eqn:E1;
    [|done].
  destruct ((r' <? size) && (c' <? size) && startsWord grid size r' c') eqn:E2;
    [|done].
  intros _ [= Heq].
  apply andb_true_iff in E1 as [[Hr Hc]%andb_true_iff S1].
  apply andb_true_iff in E2 as [[Hr' Hc']%andb_true_iff S2].
  apply Nat.ltb_lt in Hr, Hc, Hr', Hc'.
  revert Heq. unfold startsBefore.
  apply startsBeforeIn_distinct; try done;
    by apply elem_of_readingOrder.
Qed.

(** ** Termination and numbering in the returned puzzle *)

Lemma cellHasLetter_not_blocked res r c :
  cellHasLetter res r c = true → ¬ blockedCell res r c.
Proof.
  unfold cellHasLetter, blockedCell. intros H (cell & Hcell & Hl).
  rewrite Hcell, Hl in H. done.
Qed.

Lemma unterminated_spec res w : unterminated res w = true → ¬ terminated res w.
Proof.
  unfold unterminated, terminated.
  destruct (PlacedWord.orientation w);
    intros [[H1 H2]%andb_true_iff|[H1 H2]%andb_true_iff]%orb_true_iff
           [T1 T2];
    apply Nat.ltb_lt in H1;
    apply cellHasLetter_not_blocked in H2; auto.
Qed.

Lemma unnumbered_spec res w : unnumbered res w = true → ¬ numberedAtStart res w.
Proof.
  unfold unnumbered, numberedAtStart. intros H (cell & Hcell & Hn).
  rewrite Hcell, Hn, Nat.eqb_refl in H. done.
Qed.

Lemma overlapTable_ok : overlapTable = true.
Proof. vm_compute. reflexivity. Qed.

Lemma overlap_attempt p :
  p ∈ permutations overlapWords →
  goodEnough 5 (runAttempt 5 p) = false
  ∧ Attempt.placed (runAttempt 5 p) ≠ []
  ∧ (comesBefore bdb abdb p = true → brokenAttempt 5 (runAttempt 5 p) = true).
Proof.
  intros Hp%list_elem_of_In.
  pose proof overlapTable_ok as Htable. unfold overlapTable in Htable.
  rewrite forallb_forall in Htable. specialize (Htable p Hp).
  cbv beta zeta in Htable.
  apply andb_true_iff in Htable as [Htable _].
  apply andb_true_iff in Htable as [Htable Hbroken].
  apply andb_true_iff in Htable as [Hgood Hlen].
  apply negb_true_iff in Hgood. apply negb_true_iff, Nat.eqb_neq in Hlen.
  repeat split; [done| |].
  - intros Hnil. by rewrite Hnil in Hlen.
  - intros Hb. by rewrite Hb in Hbroken.
Qed.

Lemma overlap_keep p q :
  p ∈ permutations overlapWords → q ∈ permutations overlapWords →
  let a := runAttempt 5 p in
  let b := runAttempt 5 q in
  brokenAttempt 5 a = true ∨ brokenAttempt 5 b = true →
  ∃ a', keepBest (Some a) b = Some a' ∧ brokenAttempt 5 a' = true.
Proof.
  intros Hp%list_elem_of_In Hq%list_elem_of_In a b Hbroken.
  pose proof overlapTable_ok as Htable. unfold overlapTable in Htable.
  rewrite forallb_forall in Htable. specialize (Htable p Hp).
  cbv beta zeta in Htable.
  apply andb_true_iff in Htable as [_ Htable].
  rewrite forallb_forall in Htable. specialize (Htable q Hq).
  cbv beta zeta in Htable.
  apply andb_true_iff in Htable as [H1 H2].
  fold a b in H1, H2. unfold keepBest.
  destruct (brokenAttempt 5 a) eqn:Ha, (brokenAttempt 5 b) eqn:Hb,
           (replacesBest (Some a) b) eqn:Hr;
    cbn [implb andb negb] in H1, H2;
    try discriminate; try (by destruct Hbroken); eauto.
Qed.

Section OverlapRun.

Variable shuffle : nat → list WordClue.t → list WordClue.t.
Hypothesis shuffle_permutes : ∀ k l, shuffle k l ≡ₚ l.

Lemma overlap_shuffled k : shuffle k overlapWords ∈ permutations overlapWords.
Proof. apply permutations_Permutation. symmetry. apply shuffle_permutes. Qed.

Lemma overlap_loop remaining : ∀ attempt best,
  (best = None
   ∨ ∃ p, p ∈ permutations overlapWords ∧ best = Some (runAttempt 5 p)) →
  ((∃ a, best = Some a ∧ brokenAttempt 5 a = true)
   ∨ ∃ k, attempt ≤ k < attempt + remaining
          ∧ comesBefore bdb abdb (shuffle k overlapWords) = true) →
  ∃ a, attemptLoop shuffle 5 overlapWords remaining attempt best = Some a
       ∧ brokenAttempt 5 a = true ∧ Attempt.placed a ≠ [].
Proof.
  induction remaining as [|remaining IH]; intros attempt best Hbest Hcase.
  - simpl. destruct Hcase as [(a & -> & Ha)|(k & Hk & _)]; [|lia].
    exists a. repeat split; try done.
    destruct Hbest as [?|(p & Hp & [= ->])]; [done|].
    by apply overlap_attempt.
  - simpl.
    pose proof (overlap_shuffled attempt) as Hq.
    destruct (overlap_attempt _ Hq) as (Hgood & _ & Hfirst).
    rewrite Hgood. apply IH.
    + right. unfold keepBest. destruct best as [b|]; cbn [replacesBest].
      * destruct (_ || _); [|by destruct Hbest].
        eexists. split; [exact Hq|done].
      * eexists. split; [exact Hq|done].
    + destruct best as [a|].
      * destruct Hbest as [?|(p & Hp & [= ->])]; [done|].
        assert (Hor : (∃ a, Some (runAttempt 5 p) = Some a
                            ∧ brokenAttempt 5 a = true)
                      ∨ (comesBefore bdb abdb (shuffle attempt overlapWords)
                         = true)
                      ∨ ∃ k, S attempt ≤ k < S attempt + remaining
                             ∧ comesBefore bdb abdb (shuffle k overlapWords)
                               = true).
        { destruct Hcase as [?|(k & Hk & Hb)]; [by left|].
          destruct (decide (k = attempt)) as [->|Hne]; [by right; left|].
          right. right. exists k. split; [lia|done]. }
        destruct Hor as [(a & [= <-] & Ha)|[Hb|Hlater]]; [| |by right].
        -- left. destruct (overlap_keep p _ Hp Hq) as (a' & Hk & Ha');
             [by left|]. by exists a'.
        -- left. destruct (overlap_keep p _ Hp Hq) as (a' & Hk & Ha');
             [right; by apply Hfirst|]. by exists a'.
      * destruct Hcase as [(a & ? & _)|(k & Hk & Hb)]; [done|].
        destruct (decide (k = attempt)) as [->|Hne].
        -- left. eexists. split; [done|]. by apply Hfirst.
        -- right. exists k. split; [lia|done].
Qed.

(** Whatever the hundred shuffles are, if one of them puts BDB before
    ABDB the returned puzzle has a word that is not terminated and has no
    number at its start. *)
Lemma overlap_breaks_puzzle :
  (∃ k, k < maxAttempts
        ∧ comesBefore bdb abdb (shuffle k overlapWords) = true) →
  ∃ res w, generateCrossword latinUpper shuffle overlapWords 5 = Returned res
           ∧ w ∈ CrosswordResult.words res
           ∧ ¬ terminated res w ∧ ¬ numberedAtStart res w.
Proof.
  intros (k & Hk & Hb).
  assert (Huniq : uniqueWords latinUpper overlapWords 5 = overlapWords)
    by (vm_compute; reflexivity).
  destruct (overlap_loop maxAttempts 0 None) as (a & Hloop & Ha & Hne).
  { by left. }
  { right. exists k. split; [lia|done]. }
  unfold generateCrossword, bestAttempt. rewrite Huniq, Hloop.
  destruct (Attempt.placed a) eqn:Hplaced; [done|]. simpl.
  unfold brokenAttempt in Ha. apply existsb_exists in Ha as (w & Hw & Hbw).
  apply andb_true_iff in Hbw as [H1 H2].
  exists (buildResult 5 a), w. split; [done|].
  split; [by apply list_elem_of_In|].
  split; [by apply unterminated_spec|by apply unnumbered_spec].
Qed.

End OverlapRun.

(** C4 on the candidates BDB, ABDB, EEDD with shuffles that leave the
    order: ABDB is written over BDB, so the returned list has BDB across
    from (2, 1) while the cell (2, 0) before it holds the A of ABDB. *)
Theorem termination_broken_by_overlap :
  ∃ res w,
    generateCrossword latinUpper asIs overlapWords 5 = Returned res
    ∧ w ∈ CrosswordResult.words res
    ∧ PlacedWord.answer w = bdb
    ∧ PlacedWord.orientation w = across
    ∧ (PlacedWord.startRow w, PlacedWord.startCol w) = (2, 1)
    ∧ letterCell res 2 0 0x41%N
    ∧ ¬ terminated res w.
Proof.
  eexists. eexists. split; [vm_compute; reflexivity|].
  split; [by left|]. simpl.
  repeat split;
    first [ reflexivity
          | eexists; split; [vm_compute; reflexivity|reflexivity]
          | apply unterminated_spec; vm_compute; reflexivity ].
Qed.

(** C5 on the same run: BDB starts at (2, 1), a cell with a letter on its
    left, which the numbering pass does not number; the word gets the
    position 0 and its starting cell no number. *)
Theorem numbering_broken_by_overlap :
  ∃ res w cell,
    generateCrossword latinUpper asIs overlapWords 5 = Returned res
    ∧ w ∈ CrosswordResult.words res
    ∧ PlacedWord.answer w = bdb
    ∧ PlacedWord.position w = 0
    ∧ resultCell res (PlacedWord.startRow w) (PlacedWord.startCol w)
      = Some cell
    ∧ GridCell.letter cell = Some 0x42%N
    ∧ GridCell.number cell = None
    ∧ ¬ numberedAtStart res w.
Proof.
  eexists. eexists. eexists. split; [vm_compute; reflexivity|].
  split; [by left|]. simpl.
  repeat split;
    first [ reflexivity
          | apply unnumbered_spec; vm_compute; reflexivity ].
Qed.

(** ** The scenarios, as instances of the theorems *)

Example s5_rejected :
  canPlaceWord (placeWord (emptyGrid 5) neko 0 0 true) risu 1 0 true false
  = false.
Proof. reflexivity. Qed.

Example s2_normalized : normalizeJapanese latinUpper nekoHiragana = neko.
Proof. reflexivity. Qed.

Lemma asIs_permutes : ∀ k l, asIs k l ≡ₚ l.
Proof. intros k l. reflexivity. Defined.

Lemma adjacency_invariant_witness :
  ∃ res, generateCrossword latinUpper asIs s1Words 7 = Returned res
    ∧ ∃ w i g g', w ∈ CrosswordResult.words res
       ∧ PlacedWord.orientation w = across
       ∧ wordCell w i = (3, 2) ∧ wordCell w (S i) = (3, 2 + 1)
       ∧ PlacedWord.answer w !! i = Some g
       ∧ PlacedWord.answer w !! S i = Some g'
       ∧ letterCell res 3 2 g ∧ letterCell res 3 (2 + 1) g'.
Proof.
  eexists. split; [vm_compute; reflexivity|].
  apply (adjacency_invariant latinUpper asIs s1Words 7).
  - vm_compute. reflexivity.
  - exists 0x30CD%N. eexists. split; [vm_compute; reflexivity|reflexivity].
  - exists 0x30B3%N. eexists. split; [vm_compute; reflexivity|reflexivity].
Defined.

Lemma canPlaceWord_iff_placeable_witness :
  canPlaceWord (placeWord (emptyGrid 5) neko 2 1 true) koto 1 2 false true
  = true
  ↔ runInBounds (placeWord (emptyGrid 5) neko 2 1 true) (length koto) 1 2 false
    ∧ capsBlocked (placeWord (emptyGrid 5) neko 2 1 true) (length koto)
        1 2 false
    ∧ (∀ i ch, koto !! i = Some ch →
         cellFits (placeWord (emptyGrid 5) neko 2 1 true) 1 2 false i ch)
    ∧ (true = true →
       ∃ i ch, koto !! i = Some ch
         ∧ intersectsAt (placeWord (emptyGrid 5) neko 2 1 true) 1 2 false i ch).
Proof.
  apply (canPlaceWord_iff_placeable (placeWord (emptyGrid 5) neko 2 1 true)
           koto 1 2 false true).
  - vm_compute. lia.
  - vm_compute. lia.
Defined.

Lemma check_round_trip_witness :
  ∃ res, generateCrossword latinUpper asIs s2Words 7 = Returned res
    ∧ checkAnswers latinUpper {[ puzzleId := puzzleOf puzzleId 7 res ]}
        puzzleId (answersOf (CrosswordResult.words res))
      = Returned (keysOf (answersOf (CrosswordResult.words res)), []).
Proof.
  eexists. split; [vm_compute; reflexivity|].
  apply (check_round_trip latinUpper asIs s2Words 7 7).
  - apply latinUpper_stable.
  - apply latinUpper_kana.
  - apply asIs_permutes.
  - vm_compute. reflexivity.
  - apply lookup_singleton_eq.
Defined.

Lemma hint_contract_witness :
  getHint {[ puzzleId := s3Puzzle ]} puzzleId 4 (orientationName across)
  = Returned (HintResult.mk
      [0x30A6; 0xFF3F; 0xFF3F; 0xFF3F; 0xFF3F]%N 1 5).
Proof.
  assert (Hget : getPuzzle {[ puzzleId := s3Puzzle ]} puzzleId = Some s3Puzzle).
  { unfold getPuzzle. rewrite lookup_singleton_eq. reflexivity. }
  assert (Hvalid : validAnswers s3Table).
  { intros key answer Hanswer. unfold s3Table in Hanswer. simpl in Hanswer.
    destruct (strEq _ key); [|discriminate].
    injection Hanswer as <-. simpl. lia. }
  apply (proj1 (hint_contract {[ puzzleId := s3Puzzle ]} puzzleId s3Puzzle
                  s3Table 4 (orientationName across) Hget eq_refl Hvalid)
           ukuraina).
  reflexivity.
Defined.

Lemma fails_iff_no_word_placed_witness :
  generateCrossword latinUpper asIs s4Words 7
  = Thrown Failed_to_generate_crossword
  ∧ ∃ res, generateCrossword latinUpper asIs s1Words 7 = Returned res.
Proof.
  split.
  - apply (fails_iff_no_word_placed latinUpper asIs s4Words 7 asIs_permutes).
    intros w Hw. apply list_elem_of_singleton in Hw. subst w.
    left. vm_compute. lia.
  - apply (fails_iff_no_word_placed latinUpper asIs s1Words 7 asIs_permutes).
    exists (word neko). split; [by left|]. vm_compute. lia.
Defined.

Lemma letters_are_word_cells_witness :
  ∃ res, generateCrossword latinUpper asIs s1Words 7 = Returned res
    ∧ (isLetterCell res 4 4 ↔
       ∃ w i, w ∈ CrosswordResult.words res
              ∧ i < PlacedWord.length w ∧ wordCell w i = (4, 4)).
Proof.
  eexists. split; [vm_compute; reflexivity|].
  apply (letters_are_word_cells latinUpper asIs s1Words 7).
  vm_compute. reflexivity.
Defined.

(** * Properties of the code beyond the specification *)

(** ** Text normaliser *)
Lemma hiraganaToKatakana_idem c :
  hiraganaToKatakana (hiraganaToKatakana c) = hiraganaToKatakana c.
Proof.
  unfold hiraganaToKatakana.
  destruct ((0x3041 <=? c) && (c <=? 0x3096))%N eqn:E; [|by rewrite E].
  apply andb_true_iff in E as [H1%N.leb_le H2%N.leb_le].
  destruct (N.leb_spec (c + 0x60) 0x3096); [lia|].
  by rewrite andb_false_r.
Qed.

Lemma hiragana_as_katakana upperCP s :
  normalizeJapanese upperCP (map hiraganaToKatakana s)
  = normalizeJapanese upperCP s.
Proof.
  unfold normalizeJapanese. do 2 f_equal.
  rewrite <- list_fmap_compose. apply list_fmap_ext.
  intros _ c _. apply hiraganaToKatakana_idem.
Qed.

(** X1. An answer in hiragana and the same answer in katakana normalise
    to the same string: turning the hiragana of a string into katakana
    before [normalizeJapanese] changes nothing of its result. *)
Theorem normalize_hiragana_as_katakana (upperCP : N → list N) (s : jsstring) :
  normalizeJapanese upperCP (map hiraganaToKatakana s)
  = normalizeJapanese upperCP s.
Proof. apply hiragana_as_katakana. Qed.

(** X2. When uppercasing creates no kana, the result of
    [normalizeJapanese] holds no hiragana (U+3041 to U+3096) and none of
    the ten small katakana that it folds. *)
Theorem normalize_leaves_no_hiragana (upperCP : N → list N)
    (upper_kana : ∀ c d, d ∈ upperCP c → kanaBlock d → c = d)
    (s : jsstring) (c : N) :
  c ∈ normalizeJapanese upperCP s → rewritten c = false.
Proof.
  rewrite normalizeJapanese_unfold.
  intros (c1 & Hc1 & Hc)%list_elem_of_In%in_flat_map.
  apply in_map_iff in Hc1 as (c0 & <- & _).
  apply list_elem_of_In in Hc.
  destruct (rewritten c) eqn:Hr; [|done].
  apply rewritten_kanaBlock in Hr as Hk.
  pose proof (upper_kana _ _ Hc Hk) as Heq. subst c.
  by rewrite kanaStep_not_rewritten in Hr.
Qed.

Lemma normalize_leaves_no_hiragana_witness :
  0x30CD%N ∈ normalizeJapanese latinUpper nekoHiragana
  ∧ rewritten 0x30CD = false.
Proof.
  assert (H : 0x30CD%N ∈ normalizeJapanese latinUpper nekoHiragana)
    by (vm_compute; apply list_elem_of_here).
  split; [exact H|].
  exact (normalize_leaves_no_hiragana latinUpper latinUpper_kana
           nekoHiragana 0x30CD%N H).
Defined.

(** ** The positions [findPlacements] proposes *)
Lemma countFrom_acc grid row col h chars : ∀ i count,
  countFrom grid row col h chars i count
  = count + countFrom grid row col h chars i 0.
Proof.
  induction chars as [|ch rest IH]; intros i count; simpl; [lia|].
  rewrite IH, (IH _ (if notNull _ _ _ then 1 else 0)).
  destruct (notNull _ _ _); lia.
Qed.

Lemma countFrom_le grid row col h chars : ∀ i,
  countFrom grid row col h chars i 0 ≤ length chars.
Proof.
  induction chars as [|ch rest IH]; intros i; simpl; [lia|].
  rewrite countFrom_acc. specialize (IH (S i)).
  destruct (notNull _ _ _); lia.
Qed.

Lemma countFrom_pos grid row col h chars : ∀ i k,
  k < length chars →
  notNull grid (runRow row h (i + k)) (runCol col h (i + k)) = true →
  1 ≤ countFrom grid row col h chars i 0.
Proof.
  induction chars as [|ch rest IH]; intros i k Hk Hn; simpl in *; [lia|].
  rewrite countFrom_acc.
  destruct k as [|k].
  - rewrite Nat.add_0_r in Hn. rewrite Hn. lia.
  - specialize (IH (S i) k). replace (S i + k) with (i + S k) in IH by lia.
    specialize (IH ltac:(lia) Hn). lia.
Qed.

Lemma countFrom_zero grid row col h chars : ∀ i,
  (∀ k, k < length chars →
     notNull grid (runRow row h (i + k)) (runCol col h (i + k)) = false) →
  countFrom grid row col h chars i 0 = 0.
Proof.
  induction chars as [|ch rest IH]; intros i Hn; simpl in *; [done|].
  pose proof (Hn 0 ltac:(lia)) as H0. rewrite Nat.add_0_r in H0. rewrite H0.
  apply IH. intros k Hk. replace (S i + k) with (i + S k) by lia.
  apply Hn. lia.
Qed.

Lemma canPlaceWord_intersects grid word r c h :
  canPlaceWord grid word r c h true = true ↔
  canPlaceWord grid word r c h false = true
  ∧ ∃ i ch, word !! i = Some ch ∧ intersectsAt grid r c h i ch.
Proof.
  rewrite !canPlaceWord_spec. unfold placeable. split.
  - intros (H1 & H2 & H3 & H4). repeat split; try done. by apply H4.
  - intros ((H1 & H2 & H3 & _) & H4). repeat split; done.
Qed.

Lemma tryIntersect_sound grid word req r c i ch p :
  word !! i = Some ch → letter grid r c ch →
  p ∈ tryIntersect grid word req r c i →
  canPlaceWord grid word (Placement.row p) (Placement.col p)
    (Placement.horizontal p) req = true
  ∧ Placement.intersections p
    = countIntersections grid word (Placement.row p) (Placement.col p)
        (Placement.horizontal p)
  ∧ intersectsAt grid (Placement.row p) (Placement.col p)
      (Placement.horizontal p) i ch.
Proof.
  intros Hi Hl. unfold tryIntersect. intros [Hp|Hp]%elem_of_app.
  - destruct ((i <=? c) && canPlaceWord grid word r (c - i) true req) eqn:E;
      [|by apply elem_of_nil in Hp].
    apply list_elem_of_singleton in Hp as ->.
    apply andb_true_iff in E as [Hic%Nat.leb_le E]. simpl.
    repeat split; try done.
    unfold intersectsAt, runRow, runCol.
    by replace (c - i + i) with c by lia.
  - destruct ((i <=? r) && canPlaceWord grid word (r - i) c false req) eqn:E;
      [|by apply elem_of_nil in Hp].
    apply list_elem_of_singleton in Hp as ->.
    apply andb_true_iff in E as [Hir%Nat.leb_le E]. simpl.
    repeat split; try done.
    unfold intersectsAt, runRow, runCol.
    by replace (r - i + i) with r by lia.
Qed.

Lemma intersectingPlacements_sound grid word req p :
  p ∈ intersectingPlacements grid word req →
  canPlaceWord grid word (Placement.row p) (Placement.col p)
    (Placement.horizontal p) req = true
  ∧ Placement.intersections p
    = countIntersections grid word (Placement.row p) (Placement.col p)
        (Placement.horizontal p)
  ∧ ∃ i ch, word !! i = Some ch
      ∧ intersectsAt grid (Placement.row p) (Placement.col p)
          (Placement.horizontal p) i ch.
Proof.
  unfold intersectingPlacements.
  intros (r & _ & Hp)%list_elem_of_In%in_flat_map.
  apply in_flat_map in Hp as (c & _ & Hp).
  destruct (cellAt grid r c) as [[existingChar|]|] eqn:Hcell; try done.
  apply in_concat in Hp as (l & Hl & Hp).
  apply list_elem_of_In, elem_of_lookup_imap in Hl as (i & ch & -> & Hi).
  destruct (N.eqb_spec ch existingChar) as [->|]; [|done].
  apply list_elem_of_In in Hp.
  destruct (tryIntersect_sound grid word req r c i existingChar p Hi Hcell Hp)
    as (H1 & H2 & H3).
  repeat split; try done. by exists i, existingChar.
Qed.

Lemma intersectingPlacements_complete n grid word req r0 c0 h i ch :
  wfGrid n grid →
  canPlaceWord grid word r0 c0 h req = true →
  word !! i = Some ch → intersectsAt grid r0 c0 h i ch →
  Placement.mk r0 c0 h (countIntersections grid word r0 c0 h)
  ∈ intersectingPlacements grid word req.
Proof.
  intros [Hlen Hcells] Hcan Hi Hl. unfold intersectsAt, letter in Hl.
  assert (Hin : runRow r0 h i < n ∧ runCol c0 h i < n).
  { apply Hcells. by rewrite Hl. }
  destruct Hin as [Hr Hc].
  unfold intersectingPlacements. rewrite Hlen.
  apply list_elem_of_In, in_flat_map. exists (runRow r0 h i).
  split; [apply in_seq; lia|].
  apply in_flat_map. exists (runCol c0 h i).
  split; [apply in_seq; lia|].
  rewrite Hl. apply in_concat.
  exists (tryIntersect grid word req (runRow r0 h i) (runCol c0 h i) i).
  split.
  - apply list_elem_of_In, elem_of_lookup_imap. exists i, ch.
    split; [by rewrite N.eqb_refl|done].
  - apply list_elem_of_In. unfold tryIntersect, runRow, runCol.
    destruct h; apply elem_of_app; [left|right].
    + replace (c0 + i - i) with c0 by lia.
      rewrite (proj2 (Nat.leb_le _ _)) by lia. rewrite Hcan. simpl. by left.
    + replace (r0 + i - i) with r0 by lia.
      rewrite (proj2 (Nat.leb_le _ _)) by lia. rewrite Hcan. simpl. by left.
Qed.

Lemma findPlacements_elem n grid word p :
  wfGrid n grid →
  (p ∈ findPlacements grid word true ↔
   canPlaceWord grid word (Placement.row p) (Placement.col p)
     (Placement.horizontal p) true = true
   ∧ Placement.intersections p
     = countIntersections grid word (Placement.row p) (Placement.col p)
         (Placement.horizontal p)).
Proof.
  intros Hwf. unfold findPlacements. rewrite sortBy_elem_of.
  rewrite andb_false_r. split.
  - intros (H1 & H2 & _)%intersectingPlacements_sound. done.
  - intros [Hcan Hk].
    apply canPlaceWord_intersects in Hcan as Hint.
    destruct Hint as (_ & i & ch & Hi & Hl).
    destruct p as [r0 c0 h k]. simpl in *. subst k.
    by eapply intersectingPlacements_complete.
Qed.

(** X3. On a square grid, the list that [findPlacements] returns when an
    intersection is required holds exactly the positions that
    [canPlaceWord] accepts with an intersection, each with the number of
    letter cells that the word would cross there. *)
Theorem findPlacements_exact (n : nat) (grid : Grid) (word : jsstring)
    (p : Placement.t) :
  wfGrid n grid →
  (p ∈ findPlacements grid word true ↔
   canPlaceWord grid word (Placement.row p) (Placement.col p)
     (Placement.horizontal p) true = true
   ∧ Placement.intersections p
     = countIntersections grid word (Placement.row p) (Placement.col p)
         (Placement.horizontal p)).
Proof. apply findPlacements_elem. Qed.

Lemma nekoGrid_wf : wfGrid 5 nekoGrid.
Proof. apply placeWord_wf, emptyGrid_wf. Qed.

Lemma findPlacements_exact_witness :
  Placement.mk 2 2 false 1 ∈ findPlacements nekoGrid koto true ↔
  canPlaceWord nekoGrid koto 2 2 false true = true
  ∧ 1 = countIntersections nekoGrid koto 2 2 false.
Proof.
  exact (findPlacements_exact 5 nekoGrid koto (Placement.mk 2 2 false 1)
           nekoGrid_wf).
Defined.

Lemma insertBy_sorted x l :
  StronglySorted moreIntersections l →
  StronglySorted moreIntersections (insertBy byIntersections x l).
Proof.
  induction 1 as [|y l Hl IH Hy]; simpl.
  { constructor; [constructor|constructor]. }
  unfold byIntersections at 1.
  destruct (Z.leb_spec (Z.of_nat (Placement.intersections y)
                        - Z.of_nat (Placement.intersections x)) 0) as [Hle|Hgt].
  - constructor; [by constructor|].
    constructor; [unfold moreIntersections; lia|].
    eapply Forall_impl; [exact Hy|]. unfold moreIntersections. intros; simpl in *; lia.
  - constructor; [done|].
    apply Forall_forall. intros z Hz.
    rewrite insertBy_Permutation in Hz.
    apply elem_of_cons in Hz as [->|Hz].
    + unfold moreIntersections. lia.
    + rewrite Forall_forall in Hy. by apply Hy.
Qed.

Lemma sortBy_sorted l : StronglySorted moreIntersections (sortBy byIntersections l).
Proof.
  induction l as [|x l IH]; [constructor|].
  unfold sortBy in *. simpl. by apply insertBy_sorted.
Qed.

Lemma countIntersections_bounds grid word r c h :
  canPlaceWord grid word r c h true = true →
  1 ≤ countIntersections grid word r c h ≤ length word.
Proof.
  intros (_ & i & ch & Hi & Hl)%canPlaceWord_intersects.
  unfold countIntersections. split; [|apply countFrom_le].
  apply (countFrom_pos grid r c h word 0 i).
  - by eapply lookup_lt_Some.
  - by eapply notNull_true_letter.
Qed.

(** X4. A turn of the main pass on a square grid: when [canPlaceWord]
    accepts no position with an intersection, grid and placed list stay as
    they are; otherwise the word is written at an accepted position that
    crosses at least one letter and as many letters as any accepted
    position does, and is appended to the placed list. *)
Theorem placeBest_takes_most_intersections (n : nat) (grid : Grid)
    (placed : list Placed.t) (w : WordClue.t) :
  wfGrid n grid →
  (∀ r c h, canPlaceWord grid (WordClue.answer w) r c h true = false) ∧
  placeBest (grid, placed) w (findPlacements grid (WordClue.answer w) true)
  = (grid, placed)
  ∨ ∃ r c h,
      canPlaceWord grid (WordClue.answer w) r c h true = true
      ∧ 1 ≤ countIntersections grid (WordClue.answer w) r c h
      ∧ (∀ r' c' h',
           canPlaceWord grid (WordClue.answer w) r' c' h' true = true →
           countIntersections grid (WordClue.answer w) r' c' h'
           ≤ countIntersections grid (WordClue.answer w) r c h)
      ∧ placeBest (grid, placed) w
          (findPlacements grid (WordClue.answer w) true)
        = (placeWord grid (WordClue.answer w) r c h,
           placed ++ [Placed.mk w r c h]).
Proof.
  intros Hwf.
  assert (Hsorted : StronglySorted moreIntersections
            (findPlacements grid (WordClue.answer w) true))
    by (unfold findPlacements; apply sortBy_sorted).
  pose proof (λ p, findPlacements_elem n grid (WordClue.answer w) p Hwf)
    as Hexact.
  destruct (findPlacements grid (WordClue.answer w) true) as [|best rest].
  - left. split; [|done]. intros r c h.
    destruct (canPlaceWord _ _ r c h true) eqn:E; [|done].
    specialize (Hexact (Placement.mk r c h
      (countIntersections grid (WordClue.answer w) r c h))).
    simpl in Hexact. destruct Hexact as [_ Hexact].
    specialize (Hexact (conj E eq_refl)). by apply elem_of_nil in Hexact.
  - right. exists (Placement.row best), (Placement.col best),
      (Placement.horizontal best).
    destruct (proj1 (Hexact best)) as [Hcan Hk]; [by left|].
    split; [done|]. split; [by apply countIntersections_bounds|].
    split; [|done].
    intros r' c' h' Hcan'.
    assert (Hin : Placement.mk r' c' h'
      (countIntersections grid (WordClue.answer w) r' c' h') ∈ best :: rest).
    { apply Hexact. by split. }
    rewrite <- Hk.
    apply elem_of_cons in Hin as [<-|Hin]; [done|].
    apply StronglySorted_inv in Hsorted as [_ Hall].
    rewrite Forall_forall in Hall.
    apply Hall in Hin. unfold moreIntersections in Hin.
    by simpl in Hin.
Qed.

Lemma placeBest_takes_most_intersections_witness :
  (∀ r c h, canPlaceWord nekoGrid (WordClue.answer (word koto)) r c h true
            = false) ∧
  placeBest (nekoGrid, [])
    (word koto) (findPlacements nekoGrid (WordClue.answer (word koto)) true)
  = (nekoGrid, [])
  ∨ ∃ r c h,
      canPlaceWord nekoGrid (WordClue.answer (word koto)) r c h true = true
      ∧ 1 ≤ countIntersections nekoGrid (WordClue.answer (word koto)) r c h
      ∧ (∀ r' c' h',
           canPlaceWord nekoGrid (WordClue.answer (word koto)) r' c' h' true
           = true →
           countIntersections nekoGrid (WordClue.answer (word koto)) r' c' h'
           ≤ countIntersections nekoGrid (WordClue.answer (word koto)) r c h)
      ∧ placeBest (nekoGrid, []) (word koto)
          (findPlacements nekoGrid (WordClue.answer (word koto)) true)
        = (placeWord nekoGrid (WordClue.answer (word koto)) r c h,
           [] ++ [Placed.mk (word koto) r c h]).
Proof.
  exact (placeBest_takes_most_intersections 5 nekoGrid [] (word koto)
           nekoGrid_wf).
Defined.

Lemma scanPlacements_elem n grid word p :
  wfGrid n grid →
  (p ∈ scanPlacements grid word ↔
   Placement.row p < n ∧ Placement.col p < n
   ∧ canPlaceWord grid word (Placement.row p) (Placement.col p)
       (Placement.horizontal p) false = true
   ∧ Placement.intersections p = 0).
Proof.
  intros [Hlen _]. unfold scanPlacements. rewrite Hlen. split.
  - intros (r & Hr%in_seq & Hp)%list_elem_of_In%in_flat_map.
    apply in_flat_map in Hp as (c & Hc%in_seq & Hp).
    apply list_elem_of_In, elem_of_app in Hp as [Hp|Hp].
    + destruct (canPlaceWord grid word r c true false) eqn:E;
        [|by apply elem_of_nil in Hp].
      apply list_elem_of_singleton in Hp as ->. simpl. repeat split; [lia|lia|done].
    + destruct (canPlaceWord grid word r c false false) eqn:E;
        [|by apply elem_of_nil in Hp].
      apply list_elem_of_singleton in Hp as ->. simpl. repeat split; [lia|lia|done].
  - destruct p as [r c h k]. simpl. intros (Hr & Hc & Hcan & ->).
    apply list_elem_of_In, in_flat_map. exists r. split; [apply in_seq; lia|].
    apply in_flat_map. exists c. split; [apply in_seq; lia|].
    apply list_elem_of_In, elem_of_app.
    destruct h; [left|right]; rewrite Hcan; by left.
Qed.

(** A run that [canPlaceWord] accepts and that meets no letter meets
    nothing. *)
Lemma countIntersections_free grid word r c h :
  canPlaceWord grid word r c h false = true →
  canPlaceWord grid word r c h true = false →
  countIntersections grid word r c h = 0.
Proof.
  intros Hcan Hno. apply countFrom_zero. intros k Hk. simpl.
  destruct (lookup_lt_is_Some_2 word k Hk) as [ch Hch].
  apply canPlaceWord_spec in Hcan as Hp.
  destruct Hp as (_ & _ & Hfits & _).
  destruct (Hfits k ch Hch) as [Hl|[Hb _]].
  - exfalso. assert (canPlaceWord grid word r c h true = true); [|congruence].
    apply canPlaceWord_intersects. split; [done|]. by exists k, ch.
  - by apply notNull_false.
Qed.

Lemma canPlaceWord_start n grid word r c h req :
  wfGrid n grid → word ≠ [] →
  canPlaceWord grid word r c h req = true → r < n ∧ c < n.
Proof.
  intros [_ Hcells] Hne (_ & _ & Hfits & _)%canPlaceWord_spec.
  destruct word as [|ch rest]; [done|].
  specialize (Hfits 0 ch eq_refl). apply Hcells.
  unfold cellFits, letter, blocked, runRow, runCol in Hfits.
  destruct h; rewrite ?Nat.add_0_r in Hfits;
    destruct Hfits as [->|[-> _]]; done.
Qed.

Lemma findPlacements_elem_free n grid word p :
  wfGrid n grid → word ≠ [] →
  (p ∈ findPlacements grid word false ↔
   canPlaceWord grid word (Placement.row p) (Placement.col p)
     (Placement.horizontal p) false = true
   ∧ Placement.intersections p
     = countIntersections grid word (Placement.row p) (Placement.col p)
         (Placement.horizontal p)
   ∧ (canPlaceWord grid word (Placement.row p) (Placement.col p)
        (Placement.horizontal p) true = true
      ∨ ∀ r c h, canPlaceWord grid word r c h true = false)).
Proof.
  intros Hwf Hne. unfold findPlacements. rewrite sortBy_elem_of.
  rewrite andb_true_r.
  assert (Hint : ∀ q, q ∈ intersectingPlacements grid word false ↔
    canPlaceWord grid word (Placement.row q) (Placement.col q)
      (Placement.horizontal q) true = true
    ∧ Placement.intersections q
      = countIntersections grid word (Placement.row q) (Placement.col q)
          (Placement.horizontal q)).
  { intros q. split.
    - intros (H1 & H2 & H3)%intersectingPlacements_sound.
      split; [|done]. by apply canPlaceWord_intersects.
    - intros [(Hcan & i & ch & Hi & Hl)%canPlaceWord_intersects Hk].
      destruct q as [r0 c0 h k]. simpl in *. subst k.
      by eapply intersectingPlacements_complete. }
  destruct (intersectingPlacements grid word false) as [|q0 l] eqn:El; simpl.
  - assert (Hnone : ∀ r c h, canPlaceWord grid word r c h true = false).
    { intros r c h. destruct (canPlaceWord grid word r c h true) eqn:E; [|done].
      assert (Hq : Placement.mk r c h (countIntersections grid word r c h) ∈ [])
        by (by apply Hint).
      by apply elem_of_nil in Hq. }
    rewrite (scanPlacements_elem n) by done. split.
    + intros (Hr & Hc & Hcan & Hk). split; [done|].
      split; [|by right]. rewrite Hk. symmetry.
      by apply countIntersections_free.
    + intros (Hcan & Hk & _).
      destruct (canPlaceWord_start n grid word _ _ _ _ Hwf Hne Hcan) as [Hr Hc].
      repeat split; try done. rewrite Hk.
      by apply countIntersections_free.
  - rewrite Hint. split.
    + intros [Hcan Hk]. split; [by apply canPlaceWord_intersects in Hcan as [? _]|].
      split; [done|by left].
    + intros (Hcan & Hk & [Htrue|Hnone]); [done|].
      exfalso. assert (Hq : q0 ∈ q0 :: l) by by left.
      apply Hint in Hq as [Hq _]. by rewrite Hnone in Hq.
Qed.

(** X5. On a square grid, the list that [findPlacements] returns for a
    word of one grapheme or more when no intersection is required holds
    the accepted positions that cross a letter; only when there is none
    does it hold the other accepted positions, which cross nothing. *)
Theorem findPlacements_without_requirement (n : nat) (grid : Grid)
    (word : jsstring) (p : Placement.t) :
  wfGrid n grid → word ≠ [] →
  (p ∈ findPlacements grid word false ↔
   canPlaceWord grid word (Placement.row p) (Placement.col p)
     (Placement.horizontal p) false = true
   ∧ Placement.intersections p
     = countIntersections grid word (Placement.row p) (Placement.col p)
         (Placement.horizontal p)
   ∧ (canPlaceWord grid word (Placement.row p) (Placement.col p)
        (Placement.horizontal p) true = true
      ∨ ∀ r c h, canPlaceWord grid word r c h true = false)).
Proof. apply findPlacements_elem_free. Qed.

Lemma findPlacements_without_requirement_witness :
  Placement.mk 0 0 true 0 ∈ findPlacements nekoGrid tori false ↔
  canPlaceWord nekoGrid tori 0 0 true false = true
  ∧ 0 = countIntersections nekoGrid tori 0 0 true
  ∧ (canPlaceWord nekoGrid tori 0 0 true true = true
     ∨ ∀ r c h, canPlaceWord nekoGrid tori r c h true = false).
Proof.
  apply (findPlacements_without_requirement 5 nekoGrid tori
           (Placement.mk 0 0 true 0) nekoGrid_wf).
  vm_compute. discriminate.
Defined.

(** ** Writing a word *)

Lemma fill_row rowv : ∀ filled,
  foldl (λ filled (cell : option N),
    if cell is Some _ then S filled else filled) filled rowv
  = filled + lettersIn rowv.
Proof.
  induction rowv as [|cell rowv IH]; intros filled; simpl; [lia|].
  rewrite IH. destruct cell; simpl; lia.
Qed.

Lemma fill_rows grid : ∀ a,
  foldl (λ filled rowv,
      foldl (λ filled (cell : option N),
        if cell is Some _ then S filled else filled) filled rowv) a grid
  = a + sum_list (map lettersIn grid).
Proof.
  induction grid as [|rowv grid IH]; intros b; simpl; [lia|].
  rewrite IH, fill_row. lia.
Qed.

Lemma filledCells_sum grid : filledCells grid = sum_list (map lettersIn grid).
Proof. unfold filledCells. by rewrite fill_rows. Qed.

Lemma total_row (rowv : list (option N)) : ∀ total,
  foldl (λ total (_ : option N), S total) total rowv = total + length rowv.
Proof.
  induction rowv as [|cell rowv IH]; intros total; simpl; [lia|].
  rewrite IH. lia.
Qed.

Lemma total_rows (grid : Grid) : ∀ a,
  foldl (λ total rowv, foldl (λ total (_ : option N), S total) total rowv)
    a grid
  = a + sum_list (map length grid).
Proof.
  induction grid as [|rowv grid IH]; intros b; simpl; [lia|].
  rewrite IH, total_row. lia.
Qed.

Lemma totalCells_sum grid : totalCells grid = sum_list (map length grid).
Proof. unfold totalCells. by rewrite total_rows. Qed.

Lemma wfGrid_rows n grid rowv : wfGrid n grid → rowv ∈ grid → length rowv = n.
Proof.
  intros [Hlen Hcells] (r & Hr)%list_elem_of_lookup_1.
  pose proof (lookup_lt_Some _ _ _ Hr) as Hrn. rewrite Hlen in Hrn.
  destruct (Nat.lt_trichotomy (length rowv) n) as [Hlt|[?|Hgt]]; [|done|].
  - destruct (proj2 (Hcells r (length rowv)) (conj Hrn Hlt)) as [v Hv].
    unfold cellAt in Hv. rewrite Hr in Hv. simpl in Hv.
    apply lookup_lt_Some in Hv. lia.
  - destruct (lookup_lt_is_Some_2 rowv n Hgt) as [v Hv].
    assert (is_Some (cellAt grid r n)) as Hs.
    { unfold cellAt. rewrite Hr. simpl. by rewrite Hv. }
    apply Hcells in Hs. lia.
Qed.

Lemma totalCells_square n grid : wfGrid n grid → totalCells grid = n * n.
Proof.
  intros Hwf. rewrite totalCells_sum.
  assert (Hall : Forall (λ rowv, length rowv = n) grid).
  { apply Forall_forall. intros rowv. by apply wfGrid_rows. }
  destruct Hwf as [Hlen _]. rewrite <- Hlen at 1. clear -Hall.
  induction Hall as [|rowv rows Hr _ IH]; simpl; [done|].
  rewrite Hr, IH. lia.
Qed.

Lemma lettersIn_length rowv : lettersIn rowv ≤ length rowv.
Proof. induction rowv as [|[g|] rowv IH]; simpl; lia. Qed.

Lemma filledCells_le grid : filledCells grid ≤ totalCells grid.
Proof.
  rewrite filledCells_sum, totalCells_sum.
  induction grid as [|rowv grid IH]; simpl; [done|].
  pose proof (lettersIn_length rowv). lia.
Qed.

Lemma lettersIn_insert rowv c ch :
  c < length rowv →
  lettersIn (<[c := Some ch]> rowv)
  = lettersIn rowv + (if rowv !! c is Some None then 1 else 0).
Proof.
  revert c. induction rowv as [|cell rowv IH]; intros c Hc; simpl in Hc; [lia|].
  destruct c as [|c]; simpl.
  - destruct cell; simpl; lia.
  - specialize (IH c ltac:(lia)). destruct cell; simpl; lia.
Qed.

Lemma filledCells_setCell grid r c ch :
  is_Some (cellAt grid r c) →
  filledCells (setCell grid r c ch)
  = filledCells grid + (if notNull grid r c then 0 else 1).
Proof.
  unfold notNull, cellAt, setCell. rewrite !filledCells_sum.
  revert r. induction grid as [|rowv grid IH]; intros r Hs; [by destruct Hs|].
  destruct r as [|r]; simpl in *.
  - destruct Hs as [v Hv]. pose proof (lookup_lt_Some _ _ _ Hv) as Hc.
    rewrite lettersIn_insert by done. rewrite Hv.
    destruct v; lia.
  - specialize (IH r Hs). unfold alter in IH. lia.
Qed.

Lemma countFrom_ext grid grid' row col h chars : ∀ i,
  (∀ k, k < length chars →
     cellAt grid' (runRow row h (i + k)) (runCol col h (i + k))
     = cellAt grid (runRow row h (i + k)) (runCol col h (i + k))) →
  countFrom grid' row col h chars i 0 = countFrom grid row col h chars i 0.
Proof.
  induction chars as [|ch rest IH]; intros i Heq; simpl; [done|].
  pose proof (Heq 0 ltac:(simpl; lia)) as H0. rewrite Nat.add_0_r in H0.
  assert (Hn : notNull grid' (runRow row h i) (runCol col h i)
               = notNull grid (runRow row h i) (runCol col h i))
    by (unfold notNull; by rewrite H0).
  rewrite Hn, (countFrom_acc grid'), (countFrom_acc grid). f_equal.
  apply IH. intros k Hk. replace (S i + k) with (i + S k) by lia.
  apply Heq. simpl. lia.
Qed.

Lemma placeFrom_fills row col h chars : ∀ grid i,
  (∀ k, k < length chars →
     is_Some (cellAt grid (runRow row h (i + k)) (runCol col h (i + k)))) →
  filledCells (placeFrom grid row col h chars i)
  + countFrom grid row col h chars i 0
  = filledCells grid + length chars.
Proof.
  induction chars as [|ch rest IH]; intros grid i Hin; simpl; [lia|].
  pose proof (Hin 0 ltac:(simpl; lia)) as H0. rewrite Nat.add_0_r in H0.
  specialize (IH (setCell grid (runRow row h i) (runCol col h i) ch) (S i)).
  rewrite filledCells_setCell in IH by done.
  rewrite (countFrom_ext grid) in IH.
  - rewrite countFrom_acc.
    assert (Hrest : ∀ k, k < length rest →
      is_Some (cellAt (setCell grid (runRow row h i) (runCol col h i) ch)
                 (runRow row h (S i + k)) (runCol col h (S i + k)))).
    { intros k Hk. apply is_Some_cellAt_setCell.
      replace (S i + k) with (i + S k) by lia. apply Hin. simpl. lia. }
    specialize (IH Hrest). destruct (notNull grid _ _); lia.
  - intros k Hk. apply cellAt_setCell_ne.
    intros Heq. apply runCell_inj in Heq. lia.
Qed.

Lemma runInBounds_cells n grid len row col h i :
  wfGrid n grid → row < n → col < n →
  runInBounds grid len row col h → i < len →
  is_Some (cellAt grid (runRow row h i) (runCol col h i)).
Proof.
  intros [Hlen Hcells] Hr Hc Hin Hi. apply Hcells.
  unfold runInBounds in Hin. rewrite Hlen in Hin.
  unfold runRow, runCol. destruct h; lia.
Qed.

(** X6. Writing a word inside a square grid fills as many new cells as
    the word has graphemes beyond the letter cells it crosses
    ([countIntersections] before the write), and the grid keeps its
    [n * n] cells. *)
Theorem placeWord_fills_new_cells (n : nat) (grid : Grid) (word : jsstring)
    (row col : nat) (horizontal : bool) :
  wfGrid n grid → row < n → col < n →
  runInBounds grid (length word) row col horizontal →
  filledCells (placeWord grid word row col horizontal)
  + countIntersections grid word row col horizontal
  = filledCells grid + length word
  ∧ totalCells (placeWord grid word row col horizontal) = n * n
  ∧ filledCells (placeWord grid word row col horizontal) ≤ n * n.
Proof.
  intros Hwf Hr Hc Hin.
  assert (Hwf' : wfGrid n (placeWord grid word row col horizontal))
    by by apply placeWord_wf.
  split; [|split].
  - apply placeFrom_fills. intros k Hk. simpl.
    by eapply runInBounds_cells.
  - by apply totalCells_square.
  - rewrite <- (totalCells_square n _ Hwf'). apply filledCells_le.
Qed.

(** X7. Writing a word inside a square grid and reading it back: the
    grid stays square, each cell of the run holds the grapheme of its
    index, and every other cell is as it was. *)
Theorem placeWord_read_back (n : nat) (grid : Grid) (word : jsstring)
    (row col : nat) (horizontal : bool) :
  wfGrid n grid → row < n → col < n →
  runInBounds grid (length word) row col horizontal →
  wfGrid n (placeWord grid word row col horizontal)
  ∧ (∀ i ch, word !! i = Some ch →
       cellAt (placeWord grid word row col horizontal)
         (runRow row horizontal i) (runCol col horizontal i)
       = Some (Some ch))
  ∧ (∀ r c, ¬ inRun row col horizontal (length word) r c →
       cellAt (placeWord grid word row col horizontal) r c = cellAt grid r c).
Proof.
  intros Hwf Hr Hc Hin. split; [by apply placeWord_wf|]. split.
  - intros i ch Hi. apply placeWord_written; [done|].
    eapply runInBounds_cells; try done. by eapply lookup_lt_Some.
  - intros r c Hout. apply placeWord_other. intros i Hi [= -> ->].
    apply Hout, inRun_index. by exists i.
Qed.

Lemma placeWord_read_back_witness :
  wfGrid 5 (placeWord (emptyGrid 5) neko 2 1 true)
  ∧ (∀ i ch, neko !! i = Some ch →
       cellAt (placeWord (emptyGrid 5) neko 2 1 true)
         (runRow 2 true i) (runCol 1 true i)
       = Some (Some ch))
  ∧ (∀ r c, ¬ inRun 2 1 true (length neko) r c →
       cellAt (placeWord (emptyGrid 5) neko 2 1 true) r c
       = cellAt (emptyGrid 5) r c).
Proof.
  apply (placeWord_read_back 5 (emptyGrid 5) neko 2 1 true).
  - apply emptyGrid_wf.
  - lia.
  - lia.
  - vm_compute. lia.
Defined.

Lemma placeWord_fills_new_cells_witness :
  filledCells (placeWord nekoGrid koto 2 2 false)
  + countIntersections nekoGrid koto 2 2 false
  = filledCells nekoGrid + length koto
  ∧ totalCells (placeWord nekoGrid koto 2 2 false) = 5 * 5
  ∧ filledCells (placeWord nekoGrid koto 2 2 false) ≤ 5 * 5.
Proof.
  apply (placeWord_fills_new_cells 5 nekoGrid koto 2 2 false).
  - apply nekoGrid_wf.
  - lia.
  - lia.
  - vm_compute. lia.
Defined.

Lemma canPlaceWord_any grid word row col h req :
  canPlaceWord grid word row col h req = true →
  placeable grid word row col h false.
Proof.
  intros (H1 & H2 & H3 & _)%canPlaceWord_spec. repeat split; done.
Qed.

Lemma placeWord_caps n grid word row col h :
  wfGrid n grid → placeable grid word row col h false →
  capsBlocked (placeWord grid word row col h) (length word) row col h.
Proof.
  intros Hwf Hplace.
  pose proof Hplace as (_ & Hcaps & _).
  assert (Hlen : length (placeWord grid word row col h) = length grid).
  { destruct (placeWord_wf n grid word row col h Hwf) as [-> _].
    by destruct Hwf as [-> _]. }
  unfold capsBlocked in *. rewrite Hlen. unfold blocked in *.
  destruct h; destruct Hcaps as [Hb Ha]; split; intros Hin;
    (rewrite placeWord_other;
     [auto|intros i Hi; unfold runRow, runCol; intros [= ?]; lia]).
Qed.

(** X8. Writing a word where [canPlaceWord] accepts it, on a square
    grid, changes no letter: every letter of the grid stays, the letter
    cells afterwards are those of before and the cells of the word, and
    the cell before the word and the cell after it are still blocked. *)
Theorem accepted_placement_keeps_letters (n : nat) (grid : Grid)
    (word : jsstring) (row col : nat) (horizontal requireIntersection : bool) :
  wfGrid n grid →
  canPlaceWord grid word row col horizontal requireIntersection = true →
  (∀ r c g, letter grid r c g →
     letter (placeWord grid word row col horizontal) r c g)
  ∧ (∀ r c, isLetter (placeWord grid word row col horizontal) r c ↔
       isLetter grid r c ∨ inRun row col horizontal (length word) r c)
  ∧ capsBlocked (placeWord grid word row col horizontal) (length word)
      row col horizontal.
Proof.
  intros Hwf Hplace%canPlaceWord_any. split; [|split].
  - intros r c g. by apply (step_keeps grid word row col horizontal).
  - intros r c. split.
    + intros Hl.
      destruct (decide (inRun row col horizontal (length word) r c))
        as [Hin|Hout]; [by right|left].
      by eapply step_other_letter.
    + intros [[g Hg]|Hin].
      * exists g. by apply (step_keeps grid word row col horizontal).
      * by apply (step_in_run grid word row col horizontal).
  - by eapply placeWord_caps.
Qed.

Lemma accepted_placement_keeps_letters_witness :
  canPlaceWord nekoGrid koto 2 2 false true = true
  ∧ (∀ r c g, letter nekoGrid r c g →
       letter (placeWord nekoGrid koto 2 2 false) r c g)
  ∧ (∀ r c, isLetter (placeWord nekoGrid koto 2 2 false) r c ↔
       isLetter nekoGrid r c ∨ inRun 2 2 false (length koto) r c)
  ∧ capsBlocked (placeWord nekoGrid koto 2 2 false) (length koto) 2 2 false.
Proof.
  assert (H : canPlaceWord nekoGrid koto 2 2 false true = true)
    by (vm_compute; reflexivity).
  split; [exact H|].
  exact (accepted_placement_keeps_letters 5 nekoGrid koto 2 2 false true
           nekoGrid_wf H).
Defined.

(** ** The returned puzzle *)

Lemma cellHasLetter_build size best r c :
  cellHasLetter (buildResult size best) r c = true
  ↔ isLetter (Attempt.grid best) r c.
Proof.
  rewrite <- (isLetterCell_build size). unfold cellHasLetter, isLetterCell, letterCell.
  destruct (resultCell _ r c) as [cell|].
  - destruct (GridCell.letter cell) as [g|] eqn:E; split; try done.
    + intros _. exists g, cell. by split.
    + intros (g & cell' & [= <-] & Hg). congruence.
  - split; [done|]. by intros (g & cell' & ? & _).
Qed.

Lemma wf_notNull n grid r c :
  wfGrid n grid → r < n → c < n →
  notNull grid r c = true ↔ isLetter grid r c.
Proof.
  intros [_ Hcells] Hr Hc.
  destruct (proj2 (Hcells r c) (conj Hr Hc)) as [v Hv].
  unfold notNull, isLetter, letter. rewrite Hv.
  destruct v as [g|]; split; try done.
  - intros _. by exists g.
  - by intros [g ?].
Qed.

Lemma wf_isNull n grid r c :
  wfGrid n grid → r < n → c < n →
  isNull grid r c = true ↔ ¬ isLetter grid r c.
Proof.
  intros [_ Hcells] Hr Hc.
  destruct (proj2 (Hcells r c) (conj Hr Hc)) as [v Hv].
  unfold isNull, isLetter, letter. rewrite Hv.
  destruct v as [g|]; split.
  - done.
  - intros H. exfalso. apply H. by exists g.
  - intros _ [g' ?]. done.
  - done.
Qed.

Lemma bool_eq_iff (a b : bool) : (a = true ↔ b = true) → a = b.
Proof. destruct a, b; intros [H1 H2]; try done; [by rewrite H1|by rewrite H2]. Qed.

Lemma startsWord_build size best r c :
  wfGrid size (Attempt.grid best) → r < size → c < size →
  startsWord (Attempt.grid best) size r c
  = startsRun (buildResult size best) r c.
Proof.
  intros Hwf Hr Hc. unfold startsWord, startsRun, isHorizontalStart,
    isVerticalStart.
  pose proof (λ r c, cellHasLetter_build size best r c) as Hl.
  assert (Hout : ∀ r c, ¬ (r < size ∧ c < size) →
            cellHasLetter (buildResult size best) r c = false).
  { intros r' c' Hno. destruct (cellHasLetter _ r' c') eqn:E; [|done].
    apply Hl, (wfGrid_letter _ _ _ _ Hwf) in E. done. }
  assert (Hn : ∀ r c, r < size → c < size →
            notNull (Attempt.grid best) r c
            = cellHasLetter (buildResult size best) r c).
  { intros r' c' Hr' Hc'. apply bool_eq_iff.
    rewrite Hl. by apply (wf_notNull size). }
  assert (Hz : ∀ r c, r < size → c < size →
            isNull (Attempt.grid best) r c
            = negb (cellHasLetter (buildResult size best) r c)).
  { intros r' c' Hr' Hc'. apply bool_eq_iff.
    rewrite negb_true_iff, <- not_true_iff_false, Hl. by apply (wf_isNull size). }
  rewrite Hn by done. f_equal. f_equal.
  - destruct (Nat.eqb_spec c 0) as [->|Hc0]; simpl.
    + destruct (Nat.ltb_spec 0 (size - 1)); simpl.
      * rewrite Hn by lia. done.
      * symmetry. apply Hout. lia.
    + rewrite Hz by lia. f_equal.
      destruct (Nat.ltb_spec c (size - 1)); simpl.
      * rewrite Hn by lia. done.
      * symmetry. apply Hout. lia.
  - destruct (Nat.eqb_spec r 0) as [->|Hr0]; simpl.
    + destruct (Nat.ltb_spec 0 (size - 1)); simpl.
      * rewrite Hn by lia. done.
      * symmetry. apply Hout. lia.
    + rewrite Hz by lia. f_equal.
      destruct (Nat.ltb_spec r (size - 1)); simpl.
      * rewrite Hn by lia. done.
      * symmetry. apply Hout. lia.
Qed.

Lemma cellNumber_build size best r c :
  wfGrid size (Attempt.grid best) →
  cellNumber (buildResult size best) r c
  = if (r <? size) && (c <? size)
    then if numberAt (assignNumbers (Attempt.grid best) size).1 r c is 0
         then None
         else Some (numberAt (assignNumbers (Attempt.grid best) size).1 r c)
    else None.
Proof.
  intros [_ Hcells]. unfold cellNumber. rewrite resultCell_build.
  destruct (Nat.ltb_spec r size) as [Hr|Hr];
    destruct (Nat.ltb_spec c size) as [Hc|Hc]; simpl.
  - destruct (proj2 (Hcells r c) (conj Hr Hc)) as [v ->]. done.
  - destruct (cellAt _ r c) eqn:E; [|done].
    assert (is_Some (cellAt (Attempt.grid best) r c)) as Hs by by rewrite E.
    apply Hcells in Hs. lia.
  - destruct (cellAt _ r c) eqn:E; [|done].
    assert (is_Some (cellAt (Attempt.grid best) r c)) as Hs by by rewrite E.
    apply Hcells in Hs. lia.
  - destruct (cellAt _ r c) eqn:E; [|done].
    assert (is_Some (cellAt (Attempt.grid best) r c)) as Hs by by rewrite E.
    apply Hcells in Hs. lia.
Qed.

Lemma startsBeforeIn_ext starts starts' x l :
  (∀ y, y ∈ l → starts y = starts' y) →
  startsBeforeIn starts x l = startsBeforeIn starts' x l.
Proof.
  induction l as [|y l IH]; intros Heq; simpl; [done|].
  destruct (decide (y = x)); [done|].
  rewrite (Heq y) by by left. rewrite IH; [done|].
  intros z Hz. apply Heq. by right.
Qed.

Lemma returned_number size best r c :
  wfGrid size (Attempt.grid best) →
  cellNumber (buildResult size best) r c
  = if (r <? size) && (c <? size) && startsRun (buildResult size best) r c
    then Some (S (startsBeforeIn
                    (λ x, startsRun (buildResult size best) x.1 x.2)
                    (r, c) (readingOrder size)))
    else None.
Proof.
  intros Hwf. rewrite cellNumber_build by done.
  rewrite numbering_in_reading_order.
  destruct (Nat.ltb_spec r size) as [Hr|Hr]; [|done].
  destruct (Nat.ltb_spec c size) as [Hc|Hc]; [|done]. simpl.
  rewrite startsWord_build by done.
  destruct (startsRun _ r c); [|done].
  unfold startsBefore. f_equal. f_equal.
  apply startsBeforeIn_ext. intros [r' c'] [Hr' Hc']%elem_of_readingOrder.
  simpl. by apply startsWord_build.
Qed.

(** X9. In the puzzle that [generateCrossword] returns, the cells
    that start a run of letters, to the right or downwards, carry the
    numbers 1, 2, 3, ... in reading order, and no other cell carries a
    number: the number of a cell is one more than the number of run starts
    before it in reading order. *)
Theorem numbers_follow_reading_order (upperCP : N → list N)
    (shuffle : nat → list WordClue.t → list WordClue.t)
    (words : list WordClue.t) (size : nat) (res : CrosswordResult.t) :
  generateCrossword upperCP shuffle words size = Returned res →
  ∀ r c,
    cellNumber res r c
    = if (r <? size) && (c <? size) && startsRun res r c
      then Some (S (startsBeforeIn (λ x, startsRun res x.1 x.2) (r, c)
                      (readingOrder size)))
      else None.
Proof.
  intros (best & Hbest & _ & ->)%generateCrossword_Returned r c.
  apply returned_number. by apply (inv_wf _ _ _ (bestAttempt_inv _ _ _ _ _ Hbest)).
Qed.

(** X10. In the puzzle that [generateCrossword] returns, no two cells
    carry the same number. *)
Theorem numbers_are_distinct (upperCP : N → list N)
    (shuffle : nat → list WordClue.t → list WordClue.t)
    (words : list WordClue.t) (size : nat) (res : CrosswordResult.t) :
  generateCrossword upperCP shuffle words size = Returned res →
  ∀ r c r' c' k,
    cellNumber res r c = Some k → cellNumber res r' c' = Some k →
    (r, c) = (r', c').
Proof.
  intros (best & Hbest & _ & ->)%generateCrossword_Returned r c r' c' k.
  pose proof (inv_wf _ _ _ (bestAttempt_inv _ _ _ _ _ Hbest)) as Hwf.
  rewrite !cellNumber_build by done.
  destruct ((r <? size) && (c <? size)); [|done].
  destruct ((r' <? size) && (c' <? size)); [|done].
  destruct (numberAt _ r c) as [|k1] eqn:E1; [done|].
  destruct (numberAt _ r' c') as [|k2] eqn:E2; [done|].
  intros [= <-] [= ->].
  destruct (decide ((r, c) = (r', c'))) as [|Hne]; [done|].
  exfalso. apply (numbers_distinct (Attempt.grid best) size r c r' c' Hne).
  - by rewrite E1.
  - by rewrite E1, E2.
Qed.

Lemma numbers_follow_reading_order_witness :
  ∃ res, generateCrossword latinUpper asIs s1Words 7 = Returned res
    ∧ ∀ r c,
        cellNumber res r c
        = if (r <? 7) && (c <? 7) && startsRun res r c
          then Some (S (startsBeforeIn (λ x, startsRun res x.1 x.2) (r, c)
                          (readingOrder 7)))
          else None.
Proof.
  eexists. split; [vm_compute; reflexivity|].
  apply (numbers_follow_reading_order latinUpper asIs s1Words 7).
  vm_compute. reflexivity.
Defined.

Lemma numbers_are_distinct_witness :
  ∃ res, generateCrossword latinUpper asIs s1Words 7 = Returned res
    ∧ ∀ r c r' c' k,
        cellNumber res r c = Some k → cellNumber res r' c' = Some k →
        (r, c) = (r', c').
Proof.
  eexists. split; [vm_compute; reflexivity|].
  apply (numbers_are_distinct latinUpper asIs s1Words 7).
  vm_compute. reflexivity.
Defined.

Lemma returned_wf upperCP shuffle words size best :
  bestAttempt upperCP shuffle words size = Some best →
  wfGrid size (Attempt.grid best).
Proof. intros H. apply (inv_wf _ _ _ (bestAttempt_inv _ _ _ _ _ H)). Qed.

Lemma resultCell_inside size best r c :
  wfGrid size (Attempt.grid best) →
  is_Some (resultCell (buildResult size best) r c) ↔ r < size ∧ c < size.
Proof.
  intros [_ Hcells]. rewrite resultCell_build, <- Hcells.
  by rewrite fmap_is_Some.
Qed.

(** X11. The puzzle that [generateCrossword] returns is square:
    [width] and [height] are [size], the grid has [size] rows of [size]
    cells, a cell is black exactly when it has no letter, and only letter
    cells carry a number, which is never 0. *)
Theorem result_is_square (upperCP : N → list N)
    (shuffle : nat → list WordClue.t → list WordClue.t)
    (words : list WordClue.t) (size : nat) (res : CrosswordResult.t) :
  generateCrossword upperCP shuffle words size = Returned res →
  CrosswordResult.width res = size
  ∧ CrosswordResult.height res = size
  ∧ length (CrosswordResult.grid res) = size
  ∧ (∀ rowv, rowv ∈ CrosswordResult.grid res → length rowv = size)
  ∧ (∀ r c cell, resultCell res r c = Some cell →
       (GridCell.isBlack cell = true ↔ GridCell.letter cell = None)
       ∧ (is_Some (GridCell.number cell) → is_Some (GridCell.letter cell))
       ∧ GridCell.number cell ≠ Some 0).
Proof.
  intros (best & Hbest & _ & ->)%generateCrossword_Returned.
  pose proof (returned_wf _ _ _ _ _ Hbest) as Hwf.
  split; [done|]. split; [done|]. split; [|split].
  - unfold buildResult, finalGridOf. simpl. rewrite length_imap.
    by destruct Hwf.
  - unfold buildResult, finalGridOf. simpl.
    intros rowv (r & rowv0 & -> & Hr)%elem_of_lookup_imap.
    rewrite length_imap. eapply wfGrid_rows; [done|].
    by eapply list_elem_of_lookup_2.
  - intros r c cell Hcell.
    assert (Hin : r < size ∧ c < size).
    { apply (resultCell_inside size best r c Hwf). by rewrite Hcell. }
    destruct Hin as [Hr Hc].
    rewrite resultCell_build in Hcell.
    destruct (cellAt (Attempt.grid best) r c) as [v|] eqn:Hv; [|done].
    injection Hcell as <-. simpl.
    split; [by destruct v|].
    rewrite numbering_in_reading_order.
    apply Nat.ltb_lt in Hr as Hr', Hc as Hc'. rewrite Hr', Hc'. simpl.
    destruct (startsWord (Attempt.grid best) size r c) eqn:Hs; [|split; [by intros [? ?]|done]].
    split; [|done]. intros _.
    unfold startsWord in Hs. apply andb_true_iff in Hs as [Hn _].
    unfold notNull in Hn. rewrite Hv in Hn. by destruct v.
Qed.

(** X12. The grid that [generateCrossword] returns spells the words it
    returns: [length] is the number of graphemes of the answer, and the
    grapheme of index [i] stands in the cell [i] steps from the start of
    the word in its direction, inside the grid. *)
Theorem grid_spells_words (upperCP : N → list N)
    (shuffle : nat → list WordClue.t → list WordClue.t)
    (words : list WordClue.t) (size : nat) (res : CrosswordResult.t) :
  generateCrossword upperCP shuffle words size = Returned res →
  ∀ w, w ∈ CrosswordResult.words res →
    PlacedWord.length w = length (PlacedWord.answer w)
    ∧ ∀ i g, PlacedWord.answer w !! i = Some g →
        (wordCell w i).1 < size ∧ (wordCell w i).2 < size
        ∧ letterCell res (wordCell w i).1 (wordCell w i).2 g.
Proof.
  intros (best & Hbest & _ & ->)%generateCrossword_Returned
         w (p & Hp & ->)%words_build.
  pose proof (bestAttempt_inv _ _ _ _ _ Hbest) as Hinv.
  split; [done|]. intros i g Hg.
  pose proof (inv_cells _ _ _ Hinv p i g Hp Hg) as Hl.
  assert (Hcell : wordCell (finalWordOf (assignNumbers (Attempt.grid best) size).1 p) i
                  = (cellRow p i, cellCol p i)).
  { unfold wordCell, cellRow, cellCol, runRow, runCol. simpl.
    by destruct (Placed.horizontal p). }
  rewrite Hcell. simpl.
  destruct (wfGrid_letter _ _ _ _ (inv_wf _ _ _ Hinv) (ex_intro _ g Hl))
    as [Hr Hc].
  repeat split; try done. by apply letterCell_build.
Qed.

Lemma result_is_square_witness :
  ∃ res, generateCrossword latinUpper asIs s1Words 7 = Returned res
    ∧ CrosswordResult.width res = 7
    ∧ CrosswordResult.height res = 7
    ∧ length (CrosswordResult.grid res) = 7
    ∧ (∀ rowv, rowv ∈ CrosswordResult.grid res → length rowv = 7)
    ∧ (∀ r c cell, resultCell res r c = Some cell →
         (GridCell.isBlack cell = true ↔ GridCell.letter cell = None)
         ∧ (is_Some (GridCell.number cell) → is_Some (GridCell.letter cell))
         ∧ GridCell.number cell ≠ Some 0).
Proof.
  eexists. split; [vm_compute; reflexivity|].
  apply (result_is_square latinUpper asIs s1Words 7).
  vm_compute. reflexivity.
Defined.

Lemma grid_spells_words_witness :
  ∃ res, generateCrossword latinUpper asIs s1Words 7 = Returned res
    ∧ ∀ w, w ∈ CrosswordResult.words res →
        PlacedWord.length w = length (PlacedWord.answer w)
        ∧ ∀ i g, PlacedWord.answer w !! i = Some g →
            (wordCell w i).1 < 7 ∧ (wordCell w i).2 < 7
            ∧ letterCell res (wordCell w i).1 (wordCell w i).2 g.
Proof.
  eexists. split; [vm_compute; reflexivity|].
  apply (grid_spells_words latinUpper asIs s1Words 7).
  vm_compute. reflexivity.
Defined.

Lemma wf_letter_of_not_null n grid r c :
  wfGrid n grid → r < n → c < n → isNull grid r c = false → isLetter grid r c.
Proof.
  intros [_ Hcells] Hr Hc.
  destruct (proj2 (Hcells r c) (conj Hr Hc)) as [v Hv].
  unfold isNull, isLetter, letter. rewrite Hv.
  destruct v as [g|]; [|done]. intros _. by exists g.
Qed.

(** A placed word of two graphemes or more starts a run, unless the cell
    before it holds a letter. *)
Lemma placed_start n grid placed p :
  attemptInv n grid placed → p ∈ placed → 2 ≤ length (wordOf p) →
  startsWord grid n (Placed.row p) (Placed.col p) = true
  ∨ startsWord grid n (Placed.row p) (Placed.col p) = false
    ∧ if Placed.horizontal p
      then 0 < Placed.col p ∧ isLetter grid (Placed.row p) (Placed.col p - 1)
      else 0 < Placed.row p ∧ isLetter grid (Placed.row p - 1) (Placed.col p).
Proof.
  intros Hinv Hp Hlen.
  pose proof (inv_wf _ _ _ Hinv) as Hwf.
  destruct (lookup_lt_is_Some_2 (wordOf p) 0) as [g0 Hg0]; [lia|].
  destruct (lookup_lt_is_Some_2 (wordOf p) 1) as [g1 Hg1]; [lia|].
  pose proof (inv_cells _ _ _ Hinv p 0 g0 Hp Hg0) as L0.
  pose proof (inv_cells _ _ _ Hinv p 1 g1 Hp Hg1) as L1.
  unfold cellRow, cellCol, runRow, runCol in L0, L1.
  destruct (startsWord grid n (Placed.row p) (Placed.col p)) eqn:Hs;
    [by left|right; split; [done|]].
  unfold startsWord in Hs.
  destruct (Placed.horizontal p); rewrite ?Nat.add_0_r in L0.
  - rewrite (notNull_true_letter _ _ _ _ L0) in Hs. simpl in Hs.
    apply orb_false_iff in Hs as [Hs _]. unfold isHorizontalStart in Hs.
    destruct (wfGrid_letter _ _ _ _ Hwf (ex_intro _ g1 L1)) as [Hr Hc].
    rewrite (notNull_true_letter _ _ _ _ L1) in Hs.
    rewrite (proj2 (Nat.ltb_lt _ _)) in Hs by lia.
    rewrite !andb_true_r in Hs. apply orb_false_iff in Hs as [Hc0 Hnull].
    apply Nat.eqb_neq in Hc0. split; [lia|].
    apply (wf_letter_of_not_null n); [done|done|lia|done].
  - rewrite (notNull_true_letter _ _ _ _ L0) in Hs. simpl in Hs.
    apply orb_false_iff in Hs as [_ Hs]. unfold isVerticalStart in Hs.
    destruct (wfGrid_letter _ _ _ _ Hwf (ex_intro _ g1 L1)) as [Hr Hc].
    rewrite (notNull_true_letter _ _ _ _ L1) in Hs.
    rewrite (proj2 (Nat.ltb_lt _ _)) in Hs by lia.
    rewrite !andb_true_r in Hs. apply orb_false_iff in Hs as [Hr0 Hnull].
    apply Nat.eqb_neq in Hr0. split; [lia|].
    apply (wf_letter_of_not_null n); [done|lia|done|done].
Qed.

(** X13. In the puzzle that [generateCrossword] returns, the [position]
    of a word is the number in its starting cell, one or more, unless the
    cell before its first grapheme holds a letter and no run starts in the
    starting cell: then the cell has no number and the position is 0. *)
Theorem position_is_start_number_or_zero (upperCP : N → list N)
    (shuffle : nat → list WordClue.t → list WordClue.t)
    (words : list WordClue.t) (size : nat) (res : CrosswordResult.t) :
  (∀ k l, shuffle k l ≡ₚ l) →
  generateCrossword upperCP shuffle words size = Returned res →
  ∀ w, w ∈ CrosswordResult.words res →
    (1 ≤ PlacedWord.position w
     ∧ cellNumber res (PlacedWord.startRow w) (PlacedWord.startCol w)
       = Some (PlacedWord.position w))
    ∨ (PlacedWord.position w = 0
       ∧ cellNumber res (PlacedWord.startRow w) (PlacedWord.startCol w) = None
       ∧ ∃ r c, cellBefore w = Some (r, c) ∧ isLetterCell res r c).
Proof.
  intros Hperm Hgen w Hw.
  destruct (returned_answer_origin upperCP shuffle Hperm words size res w Hgen Hw)
    as (_ & _ & _ & Hlen & _).
  apply generateCrossword_Returned in Hgen as (best & Hbest & _ & ->).
  apply words_build in Hw as (p & Hp & ->).
  pose proof (bestAttempt_inv _ _ _ _ _ Hbest) as Hinv.
  pose proof (inv_wf _ _ _ Hinv) as Hwf.
  cbn [finalWordOf PlacedWord.answer] in Hlen.
  destruct (lookup_lt_is_Some_2 (wordOf p) 0) as [g0 Hg0]; [unfold wordOf; lia|].
  pose proof (inv_cells _ _ _ Hinv p 0 g0 Hp Hg0) as L0.
  destruct (wfGrid_letter _ _ _ _ Hwf (ex_intro _ g0 L0)) as [Hr Hc].
  unfold cellRow, cellCol, runRow, runCol in Hr, Hc.
  assert (Hr' : Placed.row p < size) by (destruct (Placed.horizontal p); lia).
  assert (Hc' : Placed.col p < size) by (destruct (Placed.horizontal p); lia).
  cbn [finalWordOf PlacedWord.position PlacedWord.startRow PlacedWord.startCol].
  rewrite cellNumber_build by done.
  apply Nat.ltb_lt in Hr' as Hrb, Hc' as Hcb. rewrite Hrb, Hcb. simpl.
  rewrite numbering_in_reading_order. rewrite Hrb, Hcb. simpl.
  destruct (placed_start size _ _ p Hinv Hp) as [Hs|[Hs Hbefore]];
    [done| |]; rewrite Hs.
  - left. split; [lia|done].
  - right. split; [done|]. split; [done|].
    unfold cellBefore. cbn [finalWordOf PlacedWord.orientation
      PlacedWord.startRow PlacedWord.startCol].
    destruct (Placed.horizontal p); destruct Hbefore as [Hpos Hl].
    + destruct (Placed.col p) as [|c]; [lia|].
      exists (Placed.row p), c. split; [done|].
      apply isLetterCell_build. by replace (S c - 1) with c in Hl by lia.
    + destruct (Placed.row p) as [|r]; [lia|].
      exists r, (Placed.col p). split; [done|].
      apply isLetterCell_build. by replace (S r - 1) with r in Hl by lia.
Qed.

Lemma position_is_start_number_or_zero_witness :
  ∃ res, generateCrossword latinUpper asIs s1Words 7 = Returned res
    ∧ ∀ w, w ∈ CrosswordResult.words res →
        (1 ≤ PlacedWord.position w
         ∧ cellNumber res (PlacedWord.startRow w) (PlacedWord.startCol w)
           = Some (PlacedWord.position w))
        ∨ (PlacedWord.position w = 0
           ∧ cellNumber res (PlacedWord.startRow w) (PlacedWord.startCol w)
             = None
           ∧ ∃ r c, cellBefore w = Some (r, c) ∧ isLetterCell res r c).
Proof.
  eexists. split; [vm_compute; reflexivity|].
  apply (position_is_start_number_or_zero latinUpper asIs s1Words 7).
  - apply asIs_permutes.
  - vm_compute. reflexivity.
Defined.

(** ** Where the result comes from *)

Lemma uniqueWords_elem upperCP words size w :
  w ∈ uniqueWords upperCP words size →
  2 ≤ length (WordClue.answer w) ≤ size.
Proof.
  intros (w0 & _ & _ & Hlen)%uniqueWords_subset%normalizedWords_elem. done.
Qed.

(** X14. The first word of the puzzle that [generateCrossword] returns
    lies across the middle row, centred: it starts in row [size / 2] and
    column [(size - length) / 2], both rounded down, and ends inside the
    grid. *)
Theorem first_word_lies_across_the_middle (upperCP : N → list N)
    (shuffle : nat → list WordClue.t → list WordClue.t)
    (words : list WordClue.t) (size : nat) (res : CrosswordResult.t) :
  (∀ k l, shuffle k l ≡ₚ l) →
  generateCrossword upperCP shuffle words size = Returned res →
  ∃ w rest,
    CrosswordResult.words res = w :: rest
    ∧ PlacedWord.orientation w = across
    ∧ PlacedWord.startRow w = size / 2
    ∧ PlacedWord.startCol w = (size - PlacedWord.length w) / 2
    ∧ PlacedWord.startCol w + PlacedWord.length w ≤ size.
Proof.
  intros Hperm (best & Hbest & Hne & ->)%generateCrossword_Returned.
  apply bestAttempt_origin in Hbest as [k ->].
  destruct (shuffle k (uniqueWords upperCP words size)) as [|fw l] eqn:Hsh.
  { by rewrite runAttempt_empty in Hne. }
  assert (Hlen : 2 ≤ length (WordClue.answer fw) ≤ size).
  { apply (uniqueWords_elem upperCP words). rewrite <- (Hperm k), Hsh. by left. }
  pose proof (runAttempt_prefix size (fw :: l)) as [tl Htl].
  rewrite placeFirst_places in Htl by lia.
  unfold buildResult. cbn [CrosswordResult.words]. rewrite Htl.
  cbn [app map].
  eexists _, _. split; [done|].
  cbn [finalWordOf PlacedWord.orientation PlacedWord.startRow
       PlacedWord.startCol PlacedWord.length Placed.horizontal Placed.row
       Placed.col Placed.word].
  repeat split.
  assert ((size - length (WordClue.answer fw)) / 2
          ≤ size - length (WordClue.answer fw)); [|lia].
  apply Nat.Div0.div_le_upper_bound. lia.
Qed.

Lemma first_word_lies_across_the_middle_witness :
  ∃ res, generateCrossword latinUpper asIs s1Words 7 = Returned res
    ∧ ∃ w rest,
        CrosswordResult.words res = w :: rest
        ∧ PlacedWord.orientation w = across
        ∧ PlacedWord.startRow w = 7 / 2
        ∧ PlacedWord.startCol w = (7 - PlacedWord.length w) / 2
        ∧ PlacedWord.startCol w + PlacedWord.length w ≤ 7.
Proof.
  eexists. split; [vm_compute; reflexivity|].
  apply (first_word_lies_across_the_middle latinUpper asIs s1Words 7).
  - apply asIs_permutes.
  - vm_compute. reflexivity.
Defined.

(** ** The words of the puzzle are distinct candidates *)

Lemma removeDuplicates_fresh ws : ∀ seen w,
  w ∈ removeDuplicates seen ws → WordClue.answer w ∉ seen.
Proof.
  induction ws as [|w0 ws IH]; intros seen w Hw; simpl in Hw.
  { by apply elem_of_nil in Hw. }
  destruct (bool_decide (WordClue.answer w0 ∈ seen)) eqn:E.
  - by apply IH.
  - apply bool_decide_eq_false in E.
    apply elem_of_cons in Hw as [->|Hw]; [done|].
    apply IH in Hw. set_solver.
Qed.

Lemma removeDuplicates_NoDup ws : ∀ seen,
  NoDup (map WordClue.answer (removeDuplicates seen ws)).
Proof.
  induction ws as [|w0 ws IH]; intros seen; simpl; [constructor|].
  destruct (bool_decide (WordClue.answer w0 ∈ seen)); [done|].
  simpl. constructor; [|done].
  intros (w & Heq & Hw%removeDuplicates_fresh)%list_elem_of_fmap.
  rewrite Heq in Hw. set_solver.
Qed.

Lemma uniqueWords_NoDup upperCP words size :
  NoDup (map WordClue.answer (uniqueWords upperCP words size)).
Proof.
  unfold uniqueWords.
  rewrite (fmap_Permutation _ _ _ (sortBy_Permutation _ _)).
  apply removeDuplicates_NoDup.
Qed.

Lemma foldl_placeBest_sublist (f : BuildState → WordClue.t → list Placement.t)
    l : ∀ st,
  ∃ l', l' `sublist_of` l
    ∧ map Placed.word (foldl (λ st w, placeBest st w (f st w)) st l).2
      = map Placed.word st.2 ++ l'.
Proof.
  induction l as [|w l IH]; intros st; simpl.
  { exists []. split; [done|]. by rewrite app_nil_r. }
  destruct (IH (placeBest st w (f st w))) as (l' & Hsub & Heq).
  rewrite Heq. unfold placeBest. destruct (f st w) as [|best rest]; simpl.
  - exists l'. split; [by apply sublist_cons|done].
  - exists (w :: l'). split; [by apply sublist_skip|].
    rewrite map_app. simpl. by rewrite <- app_assoc.
Qed.

Lemma placeFirst_words size shuffled :
  map Placed.word (placeFirst size shuffled).2 `sublist_of` take 1 shuffled.
Proof.
  unfold placeFirst. destruct shuffled as [|fw l]; simpl; [done|].
  destruct (canPlaceWord _ _ _ _ _ _); simpl.
  - rewrite take_0. done.
  - rewrite take_0. by apply sublist_cons.
Qed.

Lemma mainPass_words size shuffled :
  map Placed.word (mainPass (placeFirst size shuffled) shuffled).2
  `sublist_of` shuffled.
Proof.
  unfold mainPass.
  destruct (foldl_placeBest_sublist
              (λ st word, findPlacements st.1 (WordClue.answer word) true)
              (drop 1 shuffled) (placeFirst size shuffled))
    as (l' & Hsub & ->).
  rewrite <- (take_drop 1 shuffled) at 2.
  apply sublist_app; [apply placeFirst_words|done].
Qed.

Lemma filter_sublist {A} (f : A → bool) l : List.filter f l `sublist_of` l.
Proof.
  induction l as [|x l IH]; simpl; [done|].
  destruct (f x); [by apply sublist_skip|by apply sublist_cons].
Qed.

Lemma shortWords_sublist placed shuffled :
  shortWords placed shuffled `sublist_of` shuffled.
Proof. unfold shortWords. etrans; apply filter_sublist. Qed.

Lemma shortWords_fresh placed shuffled w p :
  w ∈ shortWords placed shuffled → p ∈ placed →
  WordClue.answer (Placed.word p) ≠ WordClue.answer w.
Proof.
  unfold shortWords.
  intros [Hw _]%list_elem_of_In%filter_In.
  apply filter_In in Hw as [_ Hw]. apply negb_true_iff in Hw.
  intros Hp%list_elem_of_In Heq.
  assert (existsb (λ p, strEq (WordClue.answer (Placed.word p))
                          (WordClue.answer w)) placed = true); [|congruence].
  apply existsb_exists. exists p. split; [done|]. by apply strEq_true.
Qed.

Lemma runAttempt_answers size shuffled :
  NoDup (map WordClue.answer shuffled) →
  NoDup (map wordOf (Attempt.placed (runAttempt size shuffled))).
Proof.
  intros Hnd. unfold runAttempt, edgePass. cbn [Attempt.placed].
  set (st := mainPass (placeFirst size shuffled) shuffled).
  destruct (foldl_placeBest_sublist
              (λ st0 word, List.filter (onEdge size word)
                 (findPlacements st0.1 (WordClue.answer word) false))
              (shortWords st.2 shuffled) st)
    as (l' & Hsub & Heq).
  assert (Hmap : ∀ l, map wordOf l = map WordClue.answer (map Placed.word l)).
  { intros l. by rewrite map_map. }
  rewrite Hmap, Heq, map_app. apply NoDup_app. split; [|split].
  - eapply sublist_NoDup; [exact Hnd|].
    apply fmap_sublist, mainPass_words.
  - intros a (w1 & -> & (p & -> & Hp)%list_elem_of_fmap)%list_elem_of_fmap
             (w2 & Heq2 & Hw2)%list_elem_of_fmap.
    eapply shortWords_fresh; [|exact Hp|exact Heq2].
    by eapply elem_of_sublist.
  - eapply sublist_NoDup; [exact Hnd|].
    apply fmap_sublist. etrans; [exact Hsub|apply shortWords_sublist].
Qed.

(** X15. No answer stands twice in the puzzle that [generateCrossword]
    returns, and the puzzle has no more words than candidates were
    given. *)
Theorem answers_are_distinct (upperCP : N → list N)
    (shuffle : nat → list WordClue.t → list WordClue.t)
    (words : list WordClue.t) (size : nat) (res : CrosswordResult.t) :
  (∀ k l, shuffle k l ≡ₚ l) →
  generateCrossword upperCP shuffle words size = Returned res →
  NoDup (map PlacedWord.answer (CrosswordResult.words res))
  ∧ length (CrosswordResult.words res) ≤ length words.
Proof.
  intros Hperm (best & Hbest & _ & ->)%generateCrossword_Returned.
  apply bestAttempt_origin in Hbest as [k ->].
  assert (Hnd : NoDup (map wordOf (Attempt.placed
            (runAttempt size (shuffle k (uniqueWords upperCP words size)))))).
  { apply runAttempt_answers.
    rewrite (fmap_Permutation _ _ _ (Hperm k _)). apply uniqueWords_NoDup. }
  unfold buildResult. cbn [CrosswordResult.words].
  rewrite map_map. cbn [finalWordOf PlacedWord.answer].
  split; [exact Hnd|].
  rewrite length_map, <- (length_map wordOf).
  assert (H1 : length (map wordOf (Attempt.placed
              (runAttempt size (shuffle k (uniqueWords upperCP words size)))))
            ≤ length (map WordClue.answer (uniqueWords upperCP words size))).
  { apply submseteq_length, NoDup_submseteq; [exact Hnd|].
    intros a (p & -> & Hp)%list_elem_of_fmap.
    apply runAttempt_words in Hp. rewrite Hperm in Hp.
    apply list_elem_of_fmap. by exists (Placed.word p). }
  assert (H2 : length (uniqueWords upperCP words size)
            ≤ length (normalizedWords upperCP words size)).
  { unfold uniqueWords.
    rewrite (Permutation_length (sortBy_Permutation _ _)).
    apply sublist_length.
    generalize (normalizedWords upperCP words size).
    intros l. generalize (∅ : gset (list N)).
    induction l as [|w l IH]; intros seen; simpl; [done|].
    destruct (bool_decide _); [by apply sublist_cons|by apply sublist_skip]. }
  assert (H3 : length (normalizedWords upperCP words size) ≤ length words).
  { unfold normalizedWords.
    etrans; [apply sublist_length, filter_sublist|]. by rewrite length_map. }
  rewrite !length_map in *. lia.
Qed.

Lemma answers_are_distinct_witness :
  ∃ res, generateCrossword latinUpper asIs s1Words 7 = Returned res
    ∧ NoDup (map PlacedWord.answer (CrosswordResult.words res))
    ∧ length (CrosswordResult.words res) ≤ length s1Words.
Proof.
  eexists. split; [vm_compute; reflexivity|].
  apply (answers_are_distinct latinUpper asIs s1Words 7).
  - apply asIs_permutes.
  - vm_compute. reflexivity.
Defined.

Lemma removeDuplicates_first ws : ∀ seen x,
  x ∈ removeDuplicates seen ws →
  ∃ l1 l2, ws = l1 ++ x :: l2
    ∧ ∀ y, y ∈ l1 → WordClue.answer y ≠ WordClue.answer x.
Proof.
  induction ws as [|w0 ws IH]; intros seen x Hx; simpl in Hx.
  { by apply elem_of_nil in Hx. }
  destruct (bool_decide (WordClue.answer w0 ∈ seen)) eqn:E.
  - apply bool_decide_eq_true in E.
    pose proof (removeDuplicates_fresh _ _ _ Hx) as Hfresh.
    destruct (IH _ _ Hx) as (l1 & l2 & -> & Hl1).
    exists (w0 :: l1), l2. split; [done|].
    intros y [->|Hy]%elem_of_cons; [congruence|by apply Hl1].
  - apply elem_of_cons in Hx as [->|Hx].
    + exists [], ws. split; [done|]. intros y Hy. by apply elem_of_nil in Hy.
    + pose proof (removeDuplicates_fresh _ _ _ Hx) as Hfresh.
      destruct (IH _ _ Hx) as (l1 & l2 & -> & Hl1).
      exists (w0 :: l1), l2. split; [done|].
      intros y [->|Hy]%elem_of_cons; [set_solver|by apply Hl1].
Qed.

Lemma filter_map_split {A B} (P : B → bool) (f : A → B) l : ∀ l1 x l2,
  List.filter P (map f l) = l1 ++ x :: l2 →
  ∃ b a0 a, l = b ++ a0 :: a ∧ f a0 = x ∧ P x = true
    ∧ List.filter P (map f b) = l1.
Proof.
  induction l as [|y l IH]; intros l1 x l2 Heq; simpl in Heq.
  { by destruct l1. }
  destruct (P (f y)) eqn:E.
  - destruct l1 as [|z l1]; simpl in Heq.
    + injection Heq as Hx _. exists [], y, l. subst x. done.
    + injection Heq as <- Heq.
      destruct (IH _ _ _ Heq) as (b & a0 & a & -> & Hf & HP & Hb).
      exists (y :: b), a0, a. simpl. rewrite E, Hb. done.
  - destruct (IH _ _ _ Heq) as (b & a0 & a & -> & Hf & HP & Hb).
    exists (y :: b), a0, a. simpl. rewrite E. done.
Qed.

(** X16. Each word of the puzzle that [generateCrossword] returns
    carries the clue, the article link and the article id of the first
    candidate whose normalised answer it is; its answer has between 2 and
    [size] graphemes. *)
Theorem word_carries_first_candidate (upperCP : N → list N)
    (shuffle : nat → list WordClue.t → list WordClue.t)
    (words : list WordClue.t) (size : nat) (res : CrosswordResult.t) :
  (∀ k l, shuffle k l ≡ₚ l) →
  generateCrossword upperCP shuffle words size = Returned res →
  ∀ w, w ∈ CrosswordResult.words res →
    ∃ before w0 after,
      words = before ++ w0 :: after
      ∧ PlacedWord.answer w = normalizeJapanese upperCP (WordClue.answer w0)
      ∧ PlacedWord.clue w = WordClue.clue w0
      ∧ PlacedWord.articleLink w = WordClue.articleLink w0
      ∧ PlacedWord.articleId w = WordClue.articleId w0
      ∧ 2 ≤ PlacedWord.length w ≤ size
      ∧ ∀ w1, w1 ∈ before →
          normalizeJapanese upperCP (WordClue.answer w1) ≠ PlacedWord.answer w.
Proof.
  intros Hperm (best & Hbest & _ & ->)%generateCrossword_Returned
         w (p & Hp & ->)%words_build.
  apply bestAttempt_origin in Hbest as [k ->].
  apply runAttempt_words in Hp. rewrite Hperm in Hp.
  unfold uniqueWords in Hp. rewrite sortBy_elem_of in Hp.
  apply removeDuplicates_first in Hp as (l1 & l2 & Heq & Hl1).
  unfold normalizedWords in Heq.
  apply filter_map_split in Heq as (b & w0 & a & -> & Hw0 & HP & Hb).
  exists b, w0, a. cbn [finalWordOf PlacedWord.answer PlacedWord.clue
    PlacedWord.articleLink PlacedWord.articleId PlacedWord.length].
  rewrite <- Hw0. cbn [WordClue.answer WordClue.clue WordClue.articleLink
    WordClue.articleId].
  rewrite <- Hw0 in HP. cbn [WordClue.answer] in HP.
  apply andb_true_iff in HP as [HP1%Nat.leb_le HP2%Nat.leb_le].
  repeat split; try done.
  intros w1 Hw1 Heq1.
  set (f := λ w, WordClue.mk (normalizeJapanese upperCP (WordClue.answer w))
                   (WordClue.clue w) (WordClue.articleLink w)
                   (WordClue.articleId w)) in *.
  apply (Hl1 (f w1)).
  - rewrite <- Hb. apply list_elem_of_In, filter_In. split.
    + apply in_map, list_elem_of_In, Hw1.
    + unfold f. cbn [WordClue.answer]. rewrite Heq1.
      apply andb_true_iff. split; by apply Nat.leb_le.
  - rewrite <- Hw0. unfold f. cbn [WordClue.answer]. done.
Qed.

Lemma word_carries_first_candidate_witness :
  ∃ res, generateCrossword latinUpper asIs s1Words 7 = Returned res
    ∧ ∀ w, w ∈ CrosswordResult.words res →
        ∃ before w0 after,
          s1Words = before ++ w0 :: after
          ∧ PlacedWord.answer w
            = normalizeJapanese latinUpper (WordClue.answer w0)
          ∧ PlacedWord.clue w = WordClue.clue w0
          ∧ PlacedWord.articleLink w = WordClue.articleLink w0
          ∧ PlacedWord.articleId w = WordClue.articleId w0
          ∧ 2 ≤ PlacedWord.length w ≤ 7
          ∧ ∀ w1, w1 ∈ before →
              normalizeJapanese latinUpper (WordClue.answer w1)
              ≠ PlacedWord.answer w.
Proof.
  eexists. split; [vm_compute; reflexivity|].
  apply (word_carries_first_candidate latinUpper asIs s1Words 7).
  - apply asIs_permutes.
  - vm_compute. reflexivity.
Defined.

(** ** The edge filling pass *)

Lemma foldl_placeBest_added (f : BuildState → WordClue.t → list Placement.t)
    l : ∀ st,
  ∃ added,
    (foldl (λ st w, placeBest st w (f st w)) st l).2 = st.2 ++ added
    ∧ ∀ p, p ∈ added →
        Placed.word p ∈ l
        ∧ ∃ st' k, Placement.mk (Placed.row p) (Placed.col p)
                     (Placed.horizontal p) k ∈ f st' (Placed.word p).
Proof.
  induction l as [|w l IH]; intros st; simpl.
  { exists []. split; [by rewrite app_nil_r|]. intros p Hp.
    by apply elem_of_nil in Hp. }
  destruct (IH (placeBest st w (f st w))) as (added & Heq & Hadded).
  rewrite Heq. unfold placeBest. destruct (f st w) as [|best rest] eqn:E; simpl.
  - exists added. split; [done|]. intros p Hp.
    destruct (Hadded p Hp) as [Hw Hf]. split; [by right|done].
  - eexists (_ :: added). split; [by rewrite <- app_assoc|].
    intros p [->|Hp]%elem_of_cons.
    + simpl. split; [by left|]. exists st, (Placement.intersections best).
      rewrite E. destruct best; by left.
    + destruct (Hadded p Hp) as [Hw Hf]. split; [by right|done].
Qed.

(** X17. The edge filling pass only appends to the placed list, and
    each word it appends is a candidate of at most three graphemes whose
    answer was not placed before the pass and whose first or last cell
    lies on the border of the grid. *)
Theorem edge_pass_places_short_words_on_the_border (size : nat)
    (grid : Grid) (placed : list Placed.t) (shuffled : list WordClue.t) :
  ∃ added,
    (edgePass size (grid, placed) shuffled).2 = placed ++ added
    ∧ ∀ p, p ∈ added →
        Placed.word p ∈ shuffled
        ∧ length (wordOf p) ≤ 3
        ∧ (∀ q, q ∈ placed → wordOf q ≠ wordOf p)
        ∧ touchesBorder size p.
Proof.
  unfold edgePass.
  destruct (foldl_placeBest_added
              (λ st word, List.filter (onEdge size word)
                 (findPlacements st.1 (WordClue.answer word) false))
              (shortWords (grid, placed).2 shuffled) (grid, placed))
    as (added & Heq & Hadded).
  exists added. split; [exact Heq|].
  intros p Hp. destruct (Hadded p Hp) as [Hw (st' & k & Hf)].
  cbn [snd] in Hw.
  split; [|split; [|split]].
  - eapply elem_of_sublist; [exact Hw|apply shortWords_sublist].
  - unfold shortWords in Hw.
    apply list_elem_of_In, filter_In in Hw as [_ Hlen].
    by apply Nat.leb_le in Hlen.
  - intros q Hq. by eapply shortWords_fresh.
  - apply list_elem_of_In, filter_In in Hf as [_ Hedge].
    unfold onEdge in Hedge. cbn [Placement.row Placement.col
      Placement.horizontal] in Hedge. unfold touchesBorder, wordOf.
    repeat (apply orb_true_iff in Hedge as [Hedge|Hedge]).
    + left. by apply Nat.eqb_eq.
    + right; left. by apply Nat.eqb_eq.
    + right; right; left. by apply Nat.eqb_eq.
    + right; right; right; left. by apply Nat.eqb_eq.
    + apply andb_true_iff in Hedge as [Hh Hc%Nat.eqb_eq].
      right; right; right; right; left. done.
    + apply andb_true_iff in Hedge as [Hh%negb_true_iff Hc%Nat.eqb_eq].
      right; right; right; right; right. done.
Qed.

(** ** Answer check, entry by entry *)

Lemma check_fold upperCP table answers : ∀ acc,
  foldl (checkEntry upperCP table) acc answers
  = (acc.1 ++ judgedAs upperCP table true answers,
     acc.2 ++ judgedAs upperCP table false answers).
Proof.
  unfold judgedAs, keysOf.
  induction answers as [|[key user] answers IH]; intros [correct incorrect].
  { simpl. by rewrite !app_nil_r. }
  cbn [foldl]. rewrite IH. unfold checkEntry, verdict. cbn [fst snd List.filter].
  destruct (getProperty table key) as [[|g v]| |]; cbn [fst snd].
  - done.
  - destruct (strEq _ _); cbn [fst snd bool_decide]; simpl.
    + by rewrite <- app_assoc.
    + by rewrite <- app_assoc.
  - simpl. by rewrite <- app_assoc.
  - done.
Qed.


Lemma keysOf_filter_NoDup (f : jsstring * jsstring → bool) (o : JsObject) :
  NoDup (keysOf o) → NoDup (keysOf (List.filter f o)).
Proof.
  intros Hnd. eapply sublist_NoDup; [exact Hnd|].
  apply fmap_sublist, filter_sublist.
Qed.

(** X19. When the submitted keys are distinct, as the keys of an
    object are, [checkAnswers] reports no key twice, none in both lists
    and none that was not submitted. *)
Theorem check_reports_each_key_once (upperCP : N → list N)
    (db : gmap (list N) Puzzle.t) (id : jsstring)
    (answers : list (list N * list N)) (correct incorrect : list jsstring) :
  NoDup (keysOf answers) →
  checkAnswers upperCP db id answers = Returned (correct, incorrect) →
  NoDup (correct ++ incorrect)
  ∧ (∀ key, key ∈ correct ++ incorrect → key ∈ keysOf answers)
  ∧ length correct + length incorrect ≤ length answers.
Proof.
  intros Hnd. unfold checkAnswers, getPuzzle.
  destruct (db !! id) as [row|]; simpl; [|done].
  destruct (Puzzle._answers row) as [table|]; [|done].
  rewrite check_fold. simpl. intros [= <- <-].
  assert (Hsub : ∀ b key, key ∈ judgedAs upperCP table b answers →
            key ∈ keysOf answers).
  { intros b key Hk. eapply elem_of_sublist; [exact Hk|].
    apply fmap_sublist, filter_sublist. }
  assert (Hone : ∀ key, key ∈ judgedAs upperCP table true answers →
            key ∈ judgedAs upperCP table false answers → False).
  { unfold judgedAs, keysOf.
    intros key ([k1 u1] & -> & [H1 V1]%list_elem_of_In%filter_In)%list_elem_of_fmap
               ([k2 u2] & Hk & [H2 V2]%list_elem_of_In%filter_In)%list_elem_of_fmap.
    simpl in Hk. subst k2.
    apply bool_decide_eq_true in V1, V2.
    apply list_elem_of_In in H1, H2.
    pose proof (objGet_entry answers k1 u1 Hnd H1) as G1.
    pose proof (objGet_entry answers k1 u2 Hnd H2) as G2.
    congruence. }
  split; [|split].
  - apply NoDup_app. split; [by apply keysOf_filter_NoDup|].
    split; [intros key H1 H2; by eapply Hone|by apply keysOf_filter_NoDup].
  - intros key [Hk|Hk]%elem_of_app; by eapply Hsub.
  - unfold judgedAs, keysOf. rewrite !length_map.
    clear. induction answers as [|e l IH]; simpl; [done|].
    destruct (verdict upperCP table e) as [[|]|]; simpl; lia.
Qed.

Lemma check_reports_each_key_once_witness :
  NoDup ([clueKey 4 (orientationName across)] ++ [])
  ∧ (∀ key, key ∈ [clueKey 4 (orientationName across)] ++ [] →
       key ∈ keysOf [(clueKey 4 (orientationName across), ukuraina)])
  ∧ length [clueKey 4 (orientationName across)] + length (@nil jsstring)
    ≤ length [(clueKey 4 (orientationName across), ukuraina)].
Proof.
  apply (check_reports_each_key_once latinUpper {[ puzzleId := s3Puzzle ]}
           puzzleId [(clueKey 4 (orientationName across), ukuraina)]).
  - apply NoDup_singleton.
  - vm_compute. reflexivity.
Defined.

(** X20. [getHint] ends in one of three ways, whatever the number and
    the direction: "Puzzle not found", "Clue not found", or a hint for a
    stored answer of one grapheme or more, which is its first grapheme
    followed by one full-width low line for each of the others, with
    [revealed] 1 and [total] the number of graphemes.  A clue key is never
    the name of an inherited property, so no [TypeError] is thrown. *)
Theorem hint_outcomes (db : gmap (list N) Puzzle.t) (id : jsstring)
    (number : nat) (direction : jsstring) :
  getHint db id number direction = Thrown Puzzle_not_found
  ∨ getHint db id number direction = Thrown Clue_not_found
  ∨ ∃ first rest,
      (db !! id ≫= Puzzle._answers) ≫= (λ table,
         objGet table (clueKey number direction)) = Some (first :: rest)
      ∧ getHint db id number direction
        = Returned (HintResult.mk (first :: replicate (length rest) lowLine)
                      1 (S (length rest))).
Proof.
  unfold getHint, getPuzzle.
  destruct (db !! id) as [row|]; simpl; [|by left].
  destruct (Puzzle._answers row) as [table|]; simpl; [|by left].
  unfold getProperty.
  destruct (objGet table (clueKey number direction)) as [[|first rest]|] eqn:E.
  - right. by left.
  - right. right. exists first, rest. split; [done|].
    simpl. by rewrite Nat.sub_0_r.
  - rewrite bool_decide_eq_false_2 by apply clueKey_not_inherited.
    right. by left.
Qed.

(** ** The answer table *)

Lemma answersOf_app l1 l2 :
  answersOf (l1 ++ l2)
  = foldl (λ acc w, objSet acc (keyOf w) (PlacedWord.answer w))
      (answersOf l1) l2.
Proof. unfold answersOf. by rewrite foldl_app. Qed.

Lemma foldl_objSet_other l : ∀ acc key,
  (∀ w, w ∈ l → keyOf w ≠ key) →
  objGet (foldl (λ acc w, objSet acc (keyOf w) (PlacedWord.answer w)) acc l)
    key
  = objGet acc key.
Proof.
  induction l as [|w l IH]; intros acc key Hne; simpl; [done|].
  rewrite IH by (intros w' Hw'; apply Hne; by right).
  rewrite objGet_objSet.
  destruct (strEq (keyOf w) key) eqn:E; [|done].
  apply strEq_true in E. exfalso. by apply (Hne w); [left|].
Qed.

(** X21. The answer table that [createPuzzle] builds answers the key of
    a word with the answer of that word, when no later word of the puzzle
    has the same key: of two words with one key the later one stays. *)
Theorem answers_table_keeps_last_word (before after : list PlacedWord.t)
    (w : PlacedWord.t) :
  (∀ w', w' ∈ after → keyOf w' ≠ keyOf w) →
  objGet (answersOf (before ++ w :: after)) (keyOf w)
  = Some (PlacedWord.answer w).
Proof.
  intros Hlast. rewrite answersOf_app. cbn [foldl].
  rewrite foldl_objSet_other by done.
  by rewrite objGet_objSet, strEq_refl.
Qed.

Lemma answers_table_keeps_last_word_witness :
  objGet (answersOf ([] ++ nekoWord :: [kotoWord])) (keyOf nekoWord)
  = Some (PlacedWord.answer nekoWord).
Proof.
  apply (answers_table_keeps_last_word [] [kotoWord] nekoWord).
  intros w' Hw'. apply list_elem_of_singleton in Hw'. subst w'.
  vm_compute. discriminate.
Defined.

(** X22. For a generated puzzle stored by [createPuzzle], [getHint] on
    the number and the direction of a word with whom no later word shares
    its key returns the first grapheme of its answer followed by a low
    line for each of the others, with [total] the length of the word. *)
Theorem hint_for_generated_word (upperCP : N → list N)
    (shuffle : nat → list WordClue.t → list WordClue.t)
    (words : list WordClue.t) (size gridSize : nat)
    (res : CrosswordResult.t) (db : gmap (list N) Puzzle.t) (id : jsstring)
    (before after : list PlacedWord.t) (w : PlacedWord.t) :
  (∀ k l, shuffle k l ≡ₚ l) →
  generateCrossword upperCP shuffle words size = Returned res →
  db !! id = Some (puzzleOf id gridSize res) →
  CrosswordResult.words res = before ++ w :: after →
  (∀ w', w' ∈ after → keyOf w' ≠ keyOf w) →
  getHint db id (PlacedWord.position w)
    (orientationName (PlacedWord.orientation w))
  = Returned (HintResult.mk
      (take 1 (PlacedWord.answer w)
       ++ replicate (PlacedWord.length w - 1) lowLine)
      1 (PlacedWord.length w)).
Proof.
  intros Hperm Hgen Hdb Hwords Hlast.
  assert (Hw : w ∈ CrosswordResult.words res).
  { rewrite Hwords. apply elem_of_app. right. by left. }
  destruct (returned_answer_origin upperCP shuffle Hperm words size res w
              Hgen Hw) as (_ & _ & _ & Hlen & _).
  assert (Hlength : PlacedWord.length w = length (PlacedWord.answer w)).
  { apply generateCrossword_Returned in Hgen as (best & _ & _ & ->).
    by apply words_build in Hw as (p & _ & ->). }
  assert (Hget : objGet (answersOf (CrosswordResult.words res)) (keyOf w)
                 = Some (PlacedWord.answer w)).
  { rewrite Hwords, answersOf_app. cbn [foldl].
    rewrite foldl_objSet_other by done.
    by rewrite objGet_objSet, strEq_refl. }
  unfold getHint, getPuzzle. rewrite Hdb. cbn [puzzleOf Puzzle._answers].
  fold (keyOf w). rewrite (getProperty_own _ _ _ Hget), Hlength.
  destruct (PlacedWord.answer w) as [|first rest]; [simpl in Hlen; lia|].
  done.
Qed.

Lemma hint_for_generated_word_witness :
  ∃ res, generateCrossword latinUpper asIs s1Words 7 = Returned res
    ∧ getHint {[ puzzleId := puzzleOf puzzleId 7 res ]} puzzleId 1
        (orientationName across)
      = Returned (HintResult.mk [0x30CD; 0xFF3F]%N 1 2).
Proof.
  eexists. split; [vm_compute; reflexivity|].
  eapply (hint_for_generated_word latinUpper asIs s1Words 7 7 _ _ puzzleId
           [] [kotoWord; toriWord] nekoWord).
  - apply asIs_permutes.
  - vm_compute. reflexivity.
  - apply lookup_singleton_eq.
  - vm_compute. reflexivity.
  - intros w' Hw'. apply elem_of_cons in Hw' as [->|Hw'].
    + vm_compute. discriminate.
    + apply list_elem_of_singleton in Hw'. subst w'. vm_compute. discriminate.
Defined.

Lemma judgedAs_elem upperCP table b answers key user :
  (key, user) ∈ answers → verdict upperCP table (key, user) = Some b →
  key ∈ judgedAs upperCP table b answers.
Proof.
  intros Hin Hv. unfold judgedAs, keysOf.
  apply list_elem_of_fmap. exists (key, user). split; [done|].
  apply list_elem_of_In, filter_In. split; [by apply list_elem_of_In|].
  by apply bool_decide_eq_true.
Qed.

(** X23. For a generated puzzle, a submitted answer is judged correct
    when turning its hiragana into katakana gives the stored answer: an
    answer may be typed in hiragana. *)
Theorem hiragana_answer_is_accepted (upperCP : N → list N)
    (shuffle : nat → list WordClue.t → list WordClue.t)
    (words : list WordClue.t) (size gridSize : nat)
    (res : CrosswordResult.t) (db : gmap (list N) Puzzle.t) (id : jsstring)
    (answers : list (list N * list N)) (key stored user : jsstring) :
  (∀ c d, d ∈ upperCP c → upperCP d = [d]) →
  (∀ c d, d ∈ upperCP c → kanaBlock d → c = d) →
  (∀ k l, shuffle k l ≡ₚ l) →
  generateCrossword upperCP shuffle words size = Returned res →
  db !! id = Some (puzzleOf id gridSize res) →
  objGet (answersOf (CrosswordResult.words res)) key = Some stored →
  map hiraganaToKatakana user = stored →
  (key, user) ∈ answers →
  ∃ correct incorrect,
    checkAnswers upperCP db id answers = Returned (correct, incorrect)
    ∧ key ∈ correct.
Proof.
  intros Hstable Hkana Hperm Hgen Hdb Hstored Huser Hin.
  unfold checkAnswers, getPuzzle. rewrite Hdb. cbn [puzzleOf Puzzle._answers].
  rewrite check_fold. eexists _, _. split; [done|]. cbn [fst app].
  apply (judgedAs_elem _ _ _ _ key user); [done|].
  unfold verdict. cbn [fst snd].
  rewrite (getProperty_own _ _ _ Hstored).
  apply answersOf_value in Hstored as (w & Hw & ->).
  destruct (returned_answer upperCP shuffle Hperm Hstable Hkana words size res w
              Hgen Hw) as [Hsettled Hlen].
  destruct (PlacedWord.answer w) as [|g v] eqn:E; [simpl in Hlen; lia|].
  f_equal. apply strEq_true.
  rewrite <- (hiragana_as_katakana upperCP user), Huser.
  by apply normalize_settled_fixed.
Qed.

Lemma hiragana_answer_is_accepted_witness :
  ∃ res, generateCrossword latinUpper asIs s2Words 7 = Returned res
    ∧ ∃ correct incorrect,
        checkAnswers latinUpper {[ puzzleId := puzzleOf puzzleId 7 res ]}
          puzzleId [(clueKey 1 (orientationName across), nekoHiragana)]
        = Returned (correct, incorrect)
        ∧ clueKey 1 (orientationName across) ∈ correct.
Proof.
  eexists. split; [vm_compute; reflexivity|].
  eapply (hiragana_answer_is_accepted latinUpper asIs s2Words 7 7 _ _ _ _
           _ neko nekoHiragana).
  - apply latinUpper_stable.
  - apply latinUpper_kana.
  - apply asIs_permutes.
  - vm_compute. reflexivity.
  - apply lookup_singleton_eq.
  - vm_compute. reflexivity.
  - vm_compute. reflexivity.
  - apply list_elem_of_here.
Defined.

(** ** Keyword service *)

Lemma dedupeBy_fresh {A} (key : A → jsstring) items : ∀ seen x,
  x ∈ dedupeBy key seen items → key x ∉ seen.
Proof.
  induction items as [|y items IH]; intros seen x Hx; simpl in Hx.
  { by apply elem_of_nil in Hx. }
  destruct (bool_decide (key y ∈ seen)) eqn:E.
  - by apply IH.
  - apply bool_decide_eq_false in E.
    apply elem_of_cons in Hx as [->|Hx]; [done|].
    apply IH in Hx. set_solver.
Qed.

Lemma dedupeBy_NoDup {A} (key : A → jsstring) items : ∀ seen,
  NoDup (map key (dedupeBy key seen items)).
Proof.
  induction items as [|y items IH]; intros seen; simpl; [constructor|].
  destruct (bool_decide (key y ∈ seen)); [done|].
  simpl. constructor; [|done].
  intros (x & Heq & Hx%dedupeBy_fresh)%list_elem_of_fmap.
  rewrite Heq in Hx. set_solver.
Qed.

Lemma dedupeBy_sublist {A} (key : A → jsstring) items : ∀ seen,
  dedupeBy key seen items `sublist_of` items.
Proof.
  induction items as [|y items IH]; intros seen; simpl; [done|].
  destruct (bool_decide _); [by apply sublist_cons|by apply sublist_skip].
Qed.

Lemma dedupeBy_keys {A} (key : A → jsstring) items : ∀ seen x,
  x ∈ items → key x ∈ seen ∨ key x ∈ map key (dedupeBy key seen items).
Proof.
  induction items as [|y items IH]; intros seen x Hx.
  { by apply elem_of_nil in Hx. }
  simpl. apply elem_of_cons in Hx as [->|Hx].
  - destruct (bool_decide (key y ∈ seen)) eqn:E.
    + left. by apply bool_decide_eq_true in E.
    + right. simpl. by left.
  - destruct (bool_decide (key y ∈ seen)) eqn:E; [by apply IH|].
    destruct (IH ({[key y]} ∪ seen) x Hx) as [Hs|Hd].
    + apply elem_of_union in Hs as [Hs%elem_of_singleton|Hs]; [|by left].
      right. simpl. rewrite Hs. by left.
    + right. simpl. by right.
Qed.

Lemma dedupeBy_first {A} (key : A → jsstring) items : ∀ seen x,
  x ∈ dedupeBy key seen items →
  ∃ l1 l2, items = l1 ++ x :: l2 ∧ ∀ y, y ∈ l1 → key y ≠ key x.
Proof.
  induction items as [|y items IH]; intros seen x Hx; simpl in Hx.
  { by apply elem_of_nil in Hx. }
  destruct (bool_decide (key y ∈ seen)) eqn:E.
  - apply bool_decide_eq_true in E.
    pose proof (dedupeBy_fresh _ _ _ _ Hx) as Hfresh.
    destruct (IH _ _ Hx) as (l1 & l2 & -> & Hl1).
    exists (y :: l1), l2. split; [done|].
    intros z [->|Hz]%elem_of_cons; [congruence|by apply Hl1].
  - apply elem_of_cons in Hx as [->|Hx].
    + exists [], items. split; [done|]. intros z Hz. by apply elem_of_nil in Hz.
    + pose proof (dedupeBy_fresh _ _ _ _ Hx) as Hfresh.
      destruct (IH _ _ Hx) as (l1 & l2 & -> & Hl1).
      exists (y :: l1), l2. split; [done|].
      intros z [->|Hz]%elem_of_cons; [set_solver|by apply Hl1].
Qed.

(** X24. The [Set] filter of [filterSimilarNews] and of
    [extractKeywords] keeps the first item of each key and nothing else:
    the result has no key twice, is a sublist of the items, holds an item
    of every key of the items, and nothing before one of its items has
    the key of that item. *)
Theorem dedupe_keeps_first_of_each_key {A : Type} (key : A → jsstring)
    (items : list A) :
  NoDup (map key (dedupeBy key ∅ items))
  ∧ dedupeBy key ∅ items `sublist_of` items
  ∧ (∀ x, x ∈ items → key x ∈ map key (dedupeBy key ∅ items))
  ∧ (∀ x, x ∈ dedupeBy key ∅ items →
       ∃ l1 l2, items = l1 ++ x :: l2 ∧ ∀ y, y ∈ l1 → key y ≠ key x).
Proof.
  split; [apply dedupeBy_NoDup|]. split; [apply dedupeBy_sublist|].
  split; [|apply dedupeBy_first].
  intros x Hx. destruct (dedupeBy_keys key items ∅ x Hx) as [?|?]; [set_solver|done].
Qed.

Lemma batchesFrom_concat {A} batchSize (items : list A) : ∀ remaining i,
  0 < batchSize → length items ≤ i + remaining →
  concat (map snd (batchesFrom remaining i batchSize items)) = drop i items.
Proof.
  induction remaining as [|remaining IH]; intros i Hpos Hfuel; simpl.
  { by rewrite drop_ge by lia. }
  destruct (Nat.ltb_spec i (length items)) as [Hi|Hi]; simpl.
  - rewrite IH by lia. rewrite <- drop_drop. apply take_drop.
  - by rewrite drop_ge by lia.
Qed.

Lemma batchesFrom_sizes {A} batchSize (items : list A) : ∀ remaining i,
  0 < batchSize → length items ≤ i + remaining →
  ∀ k offset batch,
    batchesFrom remaining i batchSize items !! k = Some (offset, batch) →
    offset = i + k * batchSize
    ∧ batch = take batchSize (drop offset items)
    ∧ offset < length items
    ∧ length batch = Nat.min batchSize (length items - offset).
Proof.
  induction remaining as [|remaining IH]; intros i Hpos Hfuel k offset batch Hk;
    simpl in Hk; [done|].
  destruct (Nat.ltb_spec i (length items)) as [Hi|Hi]; [|done].
  destruct k as [|k]; simpl in Hk.
  - injection Hk as <- <-. split; [lia|]. split; [done|]. split; [done|].
    by rewrite length_take, length_drop.
  - apply IH in Hk as (-> & -> & Hlt & Hlen); [|done|lia].
    repeat split; try done. lia.
Qed.

Lemma ceilDiv_step a b : 0 < b → 0 < a → ceilDiv a b = S (ceilDiv (a - b) b).
Proof.
  intros Hb Ha. unfold ceilDiv.
  destruct (Nat.le_gt_cases a b) as [Hle|Hgt].
  - replace (a - b) with 0 by lia. simpl.
    rewrite (Nat.div_small (b - 1) b) by lia.
    symmetry. apply (Nat.div_unique _ _ _ (a - 1)); lia.
  - replace (a + b - 1) with (1 * b + (a - b + b - 1)) by lia.
    rewrite Nat.div_add_l by lia. lia.
Qed.

Lemma batchesFrom_length {A} batchSize (items : list A) : ∀ remaining i,
  0 < batchSize → length items ≤ i + remaining →
  length (batchesFrom remaining i batchSize items)
  = ceilDiv (length items - i) batchSize.
Proof.
  induction remaining as [|remaining IH]; intros i Hpos Hfuel; simpl.
  { replace (length items - i) with 0 by lia. unfold ceilDiv. simpl.
    symmetry. apply Nat.div_small. lia. }
  destruct (Nat.ltb_spec i (length items)) as [Hi|Hi]; simpl.
  - rewrite IH by lia. rewrite (ceilDiv_step (length items - i)) by lia.
    do 2 f_equal. lia.
  - replace (length items - i) with 0 by lia. unfold ceilDiv. simpl.
    symmetry. apply Nat.div_small. lia.
Qed.

(** X25. The batch loop of [extractKeywords] and of [generateClues]
    cuts the items into consecutive batches that put together give the
    items back: there are [Math.ceil(length / batchSize)] batches, batch
    [k] starts at offset [k * batchSize], none is empty, and all but the
    last have [batchSize] items. *)
Theorem batches_partition_the_items {A : Type} (batchSize : nat)
    (items : list A) :
  0 < batchSize →
  concat (map snd (batches batchSize items)) = items
  ∧ length (batches batchSize items) = ceilDiv (length items) batchSize
  ∧ ∀ k offset batch,
      batches batchSize items !! k = Some (offset, batch) →
      offset = k * batchSize
      ∧ batch = take batchSize (drop offset items)
      ∧ 1 ≤ length batch ≤ batchSize
      ∧ (S k < length (batches batchSize items) → length batch = batchSize).
Proof.
  intros Hpos. unfold batches. split; [|split].
  - by rewrite batchesFrom_concat by lia.
  - rewrite batchesFrom_length by lia. by rewrite Nat.sub_0_r.
  - intros k offset batch Hk.
    pose proof (batchesFrom_sizes batchSize items (length items) 0 Hpos
                  ltac:(lia) k offset batch Hk) as (Hoff & Hb & Hlt & Hlen).
    simpl in Hoff. repeat split; try done; try lia.
    intros Hnext.
    destruct (lookup_lt_is_Some_2 _ _ Hnext) as [[offset' batch'] Hk'].
    pose proof (batchesFrom_sizes batchSize items (length items) 0 Hpos
                  ltac:(lia) (S k) offset' batch' Hk') as (Hoff' & _ & Hlt' & _).
    simpl in Hoff'. lia.
Qed.

Lemma batches_partition_the_items_witness :
  concat (map snd (batches 5 (seq 0 12))) = seq 0 12
  ∧ length (batches 5 (seq 0 12)) = ceilDiv (length (seq 0 12)) 5
  ∧ ∀ k offset batch,
      batches 5 (seq 0 12) !! k = Some (offset, batch) →
      offset = k * 5
      ∧ batch = take 5 (drop offset (seq 0 12))
      ∧ 1 ≤ length batch ≤ 5
      ∧ (S k < length (batches 5 (seq 0 12)) → length batch = 5).
Proof.
  apply (batches_partition_the_items 5 (seq 0 12)). lia.
Defined.

Lemma itemAt_elem {A} (items : list A) i x : itemAt items i = Some x → x ∈ items.
Proof.
  unfold itemAt. destruct (0 <=? i)%Z; [|done].
  apply list_elem_of_lookup_2.
Qed.



Lemma awaitBatches_resolved {A B} (f : nat → list A → promise (list B)) todo :
  ∀ all result,
  awaitBatches f todo all = Resolved result →
  ∀ x, x ∈ result →
    x ∈ all
    ∨ ∃ i batch found, (i, batch) ∈ todo ∧ f i batch = Resolved found
                       ∧ x ∈ found.
Proof.
  induction todo as [|[i batch] todo IH]; intros all result Hres x Hx;
    simpl in Hres.
  { injection Hres as <-. by left. }
  destruct (f i batch) as [found|] eqn:Hf; [|done].
  destruct (IH _ _ Hres x Hx) as [[Hin|Hin]%elem_of_app|(i' & b' & f' & H1 & H2 & H3)].
  - by left.
  - right. exists i, batch, found. split; [by left|done].
  - right. exists i', b', f'. split; [by right|done].
Qed.

Lemma batches_elem {A} batchSize (items : list A) i batch :
  0 < batchSize → (i, batch) ∈ batches batchSize items →
  batch = take batchSize (drop i items) ∧ i < length items.
Proof.
  intros Hpos (k & Hk)%list_elem_of_lookup_1.
  pose proof (batchesFrom_sizes batchSize items (length items) 0 Hpos
                ltac:(lia) k i batch Hk) as (_ & Hb & Hlt & _).
  done.
Qed.

Lemma attachArticle_article articles batchOffset k :
  articles ≠ [] →
  ∃ a, a ∈ articles
    ∧ Keyword.articleId (attachArticle articles batchOffset k) = Article.id a
    ∧ Keyword.articleLink (attachArticle articles batchOffset k)
      = orUndefined (Article.link a)
    ∧ Keyword.articleTitle (attachArticle articles batchOffset k)
      = orUndefined (Some (Article.title a)).
Proof.
  intros Hne. unfold attachArticle. cbn [Keyword.articleId Keyword.articleLink
    Keyword.articleTitle].
  destruct (itemAt articles _) as [a|] eqn:E.
  - exists a. split; [by eapply itemAt_elem|done].
  - destruct articles as [|a0 rest]; [done|].
    exists a0. split; [by left|done].
Qed.

(** X27. The keywords that [extractKeywords] resolves to have pairwise
    distinct readings, and each carries the id, the link and the title of
    one of the first 20 articles; an empty link or title counts as
    none. *)
Theorem extractKeywords_links_first_twenty
    (askKeywords : nat → list Article.t → nat → promise (list Keyword.t))
    (articles : list Article.t) (count : nat) (keywords : list Keyword.t) :
  extractKeywords askKeywords articles count = Resolved keywords →
  NoDup (map Keyword.reading keywords)
  ∧ ∀ k, k ∈ keywords →
      ∃ a, a ∈ take 20 articles
        ∧ Keyword.articleId k = Article.id a
        ∧ Keyword.articleLink k = orUndefined (Article.link a)
        ∧ Keyword.articleTitle k = orUndefined (Some (Article.title a)).
Proof.
  unfold extractKeywords.
  destruct (awaitBatches _ _ _) as [allKeywords|] eqn:Hall; [|done].
  intros [= <-]. split; [apply dedupeBy_NoDup|].
  intros k Hk.
  assert (Hk' : k ∈ allKeywords).
  { eapply elem_of_sublist; [exact Hk|apply dedupeBy_sublist]. }
  destruct (awaitBatches_resolved _ _ _ _ Hall k Hk')
    as [Hnil|(i & batch & found & Hb & Hf & Hx)].
  { by apply elem_of_nil in Hnil. }
  apply batches_elem in Hb as [-> Hi]; [|lia].
  unfold extractKeywordsBatch in Hf.
  destruct (askKeywords _ _ _) as [raw|]; [|done].
  injection Hf as <-.
  apply list_elem_of_fmap in Hx as (k0 & -> & _).
  destruct (attachArticle_article (take 5 (drop i (take 20 articles))) i k0)
    as (a & Ha & Hrest).
  { intros Hnil. apply (f_equal length) in Hnil.
    rewrite length_take, length_drop in Hnil.
    change (length (@nil Article.t)) with 0 in Hnil. lia. }
  exists a. split; [|done].
  eapply elem_of_sublist; [exact Ha|].
  etrans; [apply sublist_take|apply sublist_drop].
Qed.

Lemma extractKeywords_links_first_twenty_witness :
  ∃ keywords,
    extractKeywords sameKeywords [article1; article2] 30 = Resolved keywords
    ∧ NoDup (map Keyword.reading keywords)
    ∧ ∀ k, k ∈ keywords →
        ∃ a, a ∈ take 20 [article1; article2]
          ∧ Keyword.articleId k = Article.id a
          ∧ Keyword.articleLink k = orUndefined (Article.link a)
          ∧ Keyword.articleTitle k = orUndefined (Some (Article.title a)).
Proof.
  eexists. split; [vm_compute; reflexivity|].
  apply (extractKeywords_links_first_twenty sameKeywords
           [article1; article2] 30).
  vm_compute. reflexivity.
Defined.

(** X28. When the article index that comes with a keyword lies between
    1 and the size of the batch, [extractKeywordsBatch] attaches the
    article of that index in the batch, and the index it stores, the batch
    offset added, is the index of that article in the whole list, counted
    from 1. *)
Theorem attachArticle_index_points_at_article
    (articles batch : list Article.t) (batchOffset : nat) (k : Keyword.t) :
  batch = take 5 (drop batchOffset articles) →
  (1 ≤ Keyword.articleIndex k ≤ Z.of_nat (length batch))%Z →
  ∃ a,
    itemAt articles (Keyword.articleIndex (attachArticle batch batchOffset k) - 1)
    = Some a
    ∧ Keyword.articleIndex (attachArticle batch batchOffset k)
      = (Z.of_nat batchOffset + Keyword.articleIndex k)%Z
    ∧ Keyword.articleId (attachArticle batch batchOffset k) = Article.id a
    ∧ Keyword.articleLink (attachArticle batch batchOffset k)
      = orUndefined (Article.link a)
    ∧ Keyword.articleTitle (attachArticle batch batchOffset k)
      = orUndefined (Some (Article.title a)).
Proof.
  intros Hbatch Hrange. unfold attachArticle.
  cbn [Keyword.articleIndex Keyword.articleId Keyword.articleLink
       Keyword.articleTitle].
  destruct (Z.eqb_spec (Keyword.articleIndex k) 0) as [|_]; [lia|].
  set (idx := (Keyword.articleIndex k - 1)%Z).
  destruct (lookup_lt_is_Some_2 batch (Z.to_nat idx)) as [a Ha]; [lia|].
  assert (Hitem : itemAt batch idx = Some a).
  { unfold itemAt. rewrite (proj2 (Z.leb_le 0 idx)) by lia. done. }
  rewrite Hitem. exists a. split; [|split; [lia|done]].
  unfold itemAt. rewrite (proj2 (Z.leb_le _ _)) by lia.
  rewrite Hbatch in Ha. apply lookup_take_Some in Ha as [Ha _].
  rewrite lookup_drop in Ha. rewrite <- Ha. f_equal. lia.
Qed.

Lemma attachArticle_index_points_at_article_witness :
  ∃ a,
    itemAt [article1; article2]
      (Keyword.articleIndex
         (attachArticle [article1; article2] 0 nekoKeyword) - 1)
    = Some a
    ∧ Keyword.articleIndex (attachArticle [article1; article2] 0 nekoKeyword)
      = (Z.of_nat 0 + Keyword.articleIndex nekoKeyword)%Z
    ∧ Keyword.articleId (attachArticle [article1; article2] 0 nekoKeyword)
      = Article.id a
    ∧ Keyword.articleLink (attachArticle [article1; article2] 0 nekoKeyword)
      = orUndefined (Article.link a)
    ∧ Keyword.articleTitle (attachArticle [article1; article2] 0 nekoKeyword)
      = orUndefined (Some (Article.title a)).
Proof.
  apply (attachArticle_index_points_at_article [article1; article2]
           [article1; article2] 0 nekoKeyword).
  - reflexivity.
  - vm_compute. split; discriminate.
Defined.



(** ** The concurrency limiter *)

Section LimiterFacts.

Context {T : Type}.
Variable concurrency : Z.

Lemma next_inv (st : Limiter.t T) pending :
  Limiter.active st = Z.of_nat pending →
  (Limiter.active st ≤ Z.max 0 concurrency)%Z →
  (∀ entry rest, Limiter.queue st = entry :: rest → rest ≠ [] →
     (concurrency ≤ Limiter.active st + 1)%Z) →
  limiterInv concurrency (next concurrency st).1
    (pending + length (option_list (next concurrency st).2))
  ∧ option_list (next concurrency st).2
    ++ Limiter.queue (next concurrency st).1
    = Limiter.queue st.
Proof.
  intros Hact Hmax Hq. unfold next, limiterInv.
  destruct (Z.ltb_spec (Limiter.active st) concurrency) as [Hlt|Hge]; simpl.
  - destruct (Limiter.queue st) as [|entry rest] eqn:E; simpl.
    + rewrite E. repeat split; try done; lia.
    + repeat split; try lia. intros Hne. specialize (Hq entry rest eq_refl Hne).
      lia.
  - repeat split; try done; try lia.
Qed.

Lemma runLimiter_inv events :
  ∀ (st : Limiter.t T) started pending st' started' pending',
  limiterInv concurrency st pending →
  runLimiter concurrency events st started pending
  = Some (st', started', pending') →
  limiterInv concurrency st' pending'
  ∧ started' ++ Limiter.queue st'
    = started ++ Limiter.queue st ++ calledWith events.
Proof.
  induction events as [|[entry|] events IH];
    intros st started pending st' started' pending' (Hact & Hmax & Hq) Hrun;
    simpl in Hrun.
  - injection Hrun as <- <- <-. split; [done|].
    unfold calledWith. simpl. by rewrite app_nil_r.
  - unfold limit in Hrun.
    set (st1 := Limiter.mk (Limiter.active st) (Limiter.queue st ++ [entry]))
      in *.
    destruct (next concurrency st1) as [st2 begun] eqn:Hnext.
    destruct (next_inv st1 pending) as [Hinv Hqueue]; [done|done| |].
    { simpl. intros e rest Heq Hne.
      destruct (Limiter.queue st) as [|e0 q0] eqn:Eq.
      - simpl in Heq. injection Heq as _ <-. done.
      - specialize (Hq ltac:(done)). lia. }
    rewrite Hnext in Hinv, Hqueue. simpl in Hinv, Hqueue.
    apply IH in Hrun as [Hinv' Heq]; [|done].
    split; [done|]. rewrite Heq.
    unfold calledWith. simpl. fold (calledWith events).
    rewrite <- !app_assoc. f_equal. rewrite (app_assoc _ (Limiter.queue st2)).
    rewrite Hqueue. by rewrite <- app_assoc.
  - destruct pending as [|pending]; [done|].
    unfold onSettled in Hrun.
    set (st1 := Limiter.mk (Limiter.active st - 1) (Limiter.queue st)) in *.
    destruct (next concurrency st1) as [st2 begun] eqn:Hnext.
    destruct (next_inv st1 pending) as [Hinv Hqueue].
    { simpl. lia. }
    { simpl. lia. }
    { simpl. intros e rest Heq Hne.
      specialize (Hq ltac:(by rewrite Heq)). lia. }
    rewrite Hnext in Hinv, Hqueue. simpl in Hinv, Hqueue.
    apply IH in Hrun as [Hinv' Heq]; [|done].
    split; [done|]. rewrite Heq.
    unfold calledWith. simpl. fold (calledWith events).
    rewrite <- !app_assoc. f_equal. rewrite (app_assoc _ (Limiter.queue st2)).
    by rewrite Hqueue.
Qed.

End LimiterFacts.

(** X30. Whatever calls and settlements reach a limiter made by
    [createLimit], [active] is the number of started entries that have
    not settled, it never passes [concurrency], no entry waits in the
    queue while a slot is free, and the entries start in the order of the
    calls: those started, followed by those queued, are those passed in. *)
Theorem limiter_keeps_its_bound {T : Type} (concurrency : Z)
    (events : list (@LimiterEvent T))
    (st : Limiter.t T) (started : list T) (pending : nat) :
  runLimiter concurrency events (Limiter.mk 0 []) [] 0
  = Some (st, started, pending) →
  Limiter.active st = Z.of_nat pending
  ∧ (Limiter.active st ≤ Z.max 0 concurrency)%Z
  ∧ (Limiter.queue st ≠ [] → (concurrency ≤ Limiter.active st)%Z)
  ∧ started ++ Limiter.queue st = calledWith events.
Proof.
  intros Hrun.
  apply runLimiter_inv in Hrun as [(H1 & H2 & H3) H4].
  - repeat split; done.
  - unfold limiterInv. simpl. repeat split; try done. lia.
Qed.

Lemma limiter_keeps_its_bound_witness :
  Limiter.active (Limiter.mk 2 ([] : list nat)) = Z.of_nat 2
  ∧ (Limiter.active (Limiter.mk 2 ([] : list nat)) ≤ Z.max 0 2)%Z
  ∧ (Limiter.queue (Limiter.mk 2 ([] : list nat)) ≠ [] →
     (2 ≤ Limiter.active (Limiter.mk 2 ([] : list nat)))%Z)
  ∧ [1; 2; 3] ++ Limiter.queue (Limiter.mk 2 ([] : list nat))
    = calledWith threeCalls.
Proof.
  apply (limiter_keeps_its_bound 2 threeCalls (Limiter.mk 2 []) [1; 2; 3] 2).
  vm_compute. reflexivity.
Defined.
